(** * The symbol definition and rule-dispatch engine of mathics-core

    A shallow embedding of [mathics/core/definitions.py]: the rule
    classifier [get_tag_position], the ordered rule lists maintained by
    [insert_rule], the per-symbol [Definition] record, and the layered
    symbol table [Definitions] with its two caches and the reverse
    index [proxy].

    Python objects that are shared and mutated in place (Definition
    objects, the rule lists stored in a format-value dictionary) live
    in an explicit store and are referred to by address, so that
    identity and aliasing are visible.  All other rule lists are only
    ever reached through the Definition that owns them and are kept by
    value inside the record. *)

From Stdlib Require Import Ascii String.
From stdpp Require Import gmap strings list fin_maps.

Open Scope string_scope.
Open Scope list_scope.
Open Scope nat_scope.

Set Warnings "-register-all".

(** ** Names and contexts *)

Module Names.

Definition mark : ascii := "`"%char.

Definition is_mark (c : ascii) : bool := Ascii.eqb c mark.

(** ["`" in name] *)
Fixpoint has_mark (name : string) : bool :=
  match name with
  | EmptyString => false
  | String c rest => if is_mark c then true else has_mark rest
  end.

(** [name.startswith("`")] *)
Definition startswith_mark (name : string) : bool :=
  match name with
  | String c _ => is_mark c
  | EmptyString => false
  end.

(** [name.endswith("`")] *)
Fixpoint endswith_mark (name : string) : bool :=
  match name with
  | EmptyString => false
  | String c EmptyString => is_mark c
  | String _ rest => endswith_mark rest
  end.

(** ["``" in name] *)
Fixpoint has_double_mark (name : string) : bool :=
  match name with
  | EmptyString => false
  | String c rest =>
      if is_mark c && startswith_mark rest then true else has_double_mark rest
  end.

(** [name.lstrip("`")] *)
Fixpoint lstrip_mark (name : string) : string :=
  match name with
  | EmptyString => EmptyString
  | String c rest => if is_mark c then lstrip_mark rest else name
  end.

(** Modelled from the spec: [fully_qualified_symbol_name] of
    [mathics.core.element] is not among the sources.  A name is fully
    qualified when it contains the separator, neither starts nor ends
    with it (no dangling separator) and contains no doubled separator. *)
Definition fully_qualified_symbol_name (name : string) : bool :=
  has_mark name && negb (startswith_mark name) && negb (endswith_mark name)
  && negb (has_double_mark name).

(** Modelled from the spec: [strip_context] of [mathics.core.symbols] is
    not among the sources.  The context-stripped short form of a name is
    what follows its last separator; a name without separator is its own
    short form. *)
Fixpoint strip_context (name : string) : string :=
  match name with
  | EmptyString => EmptyString
  | String c rest =>
      if has_mark rest then strip_context rest
      else if is_mark c then rest else name
  end.

(** [name[-1] != "`"], which raises [IndexError] on the empty string. *)
Definition last_is_not_mark (name : string) : option bool :=
  match name with
  | EmptyString => None
  | _ => Some (negb (endswith_mark name))
  end.

End Names.

(** ** Expressions and patterns *)

(** Modelled from the spec: the expression classes of [mathics.core]
    are not among the sources.  An expression is a symbol, another atom
    (number, string; it carries the name of its class head), or a head
    applied to elements. *)
Inductive Expr : Type :=
  | Symbol (name : string)
  | Atom (class_head_name : string) (value : string)
  | Expression (head : Expr) (elements : list Expr).

Module Element.

(** [isinstance(e, Atom)]: symbols are atoms too. *)
Definition is_atom (e : Expr) : bool :=
  match e with
  | Expression _ _ => false
  | _ => true
  end.

(** Modelled from the spec: [get_name] is the name of a symbol and the
    empty string for anything else. *)
Definition get_name (e : Expr) : string :=
  match e with
  | Symbol name => name
  | _ => ""
  end.

(** Modelled from the spec: the head name of an application is the name
    of its head; an atom's head is the symbol of its class. *)
Definition get_head_name (e : Expr) : string :=
  match e with
  | Symbol _ => "System`Symbol"
  | Atom h _ => h
  | Expression head _ => get_name head
  end.

Definition elements (e : Expr) : list Expr :=
  match e with
  | Expression _ es => es
  | _ => []
  end.

(** Modelled from the spec: the lookup name is the name of the leftmost
    head (head of head of ...); for an atom it is [get_name]. *)
Fixpoint leftmost_head_name (head : Expr) : string :=
  match head with
  | Symbol name => name
  | Atom h _ => h
  | Expression head' _ => leftmost_head_name head'
  end.

Definition get_lookup_name (e : Expr) : string :=
  match e with
  | Expression head _ => leftmost_head_name head
  | _ => get_name e
  end.

(** Modelled from the spec: [sameQ] is structural equality. *)
Fixpoint sameQ (a b : Expr) {struct a} : bool :=
  match a, b with
  | Symbol x, Symbol y => String.eqb x y
  | Atom h x, Atom k y => String.eqb h k && String.eqb x y
  | Expression h xs, Expression k ys =>
      sameQ h k &&
      (fix all2 (xs ys : list Expr) {struct xs} : bool :=
         match xs, ys with
         | [], [] => true
         | x :: xs', y :: ys' => sameQ x y && all2 xs' ys'
         | _, _ => false
         end) xs ys
  | _, _ => false
  end.

End Element.

(** ** The rule classifier *)

Inductive position : Type :=
  | Own | Down | Sub | Up | NPos | Default | Messages.

Definition position_eqb (p q : position) : bool :=
  match p, q with
  | Own, Own | Down, Down | Sub, Sub | Up, Up
  | NPos, NPos | Default, Default | Messages, Messages => true
  | _, _ => false
  end.

(** [get_tag_position(pattern, name)].  The final [for] loop returns
    ["up"] at the first element whose lookup name is [name]. *)
Fixpoint get_tag_position (pattern : Expr) (name : string) : option position :=
  if String.eqb (Element.get_name pattern) name then Some Own
  else
    match pattern with
    | Symbol _ | Atom _ _ => None
    | Expression head elements =>
        let head_name := Element.get_name head in
        if String.eqb head_name name then Some Down
        else if String.eqb head_name "System`N" && (length elements =? 2)%nat
        then Some NPos
        else if String.eqb head_name "System`Condition"
                && (0 <? length elements)%nat
        then match elements with
             | first :: _ => get_tag_position first name
             | [] => None
             end
        else if String.eqb (Element.get_lookup_name pattern) name then Some Sub
        else if existsb
                  (fun element =>
                     String.eqb (Element.get_lookup_name element) name)
                  elements
        then Some Up
        else None
    end.

(** The classification the specification describes, as a relation:
    one constructor per numbered case, each carrying the failure of
    the cases before it. *)
Inductive classified (s : string) : Expr → option position → Prop :=
  | cl_own :
      classified s (Symbol s) (Some Own)
  | cl_atom p :
      p ≠ Symbol s → Element.is_atom p = true →
      classified s p None
  | cl_down p :
      Element.is_atom p = false →
      Element.get_head_name p = s →
      classified s p (Some Down)
  | cl_n p :
      Element.is_atom p = false →
      Element.get_head_name p ≠ s →
      Element.get_head_name p = "System`N" →
      length (Element.elements p) = 2 →
      classified s p (Some NPos)
  | cl_condition p first rest c :
      Element.is_atom p = false →
      Element.get_head_name p ≠ s →
      Element.get_head_name p = "System`Condition" →
      Element.elements p = first :: rest →
      classified s first c →
      classified s p c
  | cl_sub p :
      Element.is_atom p = false →
      Element.get_head_name p ≠ s →
      ¬ (Element.get_head_name p = "System`N"
         ∧ length (Element.elements p) = 2) →
      ¬ (Element.get_head_name p = "System`Condition"
         ∧ Element.elements p ≠ []) →
      Element.get_lookup_name p = s →
      classified s p (Some Sub)
  | cl_up p :
      Element.is_atom p = false →
      Element.get_head_name p ≠ s →
      ¬ (Element.get_head_name p = "System`N"
         ∧ length (Element.elements p) = 2) →
      ¬ (Element.get_head_name p = "System`Condition"
         ∧ Element.elements p ≠ []) →
      Element.get_lookup_name p ≠ s →
      (∃ a, a ∈ Element.elements p ∧ Element.get_lookup_name a = s) →
      classified s p (Some Up)
  | cl_none p :
      Element.is_atom p = false →
      Element.get_head_name p ≠ s →
      ¬ (Element.get_head_name p = "System`N"
         ∧ length (Element.elements p) = 2) →
      ¬ (Element.get_head_name p = "System`Condition"
         ∧ Element.elements p ≠ []) →
      Element.get_lookup_name p ≠ s →
      (∀ a, a ∈ Element.elements p → Element.get_lookup_name a ≠ s) →
      classified s p None.

(** The patterns of the three examples: [f], [f[x_]] and
    [f[x_] /; x > 0] for the symbol [Global`f]. *)
Module Examples.

Definition f : string := "Global`f".
Definition x_ : Expr :=
  Expression (Symbol "System`Pattern")
    [Symbol "Global`x"; Expression (Symbol "System`Blank") []].
Definition f_x : Expr := Expression (Symbol f) [x_].
Definition x_positive : Expr :=
  Expression (Symbol "System`Greater") [Symbol "Global`x"; Atom "System`Integer" "0"].
Definition f_x_if : Expr :=
  Expression (Symbol "System`Condition") [f_x; x_positive].

End Examples.

(** ** Pattern objects *)

(** Modelled from the spec: the pattern classes of [mathics.core.pattern]
    are not among the sources.  The [pattern] of a rule is not the
    pattern expression but an object made from it, which keeps the
    expression as [expr]: [Definition.remove_rule] compares
    [existing.pattern.expr] with the expression it is given. *)
Record Pattern : Type := mkPattern { expr : Expr }.

(** Modelled from the spec: [sameQ] of two pattern objects, as
    [insert_rule] calls it, is a method of the missing pattern classes.
    Nothing is assumed about it: it is a parameter of everything that
    inserts a rule. *)
Class PatternSameQ : Type := pattern_sameQ : Pattern → Pattern → bool.

(** [get_tag_position(pattern, name)] when [pattern] is a pattern
    object, as in [Definition.add_rule], which passes [rule.pattern].
    Modelled from the spec as far as the object is concerned: it
    answers [get_name], [get_head_name] and [get_lookup_name] as the
    expression it wraps; it is not an instance of [Atom], so the test
    [isinstance(pattern, Atom)] fails for it; it has the attribute
    [elements], the objects made from the elements of the expression,
    when the expression is compound, and no such attribute when the
    expression is an atom.  The result [None] is the [AttributeError]
    that reading [pattern.elements] then raises; [wrapped] is
    [pattern.expr]. *)
Fixpoint get_tag_position_object (wrapped : Expr) (name : string)
  : option (option position) :=
  if String.eqb (Element.get_name wrapped) name then Some (Some Own)
  else
    let head_name := Element.get_head_name wrapped in
    if String.eqb head_name name then Some (Some Down)
    else
      match wrapped with
      | Expression _ elements =>
          if String.eqb head_name "System`N" && (length elements =? 2)%nat
          then Some (Some NPos)
          else if String.eqb head_name "System`Condition"
                  && (0 <? length elements)%nat
          then match elements with
               | first :: _ => get_tag_position_object first name
               | [] => Some None
               end
          else if String.eqb (Element.get_lookup_name wrapped) name
          then Some (Some Sub)
          else if existsb
                    (fun element =>
                       String.eqb (Element.get_lookup_name element) name)
                    elements
          then Some (Some Up)
          else Some None
      | _ =>
          if String.eqb head_name "System`N" then None
          else if String.eqb head_name "System`Condition" then None
          else if String.eqb (Element.get_lookup_name wrapped) name
          then Some (Some Sub)
          else None
      end.

(** ** Rules and ordered rule lists *)

(** Modelled from the spec: the rule classes of [mathics.core.rules] are
    not among the sources.  A rule exposes the pattern object it
    matches with, its replacement and an ordering key (its precedence);
    rules compare by that key. *)
Record Rule : Type := mkRule {
  rule_pattern : Pattern;
  rule_replace : Expr;
  rule_key : nat;
}.

(** [a < b] on rules. *)
Definition rule_lt (a b : Rule) : bool := (rule_key a <? rule_key b)%nat.

(** The loop of [bisect.bisect_left(a, x)]: one unit of [fuel] per
    iteration of [while lo < hi]. *)
Fixpoint bisect_loop (fuel : nat) (a : list Rule) (x : Rule) (lo hi : nat) : nat :=
  match fuel with
  | O => lo
  | S fuel' =>
      if (lo <? hi)%nat then
        let mid := ((lo + hi) / 2)%nat in
        match a !! mid with
        | Some y =>
            if rule_lt y x then bisect_loop fuel' a x (mid + 1) hi
            else bisect_loop fuel' a x lo mid
        | None => lo
        end
      else lo
  end.

(** The interval [hi - lo] at least halves on every iteration, so
    [length a] iterations always suffice. *)
Definition bisect_left (a : list Rule) (x : Rule) : nat :=
  bisect_loop (length a) a x 0 (length a).

(** [bisect.insort_left(a, x)]: [a.insert(bisect_left(a, x), x)]. *)
Definition insort_left (a : list Rule) (x : Rule) : list Rule :=
  let lo := bisect_left a x in
  take lo a ++ x :: drop lo a.

(** The first loop of [insert_rule]: delete the first rule
    [existing] with [existing.pattern.sameQ(pattern)], then [break]. *)
Fixpoint delete_same `{PatternSameQ} (values : list Rule) (pattern : Pattern)
  : list Rule :=
  match values with
  | [] => []
  | existing :: rest =>
      if pattern_sameQ (rule_pattern existing) pattern then rest
      else existing :: delete_same rest pattern
  end.

(** [insert_rule(values, rule)] *)
Definition insert_rule `{PatternSameQ} (values : list Rule) (rule : Rule)
  : list Rule :=
  insort_left (delete_same values (rule_pattern rule)) rule.

(** Some rule of the list has a pattern that is [sameQ] to [pattern]. *)
Definition has_match `{PatternSameQ} (values : list Rule) (pattern : Pattern)
  : bool :=
  existsb (fun existing => pattern_sameQ (rule_pattern existing) pattern) values.

(** The rule lists of the data model: ascending keys. *)
Fixpoint ascending (values : list Rule) : bool :=
  match values with
  | [] => true
  | r :: rest =>
      forallb (fun r' => (rule_key r <=? rule_key r')%nat) rest && ascending rest
  end.

(** Some rule of the list has a pattern whose expression is the same
    as [lhs], as [remove_rule] compares them. *)
Definition has_same (values : list Rule) (lhs : Expr) : bool :=
  existsb (fun existing => Element.sameQ (expr (rule_pattern existing)) lhs) values.

(** ** Definition records *)

(** Addresses of objects in the store. *)
Abbreviation loc := nat (only parsing).

(** The [builtin] back-reference of a Definition: the implementing
    object of a builtin (opaque here), or, in a merged Definition, the
    plugin or builtin Definition it was merged from. *)
Inductive builtin_ref : Type :=
  | BuiltinObject (id : nat)
  | DefinitionObject (l : loc).

(** A Python [dict] whose iteration order matters: keys in insertion
    order, each at most once. *)
Fixpoint dict_get {V : Type} (d : list (string * V)) (k : string) : option V :=
  match d with
  | [] => None
  | (k', v) :: rest => if String.eqb k' k then Some v else dict_get rest k
  end.

Fixpoint dict_set {V : Type} (d : list (string * V)) (k : string) (v : V)
  : list (string * V) :=
  match d with
  | [] => [(k, v)]
  | (k', v') :: rest =>
      if String.eqb k' k then (k, v) :: rest else (k', v') :: dict_set rest k v
  end.

(** The fields of [class Definition] ([Definition] is a reserved word
    here, hence the name).  Every format-value list is an
    object of its own in the store ([formatvalues] maps a form to its
    address); [changed] is absent until [mark_changed] sets it;
    [attributes] is the integer bit set. *)
Record DefinitionT : Type := mkDefinition {
  def_name : string;
  is_numeric : bool;
  ownvalues : list Rule;
  downvalues : list Rule;
  subvalues : list Rule;
  upvalues : list Rule;
  formatvalues : list (string * loc);
  messages : list Rule;
  attributes : Z;
  options : gmap string Expr;
  nvalues : list Rule;
  defaultvalues : list Rule;
  def_builtin : option builtin_ref;
  changed : option nat;
}.

(** [A_NO_ATTRIBUTES] of [mathics.core.attributes]: the empty bit set. *)
Definition A_NO_ATTRIBUTES : Z := 0.

(** [Definition(name=name, attributes=attributes, is_numeric=is_numeric)]:
    every category that is not passed starts empty. *)
Definition new_Definition (name : string) (attrs : Z) (numeric : bool) : DefinitionT :=
  {| def_name := name; is_numeric := numeric;
     ownvalues := []; downvalues := []; subvalues := []; upvalues := [];
     formatvalues := []; messages := []; attributes := attrs; options := ∅;
     nvalues := []; defaultvalues := []; def_builtin := None; changed := None |}.

Global Instance Definition_inhabited : Inhabited DefinitionT :=
  populate (new_Definition "" A_NO_ATTRIBUTES false).

(** [get_values_list(pos)] *)
Definition get_values_list (d : DefinitionT) (pos : position) : list Rule :=
  match pos with
  | Own => ownvalues d
  | Down => downvalues d
  | Sub => subvalues d
  | Up => upvalues d
  | NPos => nvalues d
  | Default => defaultvalues d
  | Messages => messages d
  end.

(** [set_values_list(pos, rules)] *)
Definition set_values_list (d : DefinitionT) (pos : position) (rules : list Rule)
  : DefinitionT :=
  {| def_name := def_name d; is_numeric := is_numeric d;
     ownvalues := if position_eqb pos Own then rules else ownvalues d;
     downvalues := if position_eqb pos Down then rules else downvalues d;
     subvalues := if position_eqb pos Sub then rules else subvalues d;
     upvalues := if position_eqb pos Up then rules else upvalues d;
     formatvalues := formatvalues d;
     messages := if position_eqb pos Messages then rules else messages d;
     attributes := attributes d; options := options d;
     nvalues := if position_eqb pos NPos then rules else nvalues d;
     defaultvalues := if position_eqb pos Default then rules else defaultvalues d;
     def_builtin := def_builtin d; changed := changed d |}.

Definition set_attributes_field (d : DefinitionT) (attrs : Z) : DefinitionT :=
  {| def_name := def_name d; is_numeric := is_numeric d;
     ownvalues := ownvalues d; downvalues := downvalues d;
     subvalues := subvalues d; upvalues := upvalues d;
     formatvalues := formatvalues d; messages := messages d;
     attributes := attrs; options := options d;
     nvalues := nvalues d; defaultvalues := defaultvalues d;
     def_builtin := def_builtin d; changed := changed d |}.

Definition set_options_field (d : DefinitionT) (opts : gmap string Expr) : DefinitionT :=
  {| def_name := def_name d; is_numeric := is_numeric d;
     ownvalues := ownvalues d; downvalues := downvalues d;
     subvalues := subvalues d; upvalues := upvalues d;
     formatvalues := formatvalues d; messages := messages d;
     attributes := attributes d; options := opts;
     nvalues := nvalues d; defaultvalues := defaultvalues d;
     def_builtin := def_builtin d; changed := changed d |}.

Definition set_formatvalues_field (d : DefinitionT) (fv : list (string * loc))
  : DefinitionT :=
  {| def_name := def_name d; is_numeric := is_numeric d;
     ownvalues := ownvalues d; downvalues := downvalues d;
     subvalues := subvalues d; upvalues := upvalues d;
     formatvalues := fv; messages := messages d;
     attributes := attributes d; options := options d;
     nvalues := nvalues d; defaultvalues := defaultvalues d;
     def_builtin := def_builtin d; changed := changed d |}.

Definition set_changed_field (d : DefinitionT) (t : nat) : DefinitionT :=
  {| def_name := def_name d; is_numeric := is_numeric d;
     ownvalues := ownvalues d; downvalues := downvalues d;
     subvalues := subvalues d; upvalues := upvalues d;
     formatvalues := formatvalues d; messages := messages d;
     attributes := attributes d; options := options d;
     nvalues := nvalues d; defaultvalues := defaultvalues d;
     def_builtin := def_builtin d; changed := Some t |}.

(** The methods of [class Definition] mutate [self]; here each returns
    its result together with the new contents of the object. *)
Module Def.

(** [add_rule_at(rule, position)] *)
Definition add_rule_at `{PatternSameQ} (d : DefinitionT) (rule : Rule)
    (pos : position) : bool * DefinitionT :=
  let values := get_values_list d pos in
  (true, set_values_list d pos (insert_rule values rule)).

(** [add_rule(rule)]: the classifier is given the pattern object of
    the rule; [None] is the exception it raises. *)
Definition add_rule `{PatternSameQ} (d : DefinitionT) (rule : Rule)
  : option (bool * DefinitionT) :=
  pos ← get_tag_position_object (expr (rule_pattern rule)) (def_name d);
  match pos with
  | Some pos => Some (add_rule_at d rule pos)
  | None => Some (false, d)
  end.

(** The loop of [remove_rule]: delete the first rule whose pattern is
    the same as [lhs] and report whether there was one. *)
Fixpoint remove_same (values : list Rule) (lhs : Expr) : option (list Rule) :=
  match values with
  | [] => None
  | existing :: rest =>
      if Element.sameQ (expr (rule_pattern existing)) lhs then Some rest
      else option_map (cons existing) (remove_same rest lhs)
  end.

(** [remove_rule(lhs)] *)
Definition remove_rule (d : DefinitionT) (lhs : Expr) : bool * DefinitionT :=
  match get_tag_position lhs (def_name d) with
  | Some pos =>
      let values := get_values_list d pos in
      match remove_same values lhs with
      | Some values' => (true, set_values_list d pos values')
      | None => (false, d)
      end
  | None => (false, d)
  end.

End Def.

(** ** The layered symbol table *)

(** The fields of [class Definitions] that the engine reads and writes,
    together with the store: [objects] holds the Definition objects and
    [format_lists] the rule lists that format-value dictionaries point
    to.  An address is an index into its store, allocation appends, and
    nothing is ever freed. *)
Record Definitions : Type := mkDefinitions {
  builtin : gmap string loc;
  user : gmap string loc;
  pymathics : gmap string loc;
  definitions_cache : gmap string loc;
  lookup_cache : gmap string string;
  proxy : gmap string (gset string);
  now : nat;
  current_context : string;
  context_path : list string;
  objects : list DefinitionT;
  format_lists : list (list Rule);
}.

Definition set_user (f : gmap string loc → gmap string loc) (st : Definitions)
  : Definitions :=
  {| builtin := builtin st; user := f (user st); pymathics := pymathics st;
     definitions_cache := definitions_cache st; lookup_cache := lookup_cache st;
     proxy := proxy st; now := now st; current_context := current_context st;
     context_path := context_path st; objects := objects st;
     format_lists := format_lists st |}.

Definition set_caches (dc : gmap string loc) (lc : gmap string string)
    (px : gmap string (gset string)) (st : Definitions) : Definitions :=
  {| builtin := builtin st; user := user st; pymathics := pymathics st;
     definitions_cache := dc; lookup_cache := lc;
     proxy := px; now := now st; current_context := current_context st;
     context_path := context_path st; objects := objects st;
     format_lists := format_lists st |}.

Definition set_now (t : nat) (st : Definitions) : Definitions :=
  {| builtin := builtin st; user := user st; pymathics := pymathics st;
     definitions_cache := definitions_cache st; lookup_cache := lookup_cache st;
     proxy := proxy st; now := t; current_context := current_context st;
     context_path := context_path st; objects := objects st;
     format_lists := format_lists st |}.

Definition set_objects (objs : list DefinitionT) (st : Definitions) : Definitions :=
  {| builtin := builtin st; user := user st; pymathics := pymathics st;
     definitions_cache := definitions_cache st; lookup_cache := lookup_cache st;
     proxy := proxy st; now := now st; current_context := current_context st;
     context_path := context_path st; objects := objs;
     format_lists := format_lists st |}.

Definition set_format_lists (ls : list (list Rule)) (st : Definitions) : Definitions :=
  {| builtin := builtin st; user := user st; pymathics := pymathics st;
     definitions_cache := definitions_cache st; lookup_cache := lookup_cache st;
     proxy := proxy st; now := now st; current_context := current_context st;
     context_path := context_path st; objects := objects st;
     format_lists := ls |}.

(** The state of a fresh [Definitions()] without builtins. *)
Definition initial : Definitions :=
  {| builtin := ∅; user := ∅; pymathics := ∅; definitions_cache := ∅;
     lookup_cache := ∅; proxy := ∅; now := 0; current_context := "Global`";
     context_path := ["System`"; "Global`"]; objects := []; format_lists := [] |}.

(** Methods run in a state monad over [Definitions]; [None] is an
    exception escaping the call ([RecursionError] when the fuel that
    bounds the depth of recursion runs out, [IndexError],
    [AttributeError]). *)
Definition M (A : Type) : Type := Definitions → option (A * Definitions).

Global Instance M_ret : MRet M := λ A x st, Some (x, st).

Global Instance M_bind : MBind M := λ A B f m st,
  match m st with
  | Some (a, st') => f a st'
  | None => None
  end.

Definition raise {A : Type} : M A := λ _, None.
Definition gets {A : Type} (f : Definitions → A) : M A := λ st, Some (f st, st).
Definition modify (f : Definitions → Definitions) : M unit := λ st, Some (tt, f st).

(** An operation that is undefined on its argument raises. *)
Definition or_raise {A : Type} (r : option A) : M A :=
  match r with
  | Some a => mret a
  | None => raise
  end.

(** Reading and writing the object at an address.  Python references
    never dangle; an address outside the store reads as an empty
    Definition and a write to it is dropped. *)
Definition read (l : loc) : M DefinitionT := gets (λ st, objects st !!! l).

Definition write (l : loc) (d : DefinitionT) : M unit :=
  modify (λ st, set_objects (<[l := d]> (objects st)) st).

(** Allocation of a new Definition object, of a new list. *)
Definition alloc (d : DefinitionT) : M loc := λ st,
  Some (length (objects st), set_objects (objects st ++ [d]) st).

Definition alloc_list (rules : list Rule) : M loc := λ st,
  Some (length (format_lists st), set_format_lists (format_lists st ++ [rules]) st).

(** [for k in keys: cache.pop(k, None)] *)
Definition pop_all {V : Type} (keys : gset string) (cache : gmap string V)
  : gmap string V :=
  foldl (λ c k, delete k c) cache (elements keys).

(** [clear_cache(name)]; [None] stands for the call without argument. *)
Definition clear_cache (name : option string) (st : Definitions) : Definitions :=
  match name with
  | None => set_caches ∅ ∅ ∅ st
  | Some name =>
      let tail := Names.strip_context name in
      let keys := default ∅ (proxy st !! tail) in
      set_caches (pop_all keys (definitions_cache st))
                 (pop_all keys (lookup_cache st))
                 (delete tail (proxy st)) st
  end.

(** [clear_definitions_cache(name)] *)
Definition clear_definitions_cache (name : string) (st : Definitions) : Definitions :=
  let tail := Names.strip_context name in
  let keys := default ∅ (proxy st !! tail) in
  set_caches (pop_all keys (definitions_cache st))
             (lookup_cache st)
             (delete tail (proxy st)) st.

(** The loop of [lookup_name] over [context_path]; [have] is
    [have_definition]. *)
Fixpoint search_path (have : string → M bool) (name with_context : string)
    (path : list string) : M string :=
  match path with
  | [] => mret with_context
  | ctx :: rest =>
      let n := ctx +:+ name in
      found ← have n;
      if found : bool then mret n else search_path have name with_context rest
  end.

(** [lookup_name(name)], given [have_definition]. *)
Definition lookup_name_with (have : string → M bool) (name : string) : M string :=
  cached ← gets (λ st, lookup_cache st !! name);
  match cached with
  | Some cached => mret cached
  | None =>
      if Names.fully_qualified_symbol_name name then mret name
      else
        current_context ← gets current_context;
        if Names.has_mark name then
          if Names.startswith_mark name
          then mret (current_context +:+ Names.lstrip_mark name)
          else mret name
        else
          let with_context := current_context +:+ name in
          path ← gets context_path;
          search_path have name with_context path
  end.

(** [sum((c.values for c in candidates), [])] *)
Definition sum_lists (values : loc → list Rule) (candidates : list loc) : list Rule :=
  foldl (λ acc c, acc ++ values c) [] candidates.

(** The inner loop of the merge,
    [for form, rules in curr.formatvalues.items()]: a form that is
    already present has the list it points to extended in place, a new
    form points to the very list of [curr]. *)
Definition merge_formats (items : list (string * loc))
    (acc : list (string * loc) * list (list Rule))
  : list (string * loc) * list (list Rule) :=
  foldl (λ '(formatvalues, lists) '(form, rules),
           match dict_get formatvalues form with
           | Some target =>
               (formatvalues,
                <[target := (lists !!! target) ++ (lists !!! rules)]> lists)
           | None => (dict_set formatvalues form rules, lists)
           end)
        acc items.

(** The loop [while its: curr = its.pop() ...]: the candidates are
    taken from the end of the list. *)
Definition merge_loop (objs : list DefinitionT) (its : list loc)
    (acc : gmap string Expr * (list (string * loc) * list (list Rule)))
  : gmap string Expr * (list (string * loc) * list (list Rule)) :=
  foldl (λ '(opts, formats) curr,
           let c := objs !!! curr in
           (options c ∪ opts, merge_formats (formatvalues c) formats))
        acc (rev its).

Definition option_list (o : option loc) : list loc :=
  match o with
  | Some l => [l]
  | None => []
  end.

(** The merge of [get_definition], run when there are two or more
    candidates: it allocates the list of the [""] bucket and the merged
    Definition, and returns the address of the latter. *)
Definition merge (name : string) (user pymathics builtin : option loc)
    (candidates : list loc) (builtin_instance : option loc) : M loc :=
  objs ← gets objects;
  let source := match user, pymathics, builtin with
                | Some u, _, _ => Some u
                | None, Some p, _ => Some p
                | None, None, Some b => Some b
                | None, None, None => None
                end in
  let is_numeric' := from_option (λ s, is_numeric (objs !!! s)) false source in
  let attributes' :=
    from_option (λ s, attributes (objs !!! s)) A_NO_ATTRIBUTES source in
  bucket ← alloc_list [];
  lists ← gets format_lists;
  let '(options', (formatvalues', lists')) :=
    merge_loop objs candidates (∅, ([("", bucket)], lists)) in
  modify (set_format_lists lists');;
  alloc {| def_name := name;
           is_numeric := is_numeric';
           ownvalues := sum_lists (λ c, ownvalues (objs !!! c)) candidates;
           downvalues := sum_lists (λ c, downvalues (objs !!! c)) candidates;
           subvalues := sum_lists (λ c, subvalues (objs !!! c)) candidates;
           upvalues := sum_lists (λ c, upvalues (objs !!! c)) candidates;
           formatvalues := formatvalues';
           messages := sum_lists (λ c, messages (objs !!! c)) candidates;
           attributes := attributes';
           options := options';
           nvalues := sum_lists (λ c, nvalues (objs !!! c)) candidates;
           defaultvalues := sum_lists (λ c, defaultvalues (objs !!! c)) candidates;
           def_builtin := DefinitionObject <$> builtin_instance;
           changed := None |}.

(** The registration at the end of [get_definition]. *)
Definition register (original_name name : string) (definition : loc)
    (st : Definitions) : Definitions :=
  let tail := Names.strip_context original_name in
  set_caches (<[original_name := definition]> (definitions_cache st))
             (<[original_name := name]> (lookup_cache st))
             (<[tail := {[original_name]} ∪ default ∅ (proxy st !! tail)]> (proxy st))
             st.

(** The body of [get_definition] from the three namespace lookups on,
    that is, once [name] has been resolved. *)
Definition select_definition (original_name name : string) (only_if_exists : bool)
  : M (option loc) :=
  user ← gets (λ st, user st !! name);
  pymathics ← gets (λ st, pymathics st !! name);
  builtin ← gets (λ st, builtin st !! name);
  let candidates :=
    option_list user ++ option_list pymathics ++ option_list builtin in
  let builtin_instance :=
    match pymathics with Some p => Some p | None => builtin end in
  definition ← match candidates with
               | [] => mret None
               | [single] => mret (Some single)
               | _ => merged ← merge name user pymathics builtin
                                 candidates builtin_instance;
                      mret (Some merged)
               end;
  match definition with
  | Some definition =>
      modify (register original_name name definition);;
      mret (Some definition)
  | None =>
      if only_if_exists then mret None
      else
        definition ← alloc (new_Definition name A_NO_ATTRIBUTES false);
        keep ← or_raise (Names.last_is_not_mark name);
        (if keep : bool
         then modify (set_user (λ u, <[name := definition]> u))
         else mret tt);;
        mret (Some definition)
  end.

(** [get_definition(name, only_if_exists)].  It calls [lookup_name],
    which calls [have_definition], which calls [get_definition]:
    [fuel] bounds the depth of these calls. *)
Fixpoint get_definition (fuel : nat) (name : string) (only_if_exists : bool)
  : M (option loc) :=
  match fuel with
  | O => raise
  | S fuel' =>
      definition ← gets (λ st, definitions_cache st !! name);
      match definition with
      | Some definition => mret (Some definition)
      | None =>
          let original_name := name in
          name ← lookup_name_with
                   (λ n, d ← get_definition fuel' n true;
                         mret (bool_decide (is_Some d)))
                   name;
          select_definition original_name name only_if_exists
      end
  end.

(** [have_definition(name)] *)
Definition have_definition (fuel : nat) (name : string) : M bool :=
  d ← get_definition fuel name true; mret (bool_decide (is_Some d)).

(** [lookup_name(name)] *)
Definition lookup_name (fuel : nat) (name : string) : M string :=
  lookup_name_with (have_definition fuel) name.

(** [get_user_definition(name, create)] *)
Definition get_user_definition (name : string) (create : bool) : M (option loc) :=
  existing ← gets (λ st, user st !! name);
  match existing with
  | Some existing => mret (Some existing)
  | None =>
      if negb create then mret None
      else
        builtin ← gets (λ st, builtin st !! name);
        objs ← gets objects;
        let attributes' :=
          from_option (λ b, attributes (objs !!! b)) A_NO_ATTRIBUTES builtin in
        let is_numeric' :=
          from_option (λ b, is_numeric (objs !!! b)) false builtin in
        definition ← alloc (new_Definition name attributes' is_numeric');
        modify (set_user (λ u, <[name := definition]> u));;
        modify (clear_cache (Some name));;
        gets (λ st, user st !! name)
  end.

(** [mark_changed(definition)] *)
Definition mark_changed (definition : loc) : M unit :=
  modify (λ st, set_now (now st + 1) st);;
  t ← gets now;
  d ← read definition;
  write definition (set_changed_field d t).

(** [set_attribute(name, attribute)] *)
Definition set_attribute (fuel : nat) (name : string) (attribute : Z) : M unit :=
  full ← lookup_name fuel name;
  definition ← get_user_definition full true ≫= or_raise;
  d ← read definition;
  write definition (set_attributes_field d (Z.lor (attributes d) attribute));;
  mark_changed definition;;
  modify (clear_definitions_cache name).

(** [set_attributes(name, attributes)] *)
Definition set_attributes (fuel : nat) (name : string) (attrs : Z) : M unit :=
  full ← lookup_name fuel name;
  definition ← get_user_definition full true ≫= or_raise;
  d ← read definition;
  write definition (set_attributes_field d attrs);;
  mark_changed definition;;
  modify (clear_definitions_cache name).

(** [clear_attribute(name, attribute)] *)
Definition clear_attribute (fuel : nat) (name : string) (attribute : Z) : M unit :=
  full ← lookup_name fuel name;
  definition ← get_user_definition full true ≫= or_raise;
  d ← read definition;
  write definition
    (set_attributes_field d (Z.land (attributes d) (Z.lnot attribute)));;
  mark_changed definition;;
  modify (clear_definitions_cache name).

(** [add_rule(name, rule, position)] *)
Definition add_rule `{PatternSameQ} (fuel : nat) (name : string) (rule : Rule)
    (pos : option position) : M bool :=
  full ← lookup_name fuel name;
  definition ← get_user_definition full true ≫= or_raise;
  d ← read definition;
  '(result, d') ← or_raise match pos with
                           | None => Def.add_rule d rule
                           | Some pos => Some (Def.add_rule_at d rule pos)
                           end;
  write definition d';;
  mark_changed definition;;
  modify (clear_definitions_cache name);;
  mret result.

(** One round of the loop of [add_format]. *)
Definition add_format_form `{PatternSameQ} (definition : loc) (rule : Rule)
    (form : string) : M unit :=
  d ← read definition;
  values ← match dict_get (formatvalues d) form with
           | Some values => mret values
           | None =>
               values ← alloc_list [];
               write definition
                 (set_formatvalues_field d (dict_set (formatvalues d) form values));;
               mret values
           end;
  modify (λ st, set_format_lists
                  (<[values := insert_rule (format_lists st !!! values) rule]>
                     (format_lists st)) st).

(** [add_format(name, rule, form)]; [forms] is [form] when that is a
    tuple or a list, and [[form]] otherwise. *)
Definition add_format `{PatternSameQ} (fuel : nat) (name : string) (rule : Rule)
    (forms : list string) : M unit :=
  full ← lookup_name fuel name;
  definition ← get_user_definition full true ≫= or_raise;
  foldl (λ acc form, acc;; add_format_form definition rule form) (mret tt) forms;;
  mark_changed definition;;
  modify (clear_definitions_cache name).

(** [add_nvalue], [add_default] and [add_message] differ in the
    position they pass to [add_rule_at]. *)
Definition add_rule_at `{PatternSameQ} (fuel : nat) (name : string) (rule : Rule)
    (pos : position) : M unit :=
  full ← lookup_name fuel name;
  definition ← get_user_definition full true ≫= or_raise;
  d ← read definition;
  write definition (Def.add_rule_at d rule pos).2;;
  mark_changed definition;;
  modify (clear_definitions_cache name).

Definition add_nvalue `{PatternSameQ} (fuel : nat) (name : string) (rule : Rule)
  : M unit :=
  add_rule_at fuel name rule NPos.

Definition add_default `{PatternSameQ} (fuel : nat) (name : string) (rule : Rule)
  : M unit :=
  add_rule_at fuel name rule Default.

Definition add_message `{PatternSameQ} (fuel : nat) (name : string) (rule : Rule)
  : M unit :=
  add_rule_at fuel name rule Messages.

(** [set_options(name, options)] *)
Definition set_options (fuel : nat) (name : string) (opts : gmap string Expr)
  : M unit :=
  full ← lookup_name fuel name;
  definition ← get_user_definition full true ≫= or_raise;
  d ← read definition;
  write definition (set_options_field d opts);;
  mark_changed definition;;
  modify (clear_definitions_cache name).

(** [unset(name, expr)] *)
Definition unset (fuel : nat) (name : string) (expr : Expr) : M bool :=
  full ← lookup_name fuel name;
  definition ← get_user_definition full true ≫= or_raise;
  d ← read definition;
  let '(result, d') := Def.remove_rule d expr in
  write definition d';;
  mark_changed definition;;
  modify (clear_definitions_cache name);;
  mret result.

(** The mutating operations of the engine, for statements that range
    over all of them. *)
Inductive mutation : Type :=
  | SetAttribute (attribute : Z)
  | SetAttributes (attrs : Z)
  | ClearAttribute (attribute : Z)
  | AddRule (rule : Rule) (pos : option position)
  | AddFormat (rule : Rule) (forms : list string)
  | AddNValue (rule : Rule)
  | AddDefault (rule : Rule)
  | AddMessage (rule : Rule)
  | SetOptions (opts : gmap string Expr)
  | Unset (expr : Expr).

Definition run_mutation `{PatternSameQ} (fuel : nat) (name : string) (m : mutation)
  : M unit :=
  match m with
  | SetAttribute a => set_attribute fuel name a
  | SetAttributes a => set_attributes fuel name a
  | ClearAttribute a => clear_attribute fuel name a
  | AddRule r pos => add_rule fuel name r pos;; mret tt
  | AddFormat r forms => add_format fuel name r forms
  | AddNValue r => add_nvalue fuel name r
  | AddDefault r => add_default fuel name r
  | AddMessage r => add_message fuel name r
  | SetOptions o => set_options fuel name o
  | Unset e => unset fuel name e;; mret tt
  end.

(** The one way in which a mutator raises on a well-formed search
    path: [add_rule] without a position, when the classification of the
    pattern object against the name of the Definition raises. *)
Definition classification_raises (m : mutation) (defined : string) : bool :=
  match m with
  | AddRule rule None =>
      bool_decide
        (get_tag_position_object (expr (rule_pattern rule)) defined = None)
  | _ => false
  end.

(** Every context of the search path ends with the separator. *)
Definition path_ok (st : Definitions) : bool :=
  forallb Names.endswith_mark (context_path st).

(** Every address held by a namespace or by the cache of merged
    definitions is the address of an object of the store. *)
Definition allocated (st : Definitions) (l : loc) : Prop :=
  l < length (objects st).

(** The candidates of [get_definition] for a resolved name, in the
    order user, plugin, builtin. *)
Definition sources (st : Definitions) (full : string) : list loc :=
  option_list (user st !! full) ++ option_list (pymathics st !! full)
  ++ option_list (builtin st !! full).

(** The names registered in the reverse index under a short form. *)
Definition bucket (st : Definitions) (tail : string) : gset string :=
  default ∅ (proxy st !! tail).

(** What a lookup leaves alone: the three namespaces, the clock and the
    contexts; the store of Definition objects and the buckets of the
    reverse index only grow. *)
Record frame (st st' : Definitions) : Prop := mkFrame {
  frame_builtin : builtin st' = builtin st;
  frame_user : user st' = user st;
  frame_pymathics : pymathics st' = pymathics st;
  frame_now : now st' = now st;
  frame_current_context : current_context st' = current_context st;
  frame_context_path : context_path st' = context_path st;
  frame_objects : ∃ extra, objects st' = objects st ++ extra;
  frame_proxy : ∀ tail, bucket st tail ⊆ bucket st' tail;
}.

(** What the merge does not touch. *)
Record same_tables (st st' : Definitions) : Prop := mkSameTables {
  same_frame : frame st st';
  same_definitions_cache : definitions_cache st' = definitions_cache st;
  same_lookup_cache : lookup_cache st' = lookup_cache st;
  same_proxy : proxy st' = proxy st;
}.

Definition key_below (x e : Rule) : Prop := rule_key e < rule_key x.
Definition key_from (x e : Rule) : Prop := rule_key x ≤ rule_key e.

Ltac unfold_monad :=
  unfold mbind, M_bind, mret, M_ret, gets, modify, raise, or_raise,
    read, write, alloc, alloc_list in *.

(** ** Sample states *)

Module Samples.

Definition d1 : Rule := mkRule (mkPattern Examples.f_x) (Symbol "Global`builtin") 3.
Definition d2 : Rule := mkRule (mkPattern Examples.f_x) (Symbol "Global`user") 3.

(** A comparison of pattern objects to run the examples with: two
    objects are the same when the expressions they wrap are. *)
Definition same_expr : PatternSameQ :=
  λ a b, Element.sameQ (expr a) (expr b).

Definition with_downvalues (d : DefinitionT) (rules : list Rule) : DefinitionT :=
  set_values_list d Down rules.

(** [Global`f] with a builtin Definition (object 0, down-values [[d1]])
    and a user Definition (object 1, down-values [[d2]]). *)
Definition layered : Definitions :=
  {| builtin := {[Examples.f := 0]}; user := {[Examples.f := 1]};
     pymathics := ∅; definitions_cache := ∅; lookup_cache := ∅; proxy := ∅;
     now := 0; current_context := "Global`";
     context_path := ["System`"; "Global`"];
     objects := [with_downvalues (new_Definition Examples.f 1 true) [d1];
                 with_downvalues (new_Definition Examples.f 0 false) [d2]];
     format_lists := [] |}.

(** [x] exists as the builtin [System`x] (object 0) and as the user
    symbol [Global`x] (object 1); the current context is [Global`] and
    [System`] comes first on the search path. *)
Definition shadowed : Definitions :=
  {| builtin := {["System`x" := 0]}; user := {["Global`x" := 1]};
     pymathics := ∅; definitions_cache := ∅; lookup_cache := ∅; proxy := ∅;
     now := 0; current_context := "Global`";
     context_path := ["System`"; "Global`"];
     objects := [new_Definition "System`x" 0 false;
                 new_Definition "Global`x" 0 false];
     format_lists := [] |}.

(** Only the user symbol [Global`x] exists. *)
Definition only_user_x : Definitions :=
  {| builtin := ∅; user := {["Global`x" := 0]};
     pymathics := ∅; definitions_cache := ∅; lookup_cache := ∅; proxy := ∅;
     now := 0; current_context := "Global`";
     context_path := ["System`"; "Global`"];
     objects := [new_Definition "Global`x" 0 false];
     format_lists := [] |}.

(** Only the user symbol [Global`f] exists. *)
Definition only_user_f : Definitions :=
  {| builtin := ∅; user := {[Examples.f := 0]};
     pymathics := ∅; definitions_cache := ∅; lookup_cache := ∅; proxy := ∅;
     now := 0; current_context := "Global`";
     context_path := ["System`"; "Global`"];
     objects := [new_Definition Examples.f 0 false];
     format_lists := [] |}.

(** [Global`f] with a builtin Definition (object 0) whose format values
    for [OutputForm] are the list at address 0, [[d1]], and a user
    Definition (object 1) whose format values for [OutputForm] are the
    list at address 1, [[d2]]. *)
Definition formatted : Definitions :=
  {| builtin := {[Examples.f := 0]}; user := {[Examples.f := 1]};
     pymathics := ∅; definitions_cache := ∅; lookup_cache := ∅; proxy := ∅;
     now := 0; current_context := "Global`";
     context_path := ["System`"; "Global`"];
     objects :=
       [set_formatvalues_field (new_Definition Examples.f 0 false)
          [("System`OutputForm", 0)];
        set_formatvalues_field (new_Definition Examples.f 0 false)
          [("System`OutputForm", 1)]];
     format_lists := [[d1]; [d2]] |}.

End Samples.

(** Every name in the cache of merged definitions is registered in the
    reverse index under its short form. *)
Definition indexed (st : Definitions) : Prop :=
  ∀ k, is_Some (definitions_cache st !! k) → k ∈ bucket st (Names.strip_context k).

(** The two caches and the reverse index are the same in both states. *)
Definition same_caches (st st' : Definitions) : Prop :=
  definitions_cache st' = definitions_cache st
  ∧ lookup_cache st' = lookup_cache st
  ∧ proxy st' = proxy st.

(** A computation that leaves the caches and the reverse index alone. *)
Definition keeps_caches {A : Type} (m : M A) : Prop :=
  ∀ st a st', m st = Some (a, st') → same_caches st st'.

(** A computation that maintains [indexed]. *)
Definition keeps_index {A : Type} (m : M A) : Prop :=
  ∀ st a st', m st = Some (a, st') → indexed st → indexed st'.

(** ** Further code of [definitions.py] *)

(** Every category of a Definition is in ascending order of precedence. *)
Definition well_formed (d : DefinitionT) : Prop :=
  ∀ pos, ascending (get_values_list d pos) = true.

(** [Definition(name, rules=rules)]: the constructor starts from empty
    categories and runs [self.add_rule(rule)] for each rule in turn;
    it raises when one of these calls does. *)
Definition Definition_of_rules `{PatternSameQ} (name : string) (rules : list Rule)
  : option DefinitionT :=
  foldl (λ self rule, d ← self; r ← Def.add_rule d rule; Some r.2)
    (Some (new_Definition name A_NO_ATTRIBUTES false)) rules.

(** The name a fully qualified name resolves to when the cache of
    resolved names has no other answer for it. *)
Definition self_resolved (st : Definitions) (name : string) : Prop :=
  ∀ v, lookup_cache st !! name = Some v → v = name.

(** What the namespaces show for a resolved name: the attributes and
    the numeric flag of the first source, the concatenated rule lists
    and the overlaid options of all sources. *)
Definition view_attributes (st : Definitions) (full : string) : Z :=
  from_option (λ s, attributes (objects st !!! s)) A_NO_ATTRIBUTES
    (head (sources st full)).

Definition view_values (st : Definitions) (full : string) (pos : position)
  : list Rule :=
  concat ((λ c, get_values_list (objects st !!! c) pos) <$> sources st full).

Definition view_options (st : Definitions) (full : string) : gmap string Expr :=
  ⋃ ((λ c, options (objects st !!! c)) <$> sources st full).

(** The getters [get_attributes], [get_ownvalues], [get_downvalues],
    [get_subvalues], [get_upvalues], [get_nvalues] and
    [get_defaultvalues]: [self.get_definition(name).<field>]. *)
Definition get_field {A : Type} (field : DefinitionT → A) (fuel : nat)
    (name : string) : M A :=
  definition ← get_definition fuel name false ≫= or_raise;
  d ← read definition;
  mret (field d).

Definition get_attributes : nat → string → M Z := get_field attributes.

(** [get_options(name)]: [self.get_definition(self.lookup_name(name)).options] *)
Definition get_options (fuel : nat) (name : string) : M (gmap string Expr) :=
  full ← lookup_name fuel name;
  get_field options fuel full.

(** [get_ownvalue(name)]: the first own-value, or [None]. *)
Definition get_ownvalue (fuel : nat) (name : string) : M (option Rule) :=
  full ← lookup_name fuel name;
  ownvalues ← get_field ownvalues fuel full;
  mret (head ownvalues).

(** [get_builtin_names], [get_user_names], [get_pymathics_names] and
    [get_names]. *)
Definition get_builtin_names (st : Definitions) : gset string := dom (builtin st).
Definition get_user_names (st : Definitions) : gset string := dom (user st).
Definition get_pymathics_names (st : Definitions) : gset string :=
  dom (pymathics st).
Definition get_names (st : Definitions) : gset string :=
  get_builtin_names st ∪ get_pymathics_names st ∪ get_user_names st.

(** [get_accessible_contexts()] *)
Definition get_accessible_contexts (st : Definitions) : gset string :=
  list_to_set (context_path st) ∪ {[current_context st]}.

(** A context as the engine writes them: it ends with the separator and
    does not start with it. *)
Definition plain_context (ctx : string) : bool :=
  Names.endswith_mark ctx && negb (Names.startswith_mark ctx).

(** The state [st'] differs from [st] at most in the Definition object
    at address [l] and in the store of format-value lists. *)
Record only_object (l : nat) (st st' : Definitions) : Prop := mkOnlyObject {
  oo_caches : same_caches st st';
  oo_builtin : builtin st' = builtin st;
  oo_user : user st' = user st;
  oo_pymathics : pymathics st' = pymathics st;
  oo_now : now st' = now st;
  oo_current_context : current_context st' = current_context st;
  oo_context_path : context_path st' = context_path st;
  oo_length : length (objects st') = length (objects st);
  oo_others : ∀ l', l' ≠ l → objects st' !! l' = objects st !! l';
}.

(** A computation that touches no Definition object but the one at [l]. *)
Definition keeps_others (l : nat) {A : Type} (m : M A) : Prop :=
  ∀ st a st', m st = Some (a, st') → only_object l st st'.

(** The attributes a user Definition of [full] has, or is given when
    [get_user_definition] creates it. *)
Definition user_attributes (st : Definitions) (full : string) : Z :=
  match user st !! full with
  | Some l => attributes (objects st !!! l)
  | None =>
      from_option (λ b, attributes (objects st !!! b)) A_NO_ATTRIBUTES
        (builtin st !! full)
  end.

(** The rule list of a category in the user Definition of [full], empty
    when there is none. *)
Definition user_values (st : Definitions) (full : string) (pos : position)
  : list Rule :=
  from_option (λ l, get_values_list (objects st !!! l) pos) [] (user st !! full).

(** The state after the common tail of a mutator: the new contents [d']
    are written to the object at [l], the clock advances and stamps it,
    and [clear_definitions_cache(name)] runs. *)
Definition finish_mutation (name : string) (l : nat) (d' : DefinitionT)
    (st : Definitions) : Definitions :=
  let st3 := set_objects (<[l := d']> (objects st)) st in
  let st4 := set_now (now st3 + 1) st3 in
  let st5 :=
    set_objects
      (<[l := set_changed_field (objects st4 !!! l) (now st4)]> (objects st4)) st4 in
  clear_definitions_cache name st5.


(** [reset_user_definition(name)]; [del self.user[fullname]] raises
    [KeyError] when the user namespace has no such key. *)
Definition reset_user_definition (fuel : nat) (name : string) : M unit :=
  fullname ← lookup_name fuel name;
  existing ← gets (λ st, user st !! fullname);
  or_raise existing;;
  modify (set_user (delete fullname));;
  modify (clear_cache (Some fullname)).

(** [add_user_definition(name, definition)] *)
Definition add_user_definition (fuel : nat) (name : string) (definition : loc)
  : M unit :=
  mark_changed definition;;
  fullname ← lookup_name fuel name;
  modify (set_user (λ u, <[fullname := definition]> u));;
  modify (clear_cache (Some fullname)).


Definition set_current_context_field (context : string) (st : Definitions)
  : Definitions :=
  {| builtin := builtin st; user := user st; pymathics := pymathics st;
     definitions_cache := definitions_cache st; lookup_cache := lookup_cache st;
     proxy := proxy st; now := now st; current_context := context;
     context_path := context_path st; objects := objects st;
     format_lists := format_lists st |}.

Definition set_context_path_field (path : list string) (st : Definitions)
  : Definitions :=
  {| builtin := builtin st; user := user st; pymathics := pymathics st;
     definitions_cache := definitions_cache st; lookup_cache := lookup_cache st;
     proxy := proxy st; now := now st; current_context := current_context st;
     context_path := path; objects := objects st;
     format_lists := format_lists st |}.

(** Modelled from the spec: [String] of [mathics.core.atoms] and
    [to_mathics_list] of [mathics.core.convert.expression] are not
    among the sources.  A string atom has the class head
    [System`String]; a list is the head [System`List] applied to the
    converted elements. *)
Definition MString (value : string) : Expr := Atom "System`String" value.

Definition to_mathics_list (conversion : string → Expr) (elements : list string)
  : Expr :=
  Expression (Symbol "System`List") (conversion <$> elements).

Section Ownvalues.

Context {pattern_class : PatternSameQ}.

(** Modelled from the spec: the constructor [Rule(pattern, replace)] of
    [mathics.core.rules] is not among the sources.  It makes the
    pattern object from the pattern expression and derives the
    precedence of the rule from the pattern; [pattern_key] is that
    derivation. *)
Variable pattern_key : Expr → nat.

Definition new_Rule (pattern replace : Expr) : Rule :=
  mkRule (mkPattern pattern) replace (pattern_key pattern).

(** [set_ownvalue(name, value)] *)
Definition set_ownvalue (fuel : nat) (name : string) (value : Expr) : M unit :=
  name ← lookup_name fuel name;
  add_rule fuel name (new_Rule (Symbol name) value) None;;
  modify (clear_cache (Some name)).

(** [set_current_context(context)] *)
Definition set_current_context (fuel : nat) (context : string) : M unit :=
  set_ownvalue fuel "System`$Context" (MString context);;
  modify (set_current_context_field context);;
  modify (clear_cache None).

(** [set_context_path(context_path)] *)
Definition set_context_path (fuel : nat) (path : list string) : M unit :=
  set_ownvalue fuel "System`$ContextPath" (to_mathics_list MString path);;
  modify (set_context_path_field path);;
  modify (clear_cache None).




End Ownvalues.

(** In the cache of resolved names a fully qualified name is resolved
    to itself. *)
Definition resolved (st : Definitions) : Prop :=
  ∀ k v, lookup_cache st !! k = Some v →
         Names.fully_qualified_symbol_name k = true → v = k.

(** A computation that maintains [resolved]. *)
Definition keeps_resolved {A : Type} (m : M A) : Prop :=
  ∀ st a st', m st = Some (a, st') → resolved st → resolved st'.

(** [name[n:]] *)
Fixpoint string_drop (n : nat) (name : string) : string :=
  match n, name with
  | S n', String _ rest => string_drop n' rest
  | _, _ => name
  end.

(** The local function [in_ctx] of [shorten_name]:
    [name.startswith(ctx) and "`" not in name[len(ctx):]]. *)
Definition in_ctx (name ctx : string) : bool :=
  String.prefix ctx name
  && negb (Names.has_mark (string_drop (String.length ctx) name)).

(** The loop of [shorten_name] over [context_path]. *)
Fixpoint shorten_loop (name_with_ctx : string) (path : list string) : string :=
  match path with
  | [] => name_with_ctx
  | ctx :: rest =>
      if in_ctx name_with_ctx ctx
      then string_drop (String.length ctx) name_with_ctx
      else shorten_loop name_with_ctx rest
  end.

(** [shorten_name(name_with_ctx)] *)
Definition shorten_name (name_with_ctx : string) (st : Definitions) : string :=
  if negb (Names.has_mark name_with_ctx) then name_with_ctx
  else
    let current_context := current_context st in
    if in_ctx name_with_ctx current_context
    then string_drop (String.length current_context) name_with_ctx
    else shorten_loop name_with_ctx (context_path st).

(** [list.sort()]: the sort is stable and compares with [<] only, so
    its result is the one of insertion from the right, each element
    going before the first one that is not smaller. *)
Fixpoint sort_insert (x : Rule) (sorted : list Rule) : list Rule :=
  match sorted with
  | [] => [x]
  | y :: rest => if rule_lt y x then y :: sort_insert x rest else x :: sorted
  end.

Definition sort_rules (rules : list Rule) : list Rule := foldr sort_insert [] rules.

(** [formats.get(form, [])] *)
Definition format_bucket (st : Definitions) (d : DefinitionT) (form : string)
  : list Rule :=
  from_option (λ l, format_lists st !!! l) [] (dict_get (formatvalues d) form).

(** [get_formats(name, format)]; the default of [format] is [""]. *)
Definition get_formats (fuel : nat) (name format : string) : M (list Rule) :=
  definition ← get_definition fuel name false ≫= or_raise;
  d ← read definition;
  named ← gets (λ st, format_bucket st d format);
  unnamed ← gets (λ st, format_bucket st d "");
  mret (sort_rules (named ++ unnamed)).
(** * Properties *)

(** ** Expressions *)

Section ExprInduction.

Variable P : Expr → Prop.
Hypothesis P_symbol : ∀ name, P (Symbol name).
Hypothesis P_atom : ∀ h v, P (Atom h v).
Hypothesis P_expression : ∀ head es, P head → Forall P es → P (Expression head es).

Lemma Expr_nested_ind : ∀ e, P e.
Proof.
  fix IH 1. intros [name | h v | head es].
  - apply P_symbol.
  - apply P_atom.
  - apply P_expression; [apply IH |].
    induction es as [| e es IHes]; constructor; [apply IH | exact IHes].
Qed.

End ExprInduction.

Lemma sameQ_eq (a b : Expr) : Element.sameQ a b = true ↔ a = b.
Proof.
  revert b. induction a as [x | h x | h xs IHh IHxs] using Expr_nested_ind;
    intros [y | k y | k ys]; simpl; try (split; [discriminate | congruence]).
  - rewrite String.eqb_eq. split; congruence.
  - rewrite andb_true_iff, !String.eqb_eq. split; [intros [-> ->] | intros [= -> ->]]; done.
  - rewrite andb_true_iff, IHh.
    match goal with |- context [?f xs ys] => set (all2 := f) end.
    assert (Hall : ∀ ys', all2 xs ys' = true ↔ xs = ys').
    { clear -IHxs. induction IHxs as [| x xs Hx _ IH]; intros [| y ys']; simpl;
        try (split; [discriminate | congruence]); [done |].
      rewrite andb_true_iff, Hx, IH. split; [intros [-> ->] | intros [= -> ->]]; done. }
    rewrite Hall. split; [intros [-> ->] | intros [= -> ->]]; done.
Qed.

Lemma sameQ_refl (a : Expr) : Element.sameQ a a = true.
Proof. by apply sameQ_eq. Qed.

Lemma sameQ_false (a b : Expr) : Element.sameQ a b = false ↔ a ≠ b.
Proof.
  rewrite <- sameQ_eq. destruct (Element.sameQ a b); split; congruence.
Qed.

(** ** The classifier *)

Lemma get_tag_position_unfold (pattern : Expr) (name : string) :
  get_tag_position pattern name =
  if String.eqb (Element.get_name pattern) name then Some Own
  else if Element.is_atom pattern then None
  else if String.eqb (Element.get_head_name pattern) name then Some Down
  else if String.eqb (Element.get_head_name pattern) "System`N"
          && (length (Element.elements pattern) =? 2)%nat
  then Some NPos
  else if String.eqb (Element.get_head_name pattern) "System`Condition"
          && (0 <? length (Element.elements pattern))%nat
  then match Element.elements pattern with
       | first :: _ => get_tag_position first name
       | [] => None
       end
  else if String.eqb (Element.get_lookup_name pattern) name then Some Sub
  else if existsb (λ element, String.eqb (Element.get_lookup_name element) name)
            (Element.elements pattern)
  then Some Up
  else None.
Proof. destruct pattern; reflexivity. Qed.

Lemma get_name_symbol (p : Expr) (s : string) :
  s ≠ "" → String.eqb (Element.get_name p) s = true ↔ p = Symbol s.
Proof.
  intros Hs. rewrite String.eqb_eq.
  destruct p; simpl; split; try congruence; intros; by subst.
Qed.

Lemma existsb_lookup_name (s : string) (es : list Expr) :
  existsb (λ element, String.eqb (Element.get_lookup_name element) s) es = true
  ↔ ∃ a, a ∈ es ∧ Element.get_lookup_name a = s.
Proof.
  rewrite existsb_exists. setoid_rewrite String.eqb_eq.
  setoid_rewrite list_elem_of_In. done.
Qed.

Lemma classified_sound (s : string) (p : Expr) :
  s ≠ "" → classified s p (get_tag_position p s).
Proof.
  intros Hs.
  induction p as [x | h x | h es _ IHes] using Expr_nested_ind;
    rewrite get_tag_position_unfold.
  - simpl. destruct (String.eqb x s) eqn:E.
    + apply String.eqb_eq in E as ->. constructor.
    + apply String.eqb_neq in E. apply cl_atom; [congruence | done].
  - destruct s as [| c s']; [done |]. simpl. by apply cl_atom.
  - set (p := Expression h es).
    destruct (String.eqb (Element.get_name p) s) eqn:E0.
    { apply String.eqb_eq in E0. simpl in E0. congruence. }
    change (Element.is_atom p) with false. cbv iota.
    destruct (String.eqb (Element.get_head_name p) s) eqn:E1.
    { apply String.eqb_eq in E1. by apply cl_down. }
    apply String.eqb_neq in E1.
    destruct (String.eqb (Element.get_head_name p) "System`N"
              && (length (Element.elements p) =? 2)%nat) eqn:E2.
    { apply andb_true_iff in E2 as [E2 E2']. apply String.eqb_eq in E2.
      apply Nat.eqb_eq in E2'. by apply cl_n. }
    destruct (String.eqb (Element.get_head_name p) "System`Condition"
              && (0 <? length (Element.elements p))%nat) eqn:E3.
    { apply andb_true_iff in E3 as [E3 E3']. apply String.eqb_eq in E3.
      simpl in *. destruct es as [| first rest]; [done |].
      apply (cl_condition s _ first rest); try done.
      by inversion IHes. }
    assert (H2 : ¬ (Element.get_head_name p = "System`N"
                    ∧ length (Element.elements p) = 2)).
    { intros [Ha Hb]. rewrite Ha, Hb in E2. done. }
    assert (H3 : ¬ (Element.get_head_name p = "System`Condition"
                    ∧ Element.elements p ≠ [])).
    { intros [Ha Hb]. rewrite Ha in E3. simpl in E3, Hb.
      destruct es; [done | discriminate]. }
    destruct (String.eqb (Element.get_lookup_name p) s) eqn:E4.
    { apply String.eqb_eq in E4. by apply cl_sub. }
    apply String.eqb_neq in E4.
    destruct (existsb _ _) eqn:E5.
    + apply existsb_lookup_name in E5. by apply cl_up.
    + apply cl_none; try done. intros a Ha Hn.
      assert (E5' : existsb (λ element,
                String.eqb (Element.get_lookup_name element) s)
                (Element.elements p) = true) by (apply existsb_lookup_name; eauto).
      congruence.
Qed.

Lemma get_tag_position_rest (p : Expr) (s : string) :
  s ≠ "" →
  Element.is_atom p = false →
  Element.get_head_name p ≠ s →
  ¬ (Element.get_head_name p = "System`N" ∧ length (Element.elements p) = 2) →
  ¬ (Element.get_head_name p = "System`Condition" ∧ Element.elements p ≠ []) →
  get_tag_position p s =
  if String.eqb (Element.get_lookup_name p) s then Some Sub
  else if existsb (λ element, String.eqb (Element.get_lookup_name element) s)
            (Element.elements p)
  then Some Up
  else None.
Proof.
  intros Hs Hat Hh H2 H3. rewrite get_tag_position_unfold.
  assert (E0 : String.eqb (Element.get_name p) s = false).
  { apply not_true_iff_false. rewrite get_name_symbol by done. intros ->. done. }
  rewrite E0, Hat. apply String.eqb_neq in Hh. rewrite Hh.
  destruct (String.eqb (Element.get_head_name p) "System`N"
            && (length (Element.elements p) =? 2)%nat) eqn:E2.
  { apply andb_true_iff in E2 as [Ea Eb]. apply String.eqb_eq in Ea.
    apply Nat.eqb_eq in Eb. tauto. }
  destruct (String.eqb (Element.get_head_name p) "System`Condition"
            && (0 <? length (Element.elements p))%nat) eqn:E3; [| done].
  apply andb_true_iff in E3 as [Ea Eb]. apply String.eqb_eq in Ea.
  apply Nat.ltb_lt in Eb. exfalso. apply H3. split; [done |].
  intros Hnil. rewrite Hnil in Eb. simpl in Eb. lia.
Qed.

Lemma classified_complete (s : string) (p : Expr) (c : option position) :
  s ≠ "" → classified s p c → get_tag_position p s = c.
Proof.
  intros Hs Hc.
  induction Hc as [| p Hne Hat | p Hat Hh | p Hat Hh Hn Hl
                   | p first rest c Hat Hh Hcond Hel _ IH
                   | p Hat Hh H2 H3 Hl | p Hat Hh H2 H3 Hl Hex
                   | p Hat Hh H2 H3 Hl Hall].
  - rewrite get_tag_position_unfold. simpl. by rewrite String.eqb_refl.
  - rewrite get_tag_position_unfold.
    destruct (String.eqb (Element.get_name p) s) eqn:E0.
    { apply get_name_symbol in E0; done. }
    by rewrite Hat.
  - rewrite get_tag_position_unfold.
    assert (E0 : String.eqb (Element.get_name p) s = false).
    { apply not_true_iff_false. rewrite get_name_symbol by done. intros ->. done. }
    rewrite E0, Hat. apply String.eqb_eq in Hh. by rewrite Hh.
  - rewrite get_tag_position_unfold.
    assert (E0 : String.eqb (Element.get_name p) s = false).
    { apply not_true_iff_false. rewrite get_name_symbol by done. intros ->. done. }
    rewrite E0, Hat. apply String.eqb_neq in Hh. rewrite Hh, Hn, Hl. done.
  - rewrite get_tag_position_unfold.
    assert (E0 : String.eqb (Element.get_name p) s = false).
    { apply not_true_iff_false. rewrite get_name_symbol by done. intros ->. done. }
    rewrite E0, Hat. apply String.eqb_neq in Hh. rewrite Hh, Hcond, Hel. simpl. done.
  - rewrite get_tag_position_rest by done.
    apply String.eqb_eq in Hl. by rewrite Hl.
  - rewrite get_tag_position_rest by done.
    apply String.eqb_neq in Hl. rewrite Hl.
    apply existsb_lookup_name in Hex. by rewrite Hex.
  - rewrite get_tag_position_rest by done.
    apply String.eqb_neq in Hl. rewrite Hl.
    destruct (existsb _ _) eqn:E5; [| done].
    apply existsb_lookup_name in E5 as (a & Ha & Hn). by apply Hall in Ha.
Qed.

(** C2: for a symbol name [s] (a non-empty string) and any pattern [p],
    [get_tag_position p s] is the category that the first-match
    priority list assigns: own for the bare symbol, nothing for another
    atom, down for head name [s], n for [N] with exactly two elements,
    the class of the first element under [Condition], sub for lookup
    name [s], up when an element has lookup name [s], nothing
    otherwise.  [f[x_]] and [f[x_] /; x > 0] are down-values of [f] and
    [f] itself is an own-value. *)
Theorem classifier_first_match (p : Expr) (s : string) (Hs : s ≠ "") :
  (∀ c, get_tag_position p s = c ↔ classified s p c)
  ∧ get_tag_position Examples.f_x Examples.f = Some Down
  ∧ get_tag_position (Symbol Examples.f) Examples.f = Some Own
  ∧ get_tag_position Examples.f_x_if Examples.f = Some Down.
Proof.
  split; [| by repeat split].
  intros c. split.
  - intros <-. by apply classified_sound.
  - by apply classified_complete.
Qed.

Lemma classifier_first_match_witness :
  "Global`f" ≠ ""
  ∧ (∀ c, get_tag_position Examples.f_x_if "Global`f" = c
          ↔ classified "Global`f" Examples.f_x_if c).
Proof.
  split; [done |].
  apply (classifier_first_match Examples.f_x_if "Global`f"). done.
Defined.

(** ** Ordered rule lists *)


Lemma ascending_cons (r : Rule) (l : list Rule) :
  ascending (r :: l) = true ↔ Forall (key_from r) l ∧ ascending l = true.
Proof.
  simpl. rewrite andb_true_iff, forallb_forall, Forall_forall.
  setoid_rewrite list_elem_of_In. unfold key_from.
  setoid_rewrite Nat.leb_le. done.
Qed.

Lemma ascending_lookup (a : list Rule) :
  ascending a = true →
  ∀ i j y z, i ≤ j → a !! i = Some y → a !! j = Some z → rule_key y ≤ rule_key z.
Proof.
  induction a as [| r a IH]; intros Hasc i j y z Hij Hi Hj; [done |].
  apply ascending_cons in Hasc as [Hr Hasc].
  destruct i as [| i], j as [| j]; simpl in *; simplify_eq; try lia.
  - rewrite Forall_forall in Hr. apply Hr. by eapply list_elem_of_lookup_2.
  - apply (IH Hasc i j); [lia | done | done].
Qed.

Lemma ascending_app (l1 l2 : list Rule) :
  ascending (l1 ++ l2) = true ↔
  ascending l1 = true ∧ ascending l2 = true
  ∧ Forall (λ x, Forall (key_from x) l2) l1.
Proof.
  induction l1 as [| r l1 IH].
  - simpl. split; [intros ?; by repeat split | tauto].
  - rewrite <- app_comm_cons, !ascending_cons, Forall_app, IH, Forall_cons. tauto.
Qed.

Lemma bisect_loop_step (fuel : nat) (a : list Rule) (x : Rule) (lo hi : nat) :
  bisect_loop (S fuel) a x lo hi =
  if (lo <? hi)%nat then
    match a !! ((lo + hi) / 2) with
    | Some y =>
        if rule_lt y x then bisect_loop fuel a x ((lo + hi) / 2 + 1) hi
        else bisect_loop fuel a x lo ((lo + hi) / 2)
    | None => lo
    end
  else lo.
Proof. reflexivity. Qed.

Lemma bisect_loop_spec (a : list Rule) (x : Rule) :
  ascending a = true →
  ∀ fuel lo hi,
    hi - lo ≤ fuel → lo ≤ hi → hi ≤ length a →
    (∀ i y, i < lo → a !! i = Some y → key_below x y) →
    (∀ i y, hi ≤ i → a !! i = Some y → key_from x y) →
    let p := bisect_loop fuel a x lo hi in
    lo ≤ p ≤ hi
    ∧ (∀ i y, i < p → a !! i = Some y → key_below x y)
    ∧ (∀ i y, p ≤ i → a !! i = Some y → key_from x y).
Proof.
  intros Hasc. induction fuel as [| fuel IH]; intros lo hi Hfuel Hlo Hhi Hbelow Hfrom.
  - simpl. assert (lo = hi) as -> by lia. eauto.
  - rewrite bisect_loop_step. destruct (lo <? hi)%nat eqn:Hlt.
    2: { apply Nat.ltb_ge in Hlt. assert (lo = hi) as -> by lia. eauto. }
    apply Nat.ltb_lt in Hlt.
    set (mid := (lo + hi) / 2).
    assert (Hmid : lo ≤ mid < hi).
    { subst mid. split; [apply Nat.div_le_lower_bound | apply Nat.Div0.div_lt_upper_bound]; lia. }
    destruct (a !! mid) as [y |] eqn:Hy.
    2: { apply lookup_ge_None in Hy. lia. }
    unfold rule_lt. destruct (rule_key y <? rule_key x)%nat eqn:Hyx.
    + apply Nat.ltb_lt in Hyx.
      destruct (IH (mid + 1) hi) as (Hp & Hb & Hf); try lia; [| done |].
      * intros i z Hi Hz. unfold key_below.
        pose proof (ascending_lookup a Hasc i mid z y ltac:(lia) Hz Hy). lia.
      * cbv zeta. split; [lia | done].
    + apply Nat.ltb_ge in Hyx.
      destruct (IH lo mid) as (Hp & Hb & Hf); try lia; [done | |].
      * intros i z Hi Hz. unfold key_from.
        pose proof (ascending_lookup a Hasc mid i y z ltac:(lia) Hy Hz). lia.
      * cbv zeta. split; [lia | done].
Qed.

Lemma bisect_left_spec (a : list Rule) (x : Rule) :
  ascending a = true →
  bisect_left a x ≤ length a
  ∧ Forall (key_below x) (take (bisect_left a x) a)
  ∧ Forall (key_from x) (drop (bisect_left a x) a).
Proof.
  intros Hasc. unfold bisect_left.
  destruct (bisect_loop_spec a x Hasc (length a) 0 (length a)) as (Hp & Hb & Hf);
    try lia.
  { intros i y Hi Hy. apply lookup_lt_Some in Hy. lia. }
  cbv zeta in *. split; [lia |]. split.
  - apply Forall_lookup. intros i y Hy.
    apply lookup_take_Some in Hy as [Hy Hi]. eauto.
  - apply Forall_lookup. intros i y Hy.
    rewrite lookup_drop in Hy. eapply Hf; [| done]. lia.
Qed.


Section Engine.

(** Everything from here on holds for every comparison of pattern
    objects. *)
Context {pattern_class : PatternSameQ}.



Lemma delete_same_elem_of (values : list Rule) (p : Pattern) (e : Rule) :
  e ∈ delete_same values p → e ∈ values.
Proof.
  induction values as [| e' rest IH]; simpl; [done |].
  destruct (pattern_sameQ (rule_pattern e') p); rewrite ?elem_of_cons; tauto.
Qed.

Lemma delete_same_Forall (P : Rule → Prop) (values : list Rule) (p : Pattern) :
  Forall P values → Forall P (delete_same values p).
Proof.
  rewrite !Forall_forall. intros HP e He. apply HP. by eapply delete_same_elem_of.
Qed.

Lemma delete_same_ascending (values : list Rule) (p : Pattern) :
  ascending values = true → ascending (delete_same values p) = true.
Proof.
  induction values as [| e rest IH]; [done |].
  intros [He Hrest]%ascending_cons. simpl.
  destruct (pattern_sameQ (rule_pattern e) p); [done |].
  apply ascending_cons. split; [by apply delete_same_Forall | by apply IH].
Qed.

Lemma has_match_app (l1 l2 : list Rule) (p : Pattern) :
  has_match (l1 ++ l2) p = has_match l1 p || has_match l2 p.
Proof. unfold has_match. apply existsb_app. Qed.





Lemma insort_left_spec (a : list Rule) (x : Rule) :
  ascending a = true →
  ∃ before after,
    a = before ++ after ∧ insort_left a x = before ++ x :: after
    ∧ Forall (key_below x) before ∧ Forall (key_from x) after.
Proof.
  intros Hasc. destruct (bisect_left_spec a x Hasc) as (_ & Hb & Hf).
  exists (take (bisect_left a x) a), (drop (bisect_left a x) a).
  by rewrite take_drop.
Qed.

Lemma ascending_insert (before after : list Rule) (x : Rule) :
  ascending (before ++ after) = true →
  Forall (key_below x) before → Forall (key_from x) after →
  ascending (before ++ x :: after) = true.
Proof.
  intros (Hb & Ha & Hcross)%ascending_app Hbelow Hfrom.
  apply ascending_app. split; [done |]. split.
  - by apply ascending_cons.
  - rewrite Forall_forall in *. intros e He. apply Forall_cons. split.
    + specialize (Hbelow e He). unfold key_below, key_from in *. lia.
    + by apply Hcross.
Qed.


(** ** Names *)

Lemma has_mark_app_l (ctx name : string) :
  Names.has_mark ctx = true → Names.has_mark (ctx +:+ name) = true.
Proof.
  induction ctx as [| c ctx IH]; simpl; [done |].
  destruct (Names.is_mark c); [done | exact IH].
Qed.

Lemma endswith_has_mark (ctx : string) :
  Names.endswith_mark ctx = true → Names.has_mark ctx = true.
Proof.
  induction ctx as [| c ctx IH]; simpl; [done |].
  destruct ctx as [| c' ctx']; [by intros -> |].
  intros H. destruct (Names.is_mark c); [done | by apply IH].
Qed.

Lemma app_not_empty (ctx name : string) :
  Names.endswith_mark ctx = true → ctx +:+ name ≠ "".
Proof. destruct ctx; [done | discriminate]. Qed.

(** ** Frames *)

Lemma frame_refl (st : Definitions) : frame st st.
Proof. split; try done. exists []. by rewrite app_nil_r. Qed.

Lemma frame_trans (st1 st2 st3 : Definitions) :
  frame st1 st2 → frame st2 st3 → frame st1 st3.
Proof.
  intros [] []. split; try congruence.
  - destruct frame_objects0 as [e1 H1], frame_objects1 as [e2 H2].
    exists (e1 ++ e2). by rewrite H2, H1, app_assoc.
  - intros tail. etrans; eauto.
Qed.

Lemma frame_register (o n : string) (l : loc) (st : Definitions) :
  frame st (register o n l st).
Proof.
  split; try done.
  - exists []. by rewrite app_nil_r.
  - intros tail. unfold bucket, register. simpl.
    destruct (decide (Names.strip_context o = tail)) as [-> | Hne].
    + rewrite lookup_insert_eq. simpl. set_solver.
    + by rewrite lookup_insert_ne.
Qed.

Lemma frame_objects_lookup (st st' : Definitions) (l : loc) :
  frame st st' → l < length (objects st) → objects st' !!! l = objects st !!! l.
Proof.
  intros [_ _ _ _ _ _ [extra ->] _] Hl. by rewrite lookup_total_app_l.
Qed.

Lemma frame_objects_length (st st' : Definitions) :
  frame st st' → length (objects st) ≤ length (objects st').
Proof. intros [_ _ _ _ _ _ [extra ->] _]. rewrite length_app. lia. Qed.

(** ** The merge *)

Lemma sum_lists_concat (values : loc → list Rule) (candidates : list loc) :
  sum_lists values candidates = concat (values <$> candidates).
Proof.
  unfold sum_lists.
  enough (H : ∀ acc, foldl (λ acc c, acc ++ values c) acc candidates
                     = acc ++ concat (values <$> candidates)) by apply (H []).
  induction candidates as [| c cs IH]; intros acc; simpl.
  - by rewrite app_nil_r.
  - by rewrite IH, app_assoc.
Qed.

Lemma merge_loop_options (objs : list DefinitionT) (its : list loc)
    (acc : gmap string Expr * (list (string * loc) * list (list Rule))) :
  (merge_loop objs its acc).1 = ⋃ ((λ c, options (objs !!! c)) <$> its) ∪ acc.1.
Proof.
  unfold merge_loop. induction its as [| c its IH]; simpl.
  - by rewrite (left_id_L ∅ (∪)).
  - rewrite foldl_app. simpl.
    destruct (foldl _ acc (rev its)) as [opts formats] eqn:E. simpl in *.
    by rewrite IH, (assoc_L (∪)).
Qed.

Lemma union_list_first_wins (maps : list (gmap string Expr)) (i : nat)
    (m : gmap string Expr) (k : string) (v : Expr) :
  maps !! i = Some m → m !! k = Some v →
  (∀ j m', j < i → maps !! j = Some m' → m' !! k = None) →
  (⋃ maps) !! k = Some v.
Proof.
  revert i. induction maps as [| m0 maps IH]; intros i Hi Hk Hbefore; [done |].
  simpl. destruct i as [| i]; simpl in Hi.
  - simplify_eq. by apply lookup_union_Some_l.
  - rewrite lookup_union_r; [| apply (Hbefore 0 m0); [lia | done]].
    apply (IH i); [done | done |]. intros j m' Hj Hm'.
    apply (Hbefore (S j) m'); [lia | done].
Qed.

Lemma merge_spec (name : string) (u p b : option loc) (candidates : list loc)
    (instance : option loc) (st : Definitions) :
  ∃ d st',
    merge name u p b candidates instance st = Some (length (objects st), st')
    ∧ objects st' = objects st ++ [d]
    ∧ same_tables st st'
    ∧ def_name d = name
    ∧ (∀ pos, get_values_list d pos
              = concat ((λ c, get_values_list (objects st !!! c) pos) <$> candidates))
    ∧ options d = ⋃ ((λ c, options (objects st !!! c)) <$> candidates)
    ∧ attributes d
      = from_option (λ s, attributes (objects st !!! s)) A_NO_ATTRIBUTES
          (head (option_list u ++ option_list p ++ option_list b))
    ∧ is_numeric d
      = from_option (λ s, is_numeric (objects st !!! s)) false
          (head (option_list u ++ option_list p ++ option_list b)).
Proof.
  unfold merge. unfold_monad. cbn -[merge_loop sum_lists].
  destruct (merge_loop _ _ _) as [opts [formats lists]] eqn:E.
  eexists _, _. split; [reflexivity |]. simpl.
  split; [reflexivity |]. split.
  { split; try done. split; try done. by eexists. }
  split; [done |]. split.
  { intros []; simpl; apply sum_lists_concat. }
  split.
  { assert (H := f_equal fst E). rewrite merge_loop_options in H.
    simpl in H. by rewrite <- H, (right_id_L ∅ (∪)). }
  by destruct u, p, b.
Qed.

(** ** [get_definition] after name resolution *)

Lemma select_definition_none (original full : string) (st : Definitions) :
  sources st full = [] →
  select_definition original full true st = Some (None, st).
Proof.
  unfold sources, select_definition. unfold_monad. simpl.
  by destruct (user st !! full), (pymathics st !! full), (builtin st !! full).
Qed.

Lemma select_definition_single (original full : string) (only_if_exists : bool)
    (st : Definitions) (l : loc) :
  sources st full = [l] →
  select_definition original full only_if_exists st
  = Some (Some l, register original full l st).
Proof.
  unfold sources, select_definition. unfold_monad. simpl.
  destruct (user st !! full), (pymathics st !! full), (builtin st !! full);
    simpl; intros; by simplify_eq.
Qed.

Lemma select_definition_merged (original full : string) (only_if_exists : bool)
    (st : Definitions) :
  2 ≤ length (sources st full) →
  ∃ d st2,
    select_definition original full only_if_exists st
    = Some (Some (length (objects st)),
            register original full (length (objects st)) st2)
    ∧ objects st2 = objects st ++ [d]
    ∧ same_tables st st2
    ∧ def_name d = full
    ∧ (∀ pos, get_values_list d pos
              = concat ((λ c, get_values_list (objects st !!! c) pos)
                          <$> sources st full))
    ∧ options d = ⋃ ((λ c, options (objects st !!! c)) <$> sources st full)
    ∧ attributes d
      = from_option (λ s, attributes (objects st !!! s)) A_NO_ATTRIBUTES
          (head (sources st full))
    ∧ is_numeric d
      = from_option (λ s, is_numeric (objects st !!! s)) false
          (head (sources st full)).
Proof.
  intros Hlen. unfold select_definition.
  unfold mbind at 1 2 3, M_bind at 1 2 3, gets at 1 2 3. cbv beta iota.
  unfold sources in *.
  set (u := user st !! full) in *. set (p := pymathics st !! full) in *.
  set (b := builtin st !! full) in *.
  destruct (merge_spec full u p b (option_list u ++ option_list p ++ option_list b)
              (match p with Some p' => Some p' | None => b end) st)
    as (d & st2 & Hmerge & Hrest).
  exists d, st2. split; [| exact Hrest].
  destruct u as [u' |], p as [p' |], b as [b' |]; simpl in Hlen; try lia;
    simpl option_list in *; simpl app in *; cbv iota;
    unfold mbind, M_bind; rewrite Hmerge; reflexivity.
Qed.

Lemma select_definition_vivify (original full : string) (st : Definitions) :
  sources st full = [] → full ≠ "" →
  select_definition original full false st
  = Some (Some (length (objects st)),
          (if negb (Names.endswith_mark full)
           then set_user (λ u, <[full := length (objects st)]> u)
           else id)
            (set_objects (objects st ++ [new_Definition full A_NO_ATTRIBUTES false])
               st)).
Proof.
  unfold sources, select_definition. unfold_monad. simpl.
  destruct (user st !! full), (pymathics st !! full), (builtin st !! full);
    simpl; try done.
  intros _ Hne. unfold Names.last_is_not_mark.
  destruct full as [| c full]; [done |].
  by destruct (negb (Names.endswith_mark (String c full))).
Qed.

Lemma same_tables_frame_register (o n : string) (l : loc) (st st2 : Definitions) :
  same_tables st st2 → frame st (register o n l st2).
Proof.
  intros [Hf _ _ _]. eapply frame_trans; [exact Hf | apply frame_register].
Qed.

Lemma select_definition_lookup (original full : string) (st : Definitions) :
  ∃ r st', select_definition original full true st = Some (r, st') ∧ frame st st'.
Proof.
  destruct (sources st full) as [| l [| l' rest]] eqn:E.
  - exists None, st. split; [by apply select_definition_none | apply frame_refl].
  - eexists _, _. split; [by apply select_definition_single | apply frame_register].
  - destruct (select_definition_merged original full true st)
      as (d & st2 & Hsel & _ & Hsame & _); [rewrite E; simpl; lia |].
    eexists _, _. split; [exact Hsel | by apply same_tables_frame_register].
Qed.

(** ** Name resolution *)

Lemma lookup_name_with_marked (have : string → M bool) (name : string)
    (st : Definitions) :
  Names.has_mark name = true →
  ∃ full, lookup_name_with have name st = Some (full, st).
Proof.
  intros Hmark. unfold lookup_name_with. unfold_monad. cbv beta iota.
  destruct (lookup_cache st !! name); [by eexists |].
  destruct (Names.fully_qualified_symbol_name name); [by eexists |].
  rewrite Hmark. destruct (Names.startswith_mark name); by eexists.
Qed.

Lemma get_definition_step (fuel : nat) (name : string) (only_if_exists : bool)
    (st : Definitions) :
  get_definition (S fuel) name only_if_exists st =
  match definitions_cache st !! name with
  | Some definition => Some (Some definition, st)
  | None =>
      match lookup_name fuel name st with
      | Some (full, st1) => select_definition name full only_if_exists st1
      | None => None
      end
  end.
Proof.
  simpl. unfold mbind at 1, M_bind at 1, gets at 1.
  destruct (definitions_cache st !! name); reflexivity.
Qed.

Lemma have_definition_marked (fuel : nat) (n : string) (st : Definitions) :
  Names.has_mark n = true →
  ∃ found st', have_definition (S fuel) n st = Some (found, st') ∧ frame st st'.
Proof.
  intros Hmark. unfold have_definition. unfold mbind, M_bind.
  rewrite get_definition_step.
  destruct (definitions_cache st !! n).
  { eexists _, _. split; [reflexivity | apply frame_refl]. }
  unfold lookup_name.
  destruct (lookup_name_with_marked (have_definition fuel) n st Hmark) as [full ->].
  destruct (select_definition_lookup n full st) as (r & st' & -> & Hframe).
  eexists _, _. split; [reflexivity | done].
Qed.

Lemma search_path_total (fuel : nat) (name with_context : string)
    (path : list string) (st : Definitions) :
  forallb Names.endswith_mark path = true →
  ∃ full st',
    search_path (have_definition (S fuel)) name with_context path st
    = Some (full, st')
    ∧ frame st st'.
Proof.
  revert st. induction path as [| ctx path IH]; intros st Hpath; simpl.
  - eexists _, _. split; [reflexivity | apply frame_refl].
  - apply andb_true_iff in Hpath as [Hctx Hpath].
    destruct (have_definition_marked fuel (ctx +:+ name) st)
      as (found & st1 & Hhave & Hframe1).
    { by apply has_mark_app_l, endswith_has_mark. }
    unfold mbind, M_bind. rewrite Hhave. destruct found.
    + eexists _, _. split; [reflexivity | done].
    + destruct (IH st1 Hpath) as (full & st' & Hsearch & Hframe2).
      eexists _, _. split; [exact Hsearch | by eapply frame_trans].
Qed.

Lemma lookup_name_total (fuel : nat) (name : string) (st : Definitions) :
  path_ok st = true →
  ∃ full st', lookup_name (S fuel) name st = Some (full, st') ∧ frame st st'.
Proof.
  intros Hpath.
  destruct (Names.has_mark name) eqn:Hmark.
  { destruct (lookup_name_with_marked (have_definition (S fuel)) name st Hmark)
      as [full Hfull].
    exists full, st. split; [done | apply frame_refl]. }
  unfold lookup_name, lookup_name_with. unfold_monad. cbv beta iota.
  destruct (lookup_cache st !! name).
  { eexists _, _. split; [reflexivity | apply frame_refl]. }
  destruct (Names.fully_qualified_symbol_name name).
  { eexists _, _. split; [reflexivity | apply frame_refl]. }
  rewrite Hmark. by apply search_path_total.
Qed.

Lemma sources_frame (st st' : Definitions) (full : string) :
  frame st st' → sources st' full = sources st full.
Proof. intros []. unfold sources. congruence. Qed.

(** ** The merged definition *)

(** C1: on a cache miss, for a name that resolves to a symbol with
    entries in two or more namespaces (all of them objects of the
    store), [get_definition] returns a newly allocated Definition, which
    it caches.  Each rule-list category of it is the concatenation of
    the sources' lists in the order user, plugin, builtin (so with a
    user and a builtin entry the user's down-values come first), its
    attributes and numeric flag are those of the first source in that
    order, and its options are the left-biased union of the sources'
    options in that order: for every key the value of the first source
    that has the key. *)
Theorem get_definition_merges (fuel : nat) (name : string) (only_if_exists : bool)
    (st : Definitions)
    (Hpath : path_ok st = true)
    (Hmiss : definitions_cache st !! name = None) :
  ∃ full st1,
    lookup_name (S fuel) name st = Some (full, st1)
    ∧ (2 ≤ length (sources st full) →
       Forall (allocated st) (sources st full) →
       ∃ merged d st',
         get_definition (S (S fuel)) name only_if_exists st
         = Some (Some merged, st')
         ∧ ¬ allocated st merged
         ∧ objects st' !! merged = Some d
         ∧ definitions_cache st' !! name = Some merged
         ∧ sources st' full = sources st full
         ∧ def_name d = full
         ∧ (∀ pos, get_values_list d pos
                   = concat ((λ c, get_values_list (objects st !!! c) pos)
                               <$> sources st full))
         ∧ (∀ u b, sources st full = [u; b] →
                   downvalues d
                   = downvalues (objects st !!! u) ++ downvalues (objects st !!! b))
         ∧ attributes d
           = from_option (λ s, attributes (objects st !!! s)) A_NO_ATTRIBUTES
               (head (sources st full))
         ∧ is_numeric d
           = from_option (λ s, is_numeric (objects st !!! s)) false
               (head (sources st full))
         ∧ options d = ⋃ ((λ c, options (objects st !!! c)) <$> sources st full)
         ∧ (∀ i c k v,
              sources st full !! i = Some c →
              options (objects st !!! c) !! k = Some v →
              (∀ j c', j < i → sources st full !! j = Some c' →
                       options (objects st !!! c') !! k = None) →
              options d !! k = Some v)).
Proof.
  destruct (lookup_name_total fuel name st Hpath) as (full & st1 & Hlookup & Hframe).
  exists full, st1. split; [done |]. intros Hlen Halloc.
  pose proof (sources_frame _ _ full Hframe) as Hsrc.
  destruct (select_definition_merged name full only_if_exists st1)
    as (d & st2 & Hsel & Hobjs & Hsame & Hname & Hvalues & Hopts & Hattr & Hnum).
  { by rewrite Hsrc. }
  rewrite Hsrc in *.
  assert (Hread : ∀ c, c ∈ sources st full → objects st1 !!! c = objects st !!! c).
  { intros c Hc. apply frame_objects_lookup; [done |].
    rewrite Forall_forall in Halloc. by apply Halloc. }
  assert (Hfmap : ∀ {A} (f : DefinitionT → A),
             (λ c, f (objects st1 !!! c)) <$> sources st full
             = (λ c, f (objects st !!! c)) <$> sources st full).
  { intros A f. apply list_fmap_ext. intros i c Hc. f_equal.
    apply Hread. by eapply list_elem_of_lookup_2. }
  assert (Hhead : ∀ {A} (f : DefinitionT → A) (a : A),
             from_option (λ s, f (objects st1 !!! s)) a (head (sources st full))
             = from_option (λ s, f (objects st !!! s)) a (head (sources st full))).
  { intros A f a. destruct (sources st full) as [| c cs] eqn:E; [done |].
    simpl. f_equal. apply Hread. by left. }
  exists (length (objects st1)), d, (register name full (length (objects st1)) st2).
  split; [by rewrite get_definition_step, Hmiss, Hlookup |].
  split. { unfold allocated. apply frame_objects_length in Hframe. lia. }
  split. { simpl. rewrite Hobjs. by rewrite lookup_app_r, Nat.sub_diag. }
  split. { simpl. by rewrite lookup_insert_eq. }
  split.
  { rewrite <- Hsrc. apply sources_frame.
    by apply same_tables_frame_register. }
  split; [done |].
  assert (Hv : ∀ pos, get_values_list d pos
             = concat ((λ c, get_values_list (objects st !!! c) pos)
                         <$> sources st full)).
  { intros pos. rewrite Hvalues. f_equal.
    apply (Hfmap _ (λ o, get_values_list o pos)). }
  split; [done |]. split.
  { intros u b E. specialize (Hv Down). rewrite E in Hv. simpl in Hv.
    by rewrite app_nil_r in Hv. }
  split; [by rewrite Hattr, (Hhead _ attributes) |].
  split; [by rewrite Hnum, (Hhead _ is_numeric) |].
  assert (Ho : options d = ⋃ ((λ c, options (objects st !!! c)) <$> sources st full)).
  { by rewrite Hopts, (Hfmap _ options). }
  split; [done |].
  intros i c k v Hi Hk Hbefore. rewrite Ho.
  apply (union_list_first_wins _ i (options (objects st !!! c))); [| done |].
  - by rewrite list_lookup_fmap, Hi.
  - intros j m' Hj Hm'. rewrite list_lookup_fmap in Hm'.
    destruct (sources st full !! j) as [c' |] eqn:Ej; simplify_eq/=.
    by apply (Hbefore j c').
Qed.

Lemma get_definition_merges_witness :
  path_ok Samples.layered = true
  ∧ definitions_cache Samples.layered !! Examples.f = None
  ∧ ∃ merged d st',
      get_definition 2 Examples.f false Samples.layered = Some (Some merged, st')
      ∧ objects st' !! merged = Some d
      ∧ downvalues d = [Samples.d2; Samples.d1].
Proof.
  split; [reflexivity |]. split; [reflexivity |].
  destruct (get_definition_merges 0 Examples.f false Samples.layered
              eq_refl eq_refl) as (full & st1 & Hlookup & Hmerge).
  vm_compute in Hlookup. injection Hlookup as <- _.
  destruct Hmerge as (merged & d & st' & Hget & _ & Hobj & _ & _ & _ & _ & Hdown & _).
  - vm_compute. lia.
  - repeat constructor.
  - exists merged, d, st'. split; [exact Hget |]. split; [exact Hobj |].
    exact (Hdown 1 0 eq_refl).
Defined.

(** ** Failing classification and removal *)

(** ** Failing classification and removal *)

Lemma remove_same_absent (values : list Rule) (lhs : Expr) :
  has_same values lhs = false → Def.remove_same values lhs = None.
Proof.
  induction values as [| e rest IH]; simpl; [done |].
  destruct (Element.sameQ (expr (rule_pattern e)) lhs); simpl; [done |].
  intros Hrest. by rewrite IH.
Qed.

Lemma get_tag_position_atom (p : Expr) (name : string) :
  Element.is_atom p = true → Element.get_name p ≠ name →
  get_tag_position p name = None.
Proof.
  intros Hatom Hname. apply String.eqb_neq in Hname.
  destruct p; simpl in *; by rewrite ?Hname.
Qed.

Lemma get_tag_position_object_atom (p : Expr) (name : string) :
  Element.is_atom p = true → Element.get_name p ≠ name →
  Element.get_head_name p ≠ name →
  get_tag_position_object p name = None.
Proof.
  intros Hatom Hname Hhead.
  apply String.eqb_neq in Hname. apply String.eqb_neq in Hhead.
  destruct p as [s | h v | head es]; [| | done].
  - simpl in *. by rewrite Hname, Hhead.
  - simpl in *. rewrite Hhead, Hname.
    destruct (String.eqb h "System`N"); [done |].
    by destruct (String.eqb h "System`Condition").
Qed.

(** C9: where [add_rule] should report false it raises.  For a rule
    whose pattern wraps an atom that is neither the symbol of the
    Definition nor of a class named like it, the classifier finds no
    category for the expression ([get_tag_position] returns [None], and
    [remove_rule] of that expression returns false and leaves the
    Definition as it is), but [Definition.add_rule], which hands the
    classifier the pattern object, raises: the object is not an
    instance of [Atom], so the classifier goes on to read its
    [elements], which an object made from an atom does not have.  For
    a pattern the classifier does return no category for, [add_rule]
    returns false; [remove_rule] returns false when the pattern has no
    category and when the list of its category holds no rule whose
    pattern expression is the same. *)
Theorem add_rule_raises_on_atom (d : DefinitionT) (rule : Rule)
    (Hatom : Element.is_atom (expr (rule_pattern rule)) = true)
    (Hname : Element.get_name (expr (rule_pattern rule)) ≠ def_name d)
    (Hhead : Element.get_head_name (expr (rule_pattern rule)) ≠ def_name d) :
  get_tag_position (expr (rule_pattern rule)) (def_name d) = None
  ∧ Def.remove_rule d (expr (rule_pattern rule)) = (false, d)
  ∧ Def.add_rule d rule = None
  ∧ (∀ other,
       get_tag_position_object (expr (rule_pattern other)) (def_name d)
       = Some None →
       Def.add_rule d other = Some (false, d))
  ∧ (∀ lhs,
       get_tag_position lhs (def_name d) = None →
       Def.remove_rule d lhs = (false, d))
  ∧ (∀ lhs pos,
       get_tag_position lhs (def_name d) = Some pos →
       has_same (get_values_list d pos) lhs = false →
       Def.remove_rule d lhs = (false, d)).
Proof.
  pose proof (get_tag_position_atom _ _ Hatom Hname) as Hraw.
  split; [done |]. split; [unfold Def.remove_rule; by rewrite Hraw |].
  split.
  { unfold Def.add_rule. by rewrite get_tag_position_object_atom. }
  split; [intros other Hother; unfold Def.add_rule; by rewrite Hother |].
  split; [intros lhs Hlhs; unfold Def.remove_rule; by rewrite Hlhs |].
  intros lhs pos Hpos Hnone. unfold Def.remove_rule.
  by rewrite Hpos, remove_same_absent.
Qed.
Lemma pop_all_lookup {V : Type} (keys : gset string) (cache : gmap string V)
    (k : string) :
  pop_all keys cache !! k = if decide (k ∈ keys) then None else cache !! k.
Proof.
  unfold pop_all.
  assert (H : ∀ l (c : gmap string V),
             foldl (λ c k, delete k c) c l !! k
             = if decide (k ∈ l) then None else c !! k).
  { induction l as [| a l IH]; intros c; simpl; [done |].
    rewrite IH. destruct (decide (k = a)) as [-> | Hne].
    - rewrite lookup_delete_eq.
      rewrite (decide_True (P := a ∈ a :: l)) by by left.
      by destruct (decide (a ∈ l)).
    - rewrite lookup_delete_ne by done.
      destruct (decide (k ∈ l)) as [Hin | Hnot].
      + by rewrite (decide_True (P := k ∈ a :: l)) by by right.
      + rewrite (decide_False (P := k ∈ a :: l)); [done |].
        by intros [? | ?]%elem_of_cons. }
  rewrite H. destruct (decide (k ∈ keys)) as [Hin | Hnot].
  - rewrite decide_True; [done | by apply elem_of_elements].
  - rewrite decide_False; [done | by rewrite elem_of_elements].
Qed.

Lemma clear_cache_evicts (name k : string) (st : Definitions) :
  k ∈ bucket st (Names.strip_context name) →
  definitions_cache (clear_cache (Some name) st) !! k = None
  ∧ lookup_cache (clear_cache (Some name) st) !! k = None.
Proof.
  intros Hk. unfold clear_cache, set_caches, bucket in *.
  cbn [definitions_cache lookup_cache]. rewrite !pop_all_lookup.
  by rewrite !decide_True.
Qed.

Lemma clear_definitions_cache_lookup (name k : string) (st : Definitions) :
  definitions_cache (clear_definitions_cache name st) !! k
  = if decide (k ∈ bucket st (Names.strip_context name)) then None
    else definitions_cache st !! k.
Proof.
  unfold clear_definitions_cache, set_caches, bucket.
  cbn [definitions_cache]. by rewrite pop_all_lookup.
Qed.

Lemma frame_clear_cache (name : option string) (st : Definitions) :
  builtin (clear_cache name st) = builtin st
  ∧ user (clear_cache name st) = user st
  ∧ pymathics (clear_cache name st) = pymathics st
  ∧ objects (clear_cache name st) = objects st
  ∧ context_path (clear_cache name st) = context_path st.
Proof. by destruct name. Qed.

(** ** Mutators *)

Lemma bind_Some {A B : Type} (m : M A) (f : A → M B) (st st1 : Definitions) (a : A) :
  m st = Some (a, st1) → (m ≫= f) st = f a st1.
Proof. intros H. unfold mbind, M_bind. by rewrite H. Qed.

Lemma bind_read {B : Type} (l : loc) (f : DefinitionT → M B) (st : Definitions) :
  (read l ≫= f) st = f (objects st !!! l) st.
Proof. reflexivity. Qed.

Lemma get_user_definition_existing (full : string) (l : loc) (st : Definitions) :
  user st !! full = Some l →
  get_user_definition full true st = Some (Some l, st).
Proof. intros H. unfold get_user_definition. unfold_monad. by rewrite H. Qed.

Lemma user_clear_cache (name : option string) (st : Definitions) :
  user (clear_cache name st) = user st.
Proof. by destruct name. Qed.

Lemma get_user_definition_creates (full : string) (st : Definitions) :
  user st !! full = None →
  get_user_definition full true st
  = Some (Some (length (objects st)),
          clear_cache (Some full)
            (set_user (λ u, <[full := length (objects st)]> u)
               (set_objects
                  (objects st
                   ++ [new_Definition full
                         (from_option (λ b, attributes (objects st !!! b))
                            A_NO_ATTRIBUTES (builtin st !! full))
                         (from_option (λ b, is_numeric (objects st !!! b))
                            false (builtin st !! full))])
                  st))).
Proof.
  intros H. unfold get_user_definition. unfold_monad. rewrite H.
  cbn -[clear_cache]. rewrite user_clear_cache. cbn.
  by rewrite lookup_insert_eq.
Qed.

Lemma remove_rule_new (full : string) (attrs : Z) (numeric : bool) (expr : Expr) :
  Def.remove_rule (new_Definition full attrs numeric) expr
  = (false, new_Definition full attrs numeric).
Proof.
  unfold Def.remove_rule.
  destruct (get_tag_position expr _) as [[] |]; reflexivity.
Qed.

(** C10: when the resolved name has no user Definition, [unset] returns
    false whatever the pattern, and yet it has allocated a Definition
    for the resolved name and entered it in the user namespace, advanced
    the clock by one, stamped the new Definition with the new time, and
    evicted from the cache of merged definitions every name that was
    registered under the short form of [name], whose bucket is gone. *)
Theorem unset_without_user_definition (fuel : nat) (name : string) (expr : Expr)
    (st : Definitions) (Hpath : path_ok st = true) :
  ∃ full st1,
    lookup_name (S fuel) name st = Some (full, st1)
    ∧ (user st !! full = None →
       ∃ st' created d,
         unset (S fuel) name expr st = Some (false, st')
         ∧ ¬ allocated st created
         ∧ user st' = <[full := created]> (user st)
         ∧ now st' = now st + 1
         ∧ objects st' !! created = Some d
         ∧ def_name d = full
         ∧ changed d = Some (now st + 1)
         ∧ (∀ pos, get_values_list d pos = [])
         ∧ (∀ k, k ∈ bucket st (Names.strip_context name) →
                 definitions_cache st' !! k = None)
         ∧ proxy st' !! Names.strip_context name = None).
Proof.
  destruct (lookup_name_total fuel name st Hpath) as (full & st1 & Hlookup & Hframe).
  exists full, st1. split; [done |]. intros Huser.
  assert (Huser1 : user st1 !! full = None) by by rewrite (frame_user _ _ Hframe).
  unfold unset. rewrite (bind_Some _ _ _ _ _ Hlookup).
  pose proof (get_user_definition_creates full st1 Huser1) as Hget.
  set (l := length (objects st1)) in *.
  set (d0 := new_Definition full _ _) in *.
  set (st2 := clear_cache _ _) in *.
  assert (Hget' : (get_user_definition full true ≫= or_raise) st1 = Some (l, st2))
    by exact (bind_Some _ or_raise _ _ _ Hget).
  rewrite (bind_Some _ _ _ _ _ Hget'), bind_read.
  assert (Hread : objects st2 !!! l = d0).
  { cbn. subst l. by rewrite lookup_total_app_r, Nat.sub_diag. }
  rewrite Hread. subst d0. rewrite remove_rule_new.
  set (d0 := new_Definition full _ _) in *.
  eexists _, l, (set_changed_field d0 (now st + 1)).
  split; [unfold mark_changed; unfold_monad; reflexivity |].
  split. { unfold allocated. apply frame_objects_length in Hframe. lia. }
  split. { cbn. by rewrite (frame_user _ _ Hframe). }
  split. { cbn. by rewrite (frame_now _ _ Hframe). }
  split.
  { cbn. rewrite list_lookup_insert_eq.
    - rewrite (frame_now _ _ Hframe). do 2 f_equal.
      apply list_lookup_total_correct, list_lookup_insert_eq.
      rewrite length_app. simpl. lia.
    - rewrite length_insert, length_app. simpl. lia. }
  split; [done |]. split; [done |]. split; [by intros [] |].
  split.
  - intros k Hk. apply (frame_proxy _ _ Hframe) in Hk.
    set (tail := Names.strip_context name) in *.
    cbn -[pop_all]. rewrite !pop_all_lookup.
    fold (bucket st1 (Names.strip_context full)).
    destruct (decide (k ∈ bucket st1 (Names.strip_context full))) as [Hin | Hnot].
    + by destruct (decide _).
    + destruct (decide (Names.strip_context full = tail)) as [Heq | Hne].
      * rewrite Heq in Hnot. done.
      * rewrite lookup_delete_ne by done. fold (bucket st1 tail).
        by rewrite decide_True.
  - cbn. by rewrite lookup_delete_eq.
Qed.

Lemma unset_without_user_definition_witness :
  path_ok initial = true
  ∧ ∃ st', unset 1 "f" Examples.f_x initial = Some (false, st')
           ∧ user st' = {["Global`f" := 0]} ∧ now st' = 1.
Proof.
  split; [reflexivity |].
  destruct (unset_without_user_definition 0 "f" Examples.f_x initial eq_refl)
    as (full & st1 & Hlookup & Hunset).
  vm_compute in Hlookup. injection Hlookup as <- <-.
  destruct (Hunset eq_refl) as (st' & created & d & H & _ & Huser & Hnow & _).
  exists st'. split; [exact H |]. split; [| exact Hnow].
  assert (Hcreated : Some (false, st') = Some (false, st')) by reflexivity.
  rewrite <- H in Hcreated at 1. vm_compute in Hcreated.
  injection Hcreated as <-. reflexivity.
Defined.

Lemma bind_inv {A B : Type} (m : M A) (f : A → M B) (st st' : Definitions) (r : B) :
  (m ≫= f) st = Some (r, st') →
  ∃ a st1, m st = Some (a, st1) ∧ f a st1 = Some (r, st').
Proof.
  unfold mbind, M_bind. destruct (m st) as [[a st1] |]; [| done]. eauto.
Qed.

Lemma user_definition_total (full : string) (st : Definitions) :
  ∃ l st2, (get_user_definition full true ≫= or_raise) st = Some (l, st2).
Proof.
  destruct (user st !! full) as [l |] eqn:E.
  - exists l, st. by rewrite (bind_Some _ _ _ _ _ (get_user_definition_existing _ _ _ E)).
  - eexists _, _.
    by rewrite (bind_Some _ _ _ _ _ (get_user_definition_creates _ _ E)).
Qed.

Lemma add_format_form_total (definition : loc) (rule : Rule) (form : string)
    (st : Definitions) :
  is_Some (add_format_form definition rule form st).
Proof.
  unfold add_format_form. rewrite bind_read.
  destruct (dict_get (formatvalues (objects st !!! definition)) form);
    unfold_monad; eauto.
Qed.

Lemma add_format_forms_total (definition : loc) (rule : Rule) (forms : list string)
    (acc : M unit) (st : Definitions) :
  is_Some (acc st) →
  is_Some (foldl (λ acc form, acc;; add_format_form definition rule form)
             acc forms st).
Proof.
  revert acc. induction forms as [| form forms IH]; intros acc Hacc; simpl; [done |].
  apply IH. destruct Hacc as [[[] st1] Hacc].
  rewrite (bind_Some _ _ _ _ _ Hacc).
  apply add_format_form_total.
Qed.

Lemma bind_bind_Some {A B C : Type} (m : M A) (f : A → M B) (g : B → M C)
    (st st1 : Definitions) (a : A) :
  m st = Some (a, st1) → ((m ≫= f) ≫= g) st = (f a ≫= g) st1.
Proof. intros Hm. unfold mbind, M_bind. by rewrite Hm. Qed.

Ltac step_with Hm :=
  first [ rewrite (bind_bind_Some _ _ _ _ _ _ Hm)
        | rewrite (bind_Some _ _ _ _ _ Hm) ].

Lemma run_mutation_total (fuel : nat) (name : string) (m : mutation)
    (st : Definitions) :
  path_ok st = true →
  ∃ full st1 l st2,
    lookup_name (S fuel) name st = Some (full, st1)
    ∧ (get_user_definition full true ≫= or_raise) st1 = Some (l, st2)
    ∧ (classification_raises m (def_name (objects st2 !!! l)) = true →
       run_mutation (S fuel) name m st = None)
    ∧ (classification_raises m (def_name (objects st2 !!! l)) = false →
       is_Some (run_mutation (S fuel) name m st)).
Proof.
  intros Hpath.
  destruct (lookup_name_total fuel name st Hpath) as (full & st1 & Hlookup & _).
  destruct (user_definition_total full st1) as (l & st2 & Hget).
  exists full, st1, l, st2. split; [done |]. split; [done |].
  destruct m as [a | a | a | r pos | r forms | r | r | r | o | e];
    unfold run_mutation, set_attribute, set_attributes, clear_attribute, add_rule,
      add_format, add_nvalue, add_default, add_message, add_rule_at, set_options,
      unset, classification_raises;
    step_with Hlookup; step_with Hget.
  1-3, 6-9: split; [done |]; intros _; unfold mark_changed; unfold_monad; by eauto.
  - split; [intros Hraise | intros Hok];
      unfold mbind at 1, M_bind at 1; rewrite bind_read; unfold Def.add_rule;
      destruct pos as [pos |]; try done.
    + apply bool_decide_eq_true in Hraise. by rewrite Hraise.
    + apply bool_decide_eq_false in Hok.
      destruct (get_tag_position_object (expr (rule_pattern r))
                  (def_name (objects st2 !!! l))) as [[pos |] |]; [| | done];
        unfold mark_changed; unfold_monad; by eauto.
  - split; [done |]. intros _.
    destruct (add_format_forms_total l r forms (mret tt) st2) as [[[] st3] Hforms];
      [by eexists |].
    rewrite (bind_Some _ _ _ _ _ Hforms).
    unfold mark_changed. unfold_monad. by eauto.
  - split; [done |]. intros _. unfold mbind at 1, M_bind at 1. rewrite bind_read.
    destruct (Def.remove_rule (objects st2 !!! l) e) as [result d'].
    unfold mark_changed. unfold_monad. by eauto.
Qed.

Lemma modify_inv (f : Definitions → Definitions) (st st' : Definitions) (u : unit) :
  modify f st = Some (u, st') → st' = f st.
Proof. unfold modify. congruence. Qed.

(** *** Steps that leave the caches alone *)

Lemma same_caches_refl (st : Definitions) : same_caches st st.
Proof. by repeat split. Qed.

Lemma same_caches_trans (st1 st2 st3 : Definitions) :
  same_caches st1 st2 → same_caches st2 st3 → same_caches st1 st3.
Proof. intros (? & ? & ?) (? & ? & ?). repeat split; congruence. Qed.

Lemma keeps_caches_bind {A B : Type} (m : M A) (f : A → M B) :
  keeps_caches m → (∀ a, keeps_caches (f a)) → keeps_caches (m ≫= f).
Proof.
  intros Hm Hf st b st' H.
  apply bind_inv in H as (a & st1 & H1 & H2).
  eapply same_caches_trans; [by eapply Hm | by eapply Hf].
Qed.

Lemma keeps_caches_ret {A : Type} (a : A) : keeps_caches (mret a).
Proof.
  intros st b st' H. unfold mret, M_ret in H. simplify_eq. apply same_caches_refl.
Qed.

Lemma keeps_caches_or_raise {A : Type} (r : option A) : keeps_caches (or_raise r).
Proof. destruct r; [apply keeps_caches_ret | by intros st b st' Hnone]. Qed.

Lemma keeps_caches_gets {A : Type} (f : Definitions → A) : keeps_caches (gets f).
Proof.
  intros st b st' H. unfold gets in H. simplify_eq. apply same_caches_refl.
Qed.

Lemma keeps_caches_read (l : loc) : keeps_caches (read l).
Proof. apply keeps_caches_gets. Qed.

Lemma keeps_caches_write (l : loc) (d : DefinitionT) : keeps_caches (write l d).
Proof. intros st b st' H. unfold write, modify in H. by simplify_eq. Qed.

Lemma keeps_caches_alloc_list (rules : list Rule) : keeps_caches (alloc_list rules).
Proof. intros st b st' H. unfold alloc_list in H. by simplify_eq. Qed.

Lemma keeps_caches_set_format_lists (f : Definitions → list (list Rule)) :
  keeps_caches (modify (λ st, set_format_lists (f st) st)).
Proof. intros st b st' H. unfold modify in H. by simplify_eq. Qed.

Lemma keeps_caches_set_now (f : Definitions → nat) :
  keeps_caches (modify (λ st, set_now (f st) st)).
Proof. intros st b st' H. unfold modify in H. by simplify_eq. Qed.

Create HintDb keeps_caches.

#[local] Hint Resolve keeps_caches_ret keeps_caches_or_raise keeps_caches_gets
  keeps_caches_read
  keeps_caches_write keeps_caches_alloc_list keeps_caches_set_format_lists
  keeps_caches_set_now : keeps_caches.

Ltac keeps_caches :=
  repeat first
    [ solve [auto with keeps_caches]
    | apply keeps_caches_bind; [| intros ?]
    | match goal with
      | |- keeps_caches (match ?x with _ => _ end) => destruct x
      end ].

Lemma keeps_caches_mark_changed (l : loc) : keeps_caches (mark_changed l).
Proof. unfold mark_changed. keeps_caches. Qed.

Lemma keeps_caches_add_format_form (l : loc) (rule : Rule) (form : string) :
  keeps_caches (add_format_form l rule form).
Proof. unfold add_format_form. keeps_caches. Qed.

#[local] Hint Resolve keeps_caches_mark_changed keeps_caches_add_format_form
  : keeps_caches.

Lemma keeps_caches_add_format_forms (l : loc) (rule : Rule) (forms : list string) :
  ∀ acc : M unit,
    keeps_caches acc →
    keeps_caches (foldl (λ acc form, acc;; add_format_form l rule form) acc forms).
Proof.
  induction forms as [| form forms IH]; intros acc Hacc; simpl; [done |].
  apply IH. keeps_caches.
Qed.

Lemma keeps_caches_add_format_loop (l : loc) (rule : Rule) (forms : list string) :
  keeps_caches
    (foldl (λ acc form, acc;; add_format_form l rule form) (mret tt) forms).
Proof. apply keeps_caches_add_format_forms. keeps_caches. Qed.

#[local] Hint Resolve keeps_caches_add_format_loop : keeps_caches.

Lemma same_caches_step {A : Type} (m : M A) (st0 st st' : Definitions) (a : A) :
  same_caches st0 st → keeps_caches m → m st = Some (a, st') → same_caches st0 st'.
Proof. intros H0 Hm H. eapply same_caches_trans; [exact H0 | by eapply Hm]. Qed.

(** Walks from the state after the user Definition was found or
    created to the final [clear_definitions_cache], one step at a time. *)
Ltac to_final_clear H Hc :=
  repeat match type of H with
    | (let '(_, _) := ?x in _) _ = Some _ => destruct x
    | (modify (clear_definitions_cache _) ≫= _) _ = Some _ =>
        let Hm := fresh "Hm" in
        apply bind_inv in H as ([] & ? & Hm & H);
        apply modify_inv in Hm; unfold mret, M_ret in H; simplify_eq;
        eexists; split; [exact Hc | reflexivity]
    | modify (clear_definitions_cache _) _ = Some _ =>
        apply modify_inv in H; eexists; split; [exact Hc | exact H]
    | (_ ≫= _) _ = Some _ =>
        let Hs := fresh "Hs" in
        apply bind_inv in H as (? & ? & Hs & H);
        apply (same_caches_step _ _ _ _ _ Hc) in Hs; [| solve [keeps_caches]];
        clear Hc; rename Hs into Hc
    end.

Lemma run_mutation_caches (fuel : nat) (name : string) (m : mutation)
    (st st' : Definitions) :
  run_mutation fuel name m st = Some (tt, st') →
  ∃ full st1 l st2 mid,
    lookup_name fuel name st = Some (full, st1)
    ∧ (get_user_definition full true ≫= or_raise) st1 = Some (l, st2)
    ∧ same_caches st2 mid
    ∧ st' = clear_definitions_cache name mid.
Proof.
  intros H.
  destruct m as [a | a | a | r pos | r forms | r | r | r | o | e];
    unfold run_mutation, set_attribute, set_attributes, clear_attribute, add_rule,
      add_format, add_nvalue, add_default, add_message, add_rule_at, set_options,
      unset in H.
  4, 10: apply bind_inv in H as (result & st3 & H & Hret);
         unfold mret, M_ret in Hret; simplify_eq.
  all: apply bind_inv in H as (full & st1 & Hlookup & H);
       apply bind_inv in H as (l & st2 & Hget & H);
       exists full, st1, l, st2;
       pose proof (same_caches_refl st2) as Hc;
       enough (∃ mid, same_caches st2 mid ∧ st' = clear_definitions_cache name mid)
         as (mid & ? & ?) by (by exists mid);
       to_final_clear H Hc.
Qed.

Lemma user_definition_bucket (full tail : string) (l : loc) (st1 st2 : Definitions) :
  (get_user_definition full true ≫= or_raise) st1 = Some (l, st2) →
  ∀ k, k ∈ bucket st1 tail →
       k ∈ bucket st2 tail ∨ definitions_cache st2 !! k = None.
Proof.
  intros H k Hk. destruct (user st1 !! full) as [l' |] eqn:E.
  - rewrite (bind_Some _ _ _ _ _ (get_user_definition_existing _ _ _ E)) in H.
    unfold or_raise, mret, M_ret in H. simplify_eq. by left.
  - rewrite (bind_Some _ _ _ _ _ (get_user_definition_creates _ _ E)) in H.
    unfold or_raise, mret, M_ret in H. simplify_eq.
    unfold bucket in *. cbn -[pop_all]. rewrite pop_all_lookup.
    destruct (decide (Names.strip_context full = tail)) as [-> | Hne].
    + right. by rewrite decide_True.
    + left. by rewrite lookup_delete_ne.
Qed.

(** C5, amended: every mutator that returns ends with
    [clear_definitions_cache(name)], not with [clear_cache(name)].  With
    a search path of well-formed contexts a mutator resolves the name
    and finds or creates the user Definition; it then raises in one
    case only, [add_rule] without position when the classification of
    the pattern object raises; in every other case it returns, nothing
    between the user Definition and the final step touches the caches
    or the reverse index, and the final step is
    [clear_definitions_cache(name)]: the names registered under the
    short form of [name] leave the cache of merged definitions, the
    bucket is removed from the reverse index, and the cache of resolved
    names is left as it is.  In particular every name that was
    registered under the short form before the call is out of the
    cache of merged definitions after it. *)
Theorem mutation_clears_definitions_cache (fuel : nat) (name : string)
    (m : mutation) (st : Definitions) (Hpath : path_ok st = true) :
  ∃ full st1 l st2,
    lookup_name (S fuel) name st = Some (full, st1)
    ∧ (get_user_definition full true ≫= or_raise) st1 = Some (l, st2)
    ∧ (classification_raises m (def_name (objects st2 !!! l)) = true →
       run_mutation (S fuel) name m st = None)
    ∧ (classification_raises m (def_name (objects st2 !!! l)) = false →
       ∃ mid st',
         run_mutation (S fuel) name m st = Some (tt, st')
         ∧ same_caches st2 mid
         ∧ st' = clear_definitions_cache name mid
         ∧ (∀ k, definitions_cache st' !! k
                 = if decide (k ∈ bucket st2 (Names.strip_context name)) then None
                   else definitions_cache st2 !! k)
         ∧ proxy st' = delete (Names.strip_context name) (proxy st2)
         ∧ lookup_cache st' = lookup_cache st2
         ∧ (∀ k, k ∈ bucket st (Names.strip_context name) →
                 definitions_cache st' !! k = None)).
Proof.
  destruct (run_mutation_total fuel name m st Hpath)
    as (full & st1 & l & st2 & Hlookup & Hget & Hraise & Hreturn).
  exists full, st1, l, st2. split; [done |]. split; [done |]. split; [done |].
  intros Hok. destruct (Hreturn Hok) as [[[] st'] Hrun].
  destruct (run_mutation_caches _ _ _ _ _ Hrun)
    as (full' & st1' & l' & st2' & mid & Hlookup' & Hget' & Hsame & ->).
  assert (full' = full ∧ st1' = st1) as [-> ->] by (split; congruence).
  assert (l' = l ∧ st2' = st2) as [-> ->] by (split; congruence).
  destruct Hsame as (Hdc & Hlc & Hpx).
  exists mid, (clear_definitions_cache name mid).
  split; [done |]. split; [done |]. split; [done |].
  assert (Hcache : ∀ k, definitions_cache (clear_definitions_cache name mid) !! k
            = if decide (k ∈ bucket st2 (Names.strip_context name)) then None
              else definitions_cache st2 !! k).
  { intros k. rewrite clear_definitions_cache_lookup. unfold bucket.
    by rewrite Hdc, Hpx. }
  split; [done |]. split; [cbn; by rewrite Hpx |]. split; [done |].
  intros k Hk. rewrite Hcache.
  destruct (lookup_name_total fuel name st Hpath) as (full' & st1' & Hlookup2 & Hframe).
  assert (full' = full ∧ st1' = st1) as [-> ->] by (split; congruence).
  apply (frame_proxy _ _ Hframe) in Hk.
  destruct (user_definition_bucket _ _ _ _ _ Hget k Hk) as [Hin | Hnone].
  - by rewrite decide_True.
  - by destruct (decide _).
Qed.

(** C5 as stated fails: after [get_definition("f")] the name ["f"] is
    registered under its short form and has an entry in the cache of
    resolved names; [set_attribute("f", 1)] evicts the merged
    definition and leaves that entry where it is, whereas
    [clear_cache("f")] would have removed it. *)
Lemma mutation_keeps_resolved_name :
  ∃ st1 st2,
    get_definition 2 "f" false Samples.only_user_f = Some (Some 0, st1)
    ∧ proxy st1 !! Names.strip_context "f" = Some {["f"; "Global`f"]}
    ∧ lookup_cache st1 !! "f" = Some "Global`f"
    ∧ set_attribute 1 "f" 1 st1 = Some (tt, st2)
    ∧ definitions_cache st2 !! "f" = None
    ∧ lookup_cache st2 !! "f" = Some "Global`f"
    ∧ lookup_cache (clear_cache (Some "f") st1) !! "f" = None.
Proof.
  eexists _, _. split; [vm_compute; reflexivity |].
  split; [vm_compute; reflexivity |]. split; [vm_compute; reflexivity |].
  split; [vm_compute; reflexivity |].
  split; [vm_compute; reflexivity |]. split; vm_compute; reflexivity.
Qed.

(** ** Invalidation followed by a lookup *)

Lemma path_ok_clear_cache (name : option string) (st : Definitions) :
  path_ok (clear_cache name st) = path_ok st.
Proof. by destruct name. Qed.

Lemma sources_clear_cache (name : option string) (st : Definitions) (full : string) :
  sources (clear_cache name st) full = sources st full.
Proof. by destruct name. Qed.

Lemma objects_clear_cache (name : option string) (st : Definitions) :
  objects (clear_cache name st) = objects st.
Proof. by destruct name. Qed.

(** C6, amended: after [clear_cache(name)] the entry of a cached name
    that is registered in the reverse index is gone, and a following
    [get_definition(name)] returns a newly allocated Definition, hence
    not the one that was cached, when the symbol has entries in two or
    more namespaces; when it has an entry in exactly one namespace the
    call returns the object of that namespace itself. *)
Theorem get_definition_after_clear_cache (fuel : nat) (name : string)
    (only_if_exists : bool) (st : Definitions) (old : loc)
    (Hpath : path_ok st = true)
    (Hcached : definitions_cache st !! name = Some old)
    (Hold : allocated st old)
    (Hindex : name ∈ bucket st (Names.strip_context name)) :
  let st0 := clear_cache (Some name) st in
  definitions_cache st0 !! name = None
  ∧ ∃ full st1,
      lookup_name (S fuel) name st0 = Some (full, st1)
      ∧ (2 ≤ length (sources st full) →
         ∃ merged st',
           get_definition (S (S fuel)) name only_if_exists st0
           = Some (Some merged, st')
           ∧ ¬ allocated st merged
           ∧ merged ≠ old)
      ∧ (∀ l, sources st full = [l] →
              ∃ st', get_definition (S (S fuel)) name only_if_exists st0
                     = Some (Some l, st')).
Proof.
  intros st0.
  assert (Hmiss : definitions_cache st0 !! name = None)
    by by apply clear_cache_evicts.
  split; [done |].
  destruct (lookup_name_total fuel name st0) as (full & st1 & Hlookup & Hframe).
  { subst st0. by rewrite path_ok_clear_cache. }
  exists full, st1. split; [done |].
  assert (Hsrc : sources st1 full = sources st full).
  { rewrite (sources_frame _ _ full Hframe). apply sources_clear_cache. }
  split.
  - intros Hlen.
    destruct (select_definition_merged name full only_if_exists st1)
      as (d & st2 & Hsel & _); [by rewrite Hsrc |].
    eexists _, _. split; [by rewrite get_definition_step, Hmiss, Hlookup |].
    apply frame_objects_length in Hframe.
    subst st0. rewrite objects_clear_cache in Hframe.
    unfold allocated in *. lia.
  - intros l Hl. eexists.
    rewrite get_definition_step, Hmiss, Hlookup.
    apply select_definition_single. by rewrite Hsrc.
Qed.

Lemma get_definition_after_clear_cache_witness :
  ∃ st1,
    get_definition 2 Examples.f false Samples.layered = Some (Some 2, st1)
    ∧ path_ok st1 = true
    ∧ definitions_cache st1 !! Examples.f = Some 2
    ∧ allocated st1 2
    ∧ Examples.f ∈ bucket st1 (Names.strip_context Examples.f)
    ∧ definitions_cache (clear_cache (Some Examples.f) st1) !! Examples.f = None.
Proof.
  eexists. split; [vm_compute; reflexivity |].
  match goal with |- path_ok ?s = true ∧ _ => set (st1 := s) end.
  assert (Hpath : path_ok st1 = true) by reflexivity.
  assert (Hcached : definitions_cache st1 !! Examples.f = Some 2)
    by (vm_compute; reflexivity).
  assert (Hold : allocated st1 2) by (vm_compute; lia).
  assert (Hindex : Examples.f ∈ bucket st1 (Names.strip_context Examples.f)).
  { replace (bucket st1 (Names.strip_context Examples.f)) with ({[Examples.f]} : gset string)
      by (vm_compute; reflexivity).
    by apply elem_of_singleton. }
  repeat (split; [assumption |]).
  exact (proj1 (get_definition_after_clear_cache 0 Examples.f false st1 2
                  Hpath Hcached Hold Hindex)).
Defined.

(** C6 as stated fails: [Global`f] has a user Definition only; the
    object returned and cached by [get_definition] is that Definition,
    and after [clear_cache] the same object is returned again. *)
Lemma single_source_keeps_identity :
  ∃ st1 st2,
    get_definition 2 Examples.f false Samples.only_user_f = Some (Some 0, st1)
    ∧ definitions_cache st1 !! Examples.f = Some 0
    ∧ definitions_cache (clear_cache (Some Examples.f) st1) !! Examples.f = None
    ∧ get_definition 2 Examples.f false (clear_cache (Some Examples.f) st1)
      = Some (Some 0, st2)
    ∧ objects st2 !! 0 = objects st1 !! 0.
Proof.
  eexists _, _. split; [vm_compute; reflexivity |].
  split; [vm_compute; reflexivity |]. split; [vm_compute; reflexivity |].
  split; vm_compute; reflexivity.
Qed.

(** ** Evaluations *)

(** C4: [lookup_name] does not try the current context first.  With
    current context [Global`], search path [System`, Global`], and [x]
    defined both as [Global`x] and as [System`x], the short name [x]
    resolves to [System`x]; the current context only supplies the
    default when no context of the path has the symbol. *)
Theorem lookup_name_takes_first_of_path (fuel : nat) :
  current_context Samples.shadowed = "Global`"
  ∧ context_path Samples.shadowed = ["System`"; "Global`"]
  ∧ user Samples.shadowed !! "Global`x" = Some 1
  ∧ builtin Samples.shadowed !! "System`x" = Some 0
  ∧ fst <$> lookup_name (S fuel) "x" Samples.shadowed = Some "System`x"
  ∧ fst <$> lookup_name (S fuel) "y" Samples.shadowed = Some "Global`y".
Proof. repeat split; vm_compute; reflexivity. Qed.

(** C7: [get_definition] changes a builtin Definition.  When the
    builtin and the user Definition of a symbol both have format values
    for a form, the merged Definition points to the very list of the
    builtin, and that list is extended in place with the user's rules:
    the builtin's format values for [OutputForm] are [[d1]] before the
    call and [[d1; d2]] after it, and [[d1; d2; d2]] after the next
    merge. *)
Theorem merge_extends_builtin_format_list :
  ∃ merged st1 again st2,
    get_definition 2 Examples.f false Samples.formatted = Some (Some merged, st1)
    ∧ builtin st1 !! Examples.f = Some 0
    ∧ dict_get (formatvalues (objects Samples.formatted !!! 0)) "System`OutputForm"
      = Some 0
    ∧ dict_get (formatvalues (objects st1 !!! 0)) "System`OutputForm" = Some 0
    ∧ dict_get (formatvalues (objects st1 !!! merged)) "System`OutputForm" = Some 0
    ∧ format_lists Samples.formatted !! 0 = Some [Samples.d1]
    ∧ format_lists st1 !! 0 = Some [Samples.d1; Samples.d2]
    ∧ get_definition 2 Examples.f false (clear_cache (Some Examples.f) st1)
      = Some (Some again, st2)
    ∧ format_lists st2 !! 0 = Some [Samples.d1; Samples.d2; Samples.d2].
Proof.
  eexists _, _, _, _. split; [vm_compute; reflexivity |].
  do 6 (split; [vm_compute; reflexivity |]).
  split; vm_compute; reflexivity.
Qed.

(** C8: a Definition created by [get_definition] itself leaves the
    cache of resolved names alone.  With only [Global`x] defined, [x]
    resolves to [Global`x], which is cached; [get_definition] of
    [System`x] then creates that symbol in the user namespace, and [x]
    still resolves to the cached [Global`x], although a resolution from
    an empty cache yields [System`x]. *)
Theorem created_symbol_keeps_stale_resolution :
  ∃ st1 created st2,
    get_definition 2 "x" false Samples.only_user_x = Some (Some 0, st1)
    ∧ lookup_cache st1 !! "x" = Some "Global`x"
    ∧ user st1 !! "System`x" = None
    ∧ get_definition 2 "System`x" false st1 = Some (Some created, st2)
    ∧ user st2 !! "System`x" = Some created
    ∧ lookup_cache st2 !! "x" = Some "Global`x"
    ∧ fst <$> lookup_name 1 "x" st2 = Some "Global`x"
    ∧ fst <$> lookup_name 1 "x" (clear_cache None st2) = Some "System`x".
Proof.
  eexists _, _, _. split; [vm_compute; reflexivity |].
  do 6 (split; [vm_compute; reflexivity |]).
  vm_compute; reflexivity.
Qed.

(** ** The reverse index covers the cache of merged definitions *)

Lemma indexed_initial : indexed initial.
Proof. intros k [l Hl]. done. Qed.

Lemma indexed_same_caches (st st' : Definitions) :
  definitions_cache st' = definitions_cache st → proxy st' = proxy st →
  indexed st → indexed st'.
Proof.
  intros Hdc Hpx Hind k Hk. unfold bucket. rewrite Hpx. apply Hind. by rewrite <- Hdc.
Qed.

Lemma indexed_register (o n : string) (l : loc) (st : Definitions) :
  indexed st → indexed (register o n l st).
Proof.
  intros Hind k Hk. destruct (decide (k = o)) as [-> | Hne].
  - unfold bucket, register. simpl. rewrite lookup_insert_eq. simpl. set_solver.
  - apply (frame_proxy _ _ (frame_register o n l st)). apply Hind.
    simpl in Hk. by rewrite lookup_insert_ne in Hk.
Qed.

Lemma indexed_pop (tail : string) (lc : gmap string string) (st : Definitions) :
  indexed st →
  indexed (set_caches (pop_all (bucket st tail) (definitions_cache st)) lc
             (delete tail (proxy st)) st).
Proof.
  intros Hind k Hk. cbn in Hk. rewrite pop_all_lookup in Hk.
  destruct (decide (k ∈ bucket st tail)) as [Hin | Hnot]; [by destruct Hk |].
  specialize (Hind k Hk). unfold bucket in *. cbn.
  destruct (decide (tail = Names.strip_context k)) as [-> | Hne]; [done |].
  by rewrite lookup_delete_ne.
Qed.

Lemma indexed_clear_cache (name : option string) (st : Definitions) :
  indexed st → indexed (clear_cache name st).
Proof.
  destruct name as [name |]; [apply indexed_pop |].
  intros _ k [l Hl]. done.
Qed.

Lemma indexed_clear_definitions_cache (name : string) (st : Definitions) :
  indexed st → indexed (clear_definitions_cache name st).
Proof. apply indexed_pop. Qed.

Lemma select_definition_indexed (original full : string) (only_if_exists : bool)
    (st st' : Definitions) (r : option loc) :
  select_definition original full only_if_exists st = Some (r, st') →
  indexed st → indexed st'.
Proof.
  intros Hsel Hind.
  destruct (sources st full) as [| l [| l' rest]] eqn:E.
  - destruct only_if_exists.
    + rewrite select_definition_none in Hsel by done. by simplify_eq.
    + destruct (decide (full = "")) as [-> | Hne].
      * unfold select_definition, sources in *. unfold_monad. simpl in *.
        destruct (user st !! ""), (pymathics st !! ""), (builtin st !! "");
          simplify_eq/=.
      * rewrite select_definition_vivify in Hsel by done. simplify_eq.
        revert Hind. apply indexed_same_caches;
          by destruct (negb (Names.endswith_mark full)).
  - rewrite (select_definition_single _ _ _ _ l) in Hsel by done. simplify_eq.
    by apply indexed_register.
  - destruct (select_definition_merged original full only_if_exists st)
      as (d & st2 & Hsel' & _ & [_ Hdc _ Hpx] & _); [rewrite E; simpl; lia |].
    rewrite Hsel' in Hsel. simplify_eq. apply indexed_register.
    by apply (indexed_same_caches st).
Qed.

Lemma search_path_indexed (have : string → M bool) (name with_context : string)
    (path : list string) :
  (∀ n st b st', have n st = Some (b, st') → indexed st → indexed st') →
  ∀ st full st',
    search_path have name with_context path st = Some (full, st') →
    indexed st → indexed st'.
Proof.
  intros Hhave. induction path as [| ctx path IH]; intros st full st' H Hind.
  - simpl in H. unfold mret, M_ret in H. by simplify_eq.
  - simpl in H. apply bind_inv in H as (found & st1 & H1 & H).
    apply Hhave in H1; [| done]. destruct found.
    + unfold mret, M_ret in H. by simplify_eq.
    + by eapply IH.
Qed.

Lemma lookup_name_with_indexed (have : string → M bool) (name : string) :
  (∀ n st b st', have n st = Some (b, st') → indexed st → indexed st') →
  ∀ st full st',
    lookup_name_with have name st = Some (full, st') → indexed st → indexed st'.
Proof.
  intros Hhave st full st' H Hind. unfold lookup_name_with in H.
  unfold mbind at 1, M_bind at 1, gets at 1 in H.
  destruct (lookup_cache st !! name).
  { unfold mret, M_ret in H. by simplify_eq. }
  destruct (Names.fully_qualified_symbol_name name).
  { unfold mret, M_ret in H. by simplify_eq. }
  unfold mbind at 1, M_bind at 1, gets at 1 in H.
  destruct (Names.has_mark name).
  { destruct (Names.startswith_mark name); unfold mret, M_ret in H; by simplify_eq. }
  unfold mbind at 1, M_bind at 1, gets at 1 in H.
  by eapply search_path_indexed.
Qed.

Lemma get_definition_indexed (fuel : nat) :
  ∀ name only_if_exists st r st',
    get_definition fuel name only_if_exists st = Some (r, st') →
    indexed st → indexed st'.
Proof.
  induction fuel as [| fuel IH]; intros name oie st r st' H Hind; [done |].
  rewrite get_definition_step in H.
  destruct (definitions_cache st !! name); [by simplify_eq |].
  destruct (lookup_name fuel name st) as [[full st1] |] eqn:Hlookup; [| done].
  eapply select_definition_indexed; [exact H |].
  eapply (lookup_name_with_indexed (have_definition fuel)); [| exact Hlookup | done].
  intros n s b s' Hhave. unfold have_definition in Hhave.
  apply bind_inv in Hhave as (d & s1 & Hget & Hret).
  unfold mret, M_ret in Hret. simplify_eq. by eapply IH.
Qed.

Lemma keeps_index_bind {A B : Type} (m : M A) (f : A → M B) :
  keeps_index m → (∀ a, keeps_index (f a)) → keeps_index (m ≫= f).
Proof.
  intros Hm Hf st b st' H Hind.
  apply bind_inv in H as (a & st1 & H1 & H2). eapply Hf; [exact H2 |]. eauto.
Qed.

Lemma keeps_index_ret {A : Type} (a : A) : keeps_index (mret a).
Proof. intros st b st' H. unfold mret, M_ret in H. by simplify_eq. Qed.

Lemma keeps_index_raise {A : Type} : keeps_index (@raise A).
Proof. intros st b st' H. done. Qed.

Lemma keeps_index_or_raise {A : Type} (r : option A) : keeps_index (or_raise r).
Proof. destruct r; [apply keeps_index_ret | apply keeps_index_raise]. Qed.

Lemma keeps_index_gets {A : Type} (f : Definitions → A) : keeps_index (gets f).
Proof. intros st b st' H. unfold gets in H. by simplify_eq. Qed.

Lemma keeps_index_modify (f : Definitions → Definitions) :
  (∀ st, indexed st → indexed (f st)) → keeps_index (modify f).
Proof. intros Hf st b st' H. unfold modify in H. simplify_eq. apply Hf. Qed.

Lemma keeps_index_read (l : loc) : keeps_index (read l).
Proof. apply keeps_index_gets. Qed.

Lemma keeps_index_write (l : loc) (d : DefinitionT) : keeps_index (write l d).
Proof. apply keeps_index_modify. intros st. by apply indexed_same_caches. Qed.

Lemma keeps_index_alloc (d : DefinitionT) : keeps_index (alloc d).
Proof.
  intros st b st' H. unfold alloc in H. simplify_eq. by apply indexed_same_caches.
Qed.

Lemma keeps_index_alloc_list (rules : list Rule) : keeps_index (alloc_list rules).
Proof.
  intros st b st' H. unfold alloc_list in H. simplify_eq.
  by apply indexed_same_caches.
Qed.

Lemma keeps_index_clear_definitions_cache (name : string) :
  keeps_index (modify (clear_definitions_cache name)).
Proof. apply keeps_index_modify, indexed_clear_definitions_cache. Qed.

Lemma keeps_index_lookup_name (fuel : nat) (name : string) :
  keeps_index (lookup_name fuel name).
Proof.
  intros st full st'. apply lookup_name_with_indexed.
  intros n s b s' Hhave. unfold have_definition in Hhave.
  apply bind_inv in Hhave as (d & s1 & Hget & Hret).
  unfold mret, M_ret in Hret. simplify_eq. by eapply get_definition_indexed.
Qed.

Create HintDb keeps_index.

#[local] Hint Resolve keeps_index_ret keeps_index_raise keeps_index_or_raise
  keeps_index_gets keeps_index_read keeps_index_write keeps_index_alloc
  keeps_index_alloc_list keeps_index_clear_definitions_cache
  keeps_index_lookup_name : keeps_index.

Ltac keeps_index :=
  repeat first
    [ solve [auto with keeps_index]
    | apply keeps_index_bind; [| intros ?]
    | match goal with
      | |- keeps_index (let '(_, _) := ?x in _) => destruct x
      | |- keeps_index (match ?x with _ => _ end) => destruct x
      | |- keeps_index (if ?b then _ else _) => destruct b
      end
    | apply keeps_index_modify; intros ? ?;
      first [ by apply indexed_clear_cache | by eapply indexed_same_caches ] ].

Lemma keeps_index_get_user_definition (name : string) (create : bool) :
  keeps_index (get_user_definition name create).
Proof. unfold get_user_definition. keeps_index. Qed.

Lemma keeps_index_mark_changed (l : loc) : keeps_index (mark_changed l).
Proof. unfold mark_changed. keeps_index. Qed.

Lemma keeps_index_add_format_form (l : loc) (rule : Rule) (form : string) :
  keeps_index (add_format_form l rule form).
Proof. unfold add_format_form. keeps_index. Qed.

#[local] Hint Resolve keeps_index_get_user_definition keeps_index_mark_changed
  keeps_index_add_format_form : keeps_index.

Lemma keeps_index_add_format_forms (l : loc) (rule : Rule) (forms : list string) :
  ∀ acc : M unit,
    keeps_index acc →
    keeps_index (foldl (λ acc form, acc;; add_format_form l rule form) acc forms).
Proof.
  induction forms as [| form forms IH]; intros acc Hacc; simpl; [done |].
  apply IH. keeps_index.
Qed.

Lemma keeps_index_add_format_loop (l : loc) (rule : Rule) (forms : list string) :
  keeps_index (foldl (λ acc form, acc;; add_format_form l rule form) (mret tt) forms).
Proof. apply keeps_index_add_format_forms. keeps_index. Qed.

#[local] Hint Resolve keeps_index_add_format_loop : keeps_index.

(** Every state reached from [initial] by lookups and mutations
    satisfies [indexed]. *)
Lemma keeps_index_run_mutation (fuel : nat) (name : string) (m : mutation) :
  keeps_index (run_mutation fuel name m).
Proof.
  destruct m;
    unfold run_mutation, set_attribute, set_attributes, clear_attribute, add_rule,
      add_format, add_nvalue, add_default, add_message, add_rule_at, set_options,
      unset;
    keeps_index.
Qed.
(** * Further properties *)

(** ** Methods of a Definition *)

Lemma insert_rule_shape (values : list Rule) (rule : Rule) :
  ∃ before after,
    delete_same values (rule_pattern rule) = before ++ after
    ∧ insert_rule values rule = before ++ rule :: after.
Proof.
  unfold insert_rule, insort_left.
  set (cleaned := delete_same values (rule_pattern rule)).
  exists (take (bisect_left cleaned rule) cleaned),
         (drop (bisect_left cleaned rule) cleaned).
  by rewrite take_drop.
Qed.

Lemma insert_rule_elem_of (values : list Rule) (rule e : Rule) :
  e ∈ insert_rule values rule
  ↔ e = rule ∨ e ∈ delete_same values (rule_pattern rule).
Proof.
  destruct (insert_rule_shape values rule) as (before & after & -> & ->).
  rewrite !elem_of_app, elem_of_cons. tauto.
Qed.

Lemma insert_rule_ascending (values : list Rule) (rule : Rule) :
  ascending values = true → ascending (insert_rule values rule) = true.
Proof.
  intros Hasc.
  pose proof (delete_same_ascending values (rule_pattern rule) Hasc) as Hasc'.
  destruct (insort_left_spec _ rule Hasc') as (before & after & Hsplit & Hins & Hb & Hf).
  unfold insert_rule. rewrite Hins.
  apply ascending_insert; [by rewrite <- Hsplit | done | done].
Qed.

Lemma remove_same_present (values : list Rule) (lhs : Expr) :
  has_same values lhs = true →
  ∃ l1 old l2,
    values = l1 ++ old :: l2
    ∧ Element.sameQ (expr (rule_pattern old)) lhs = true
    ∧ has_same l1 lhs = false
    ∧ Def.remove_same values lhs = Some (l1 ++ l2).
Proof.
  induction values as [| e rest IH]; simpl; [done |].
  destruct (Element.sameQ (expr (rule_pattern e)) lhs) eqn:E; simpl.
  - intros _. by exists [], e, rest.
  - intros Hrest. destruct (IH Hrest) as (l1 & old & l2 & -> & Hp & Hl1 & Hd).
    exists (e :: l1), old, l2. simpl. rewrite E, Hl1, Hd. done.
Qed.

Lemma ascending_remove (l1 l2 : list Rule) (old : Rule) :
  ascending (l1 ++ old :: l2) = true → ascending (l1 ++ l2) = true.
Proof.
  rewrite !ascending_app, ascending_cons. intros (H1 & [_ H2] & Hcross).
  split; [done |]. split; [done |].
  eapply Forall_impl; [exact Hcross |]. simpl. intros x Hx.
  by apply Forall_cons in Hx as [_ ?].
Qed.

Lemma get_set_values_list (d : DefinitionT) (pos q : position) (rules : list Rule) :
  get_values_list (set_values_list d pos rules) q
  = if position_eqb pos q then rules else get_values_list d q.
Proof. by destruct pos, q. Qed.

Lemma position_eqb_eq (p q : position) : position_eqb p q = true ↔ p = q.
Proof. destruct p, q; simpl; split; congruence. Qed.


(** X1: [remove_rule] returns true exactly when the pattern has a
    category whose list holds a rule whose pattern expression is the
    same.  It then deletes the first such rule of that list and nothing
    else: the rules before and after keep their order, and every other
    category of the Definition is as before.  Otherwise the Definition
    is unchanged. *)
Theorem remove_rule_exact (d : DefinitionT) (lhs : Expr) :
  ((Def.remove_rule d lhs).1 = true
   ↔ ∃ pos, get_tag_position lhs (def_name d) = Some pos
            ∧ has_same (get_values_list d pos) lhs = true)
  ∧ ((Def.remove_rule d lhs).1 = false → (Def.remove_rule d lhs).2 = d)
  ∧ (∀ pos,
       get_tag_position lhs (def_name d) = Some pos →
       has_same (get_values_list d pos) lhs = true →
       ∃ l1 old l2,
         get_values_list d pos = l1 ++ old :: l2
         ∧ Element.sameQ (expr (rule_pattern old)) lhs = true
         ∧ has_same l1 lhs = false
         ∧ (Def.remove_rule d lhs).2 = set_values_list d pos (l1 ++ l2)
         ∧ ∀ q, q ≠ pos →
                get_values_list (Def.remove_rule d lhs).2 q = get_values_list d q).
Proof.
  unfold Def.remove_rule.
  destruct (get_tag_position lhs (def_name d)) as [pos |] eqn:Epos.
  2: { split; [| split]; [| done | done].
       split; [done | by intros (pos & ? & _)]. }
  destruct (has_same (get_values_list d pos) lhs) eqn:Ehas.
  - destruct (remove_same_present _ _ Ehas) as (l1 & old & l2 & Hv & Hp & Hl1 & Hd).
    rewrite Hd. simpl. split; [| split]; [| done |].
    + split; [| done]. intros _. by exists pos.
    + intros pos' [= <-] _.
      exists l1, old, l2. repeat split; try done.
      intros q Hq. rewrite get_set_values_list.
      destruct (position_eqb pos q) eqn:E; [| done].
      apply position_eqb_eq in E. congruence.
  - rewrite remove_same_absent by done. simpl. split; [| split]; [| done |].
    + split; [done |]. intros (pos' & [= <-] & Hhas). congruence.
    + intros pos' [= <-] Hhas. congruence.
Qed.

Lemma add_rule_at_values (d : DefinitionT) (rule : Rule) (pos q : position) :
  get_values_list (Def.add_rule_at d rule pos).2 q
  = if position_eqb pos q then insert_rule (get_values_list d pos) rule
    else get_values_list d q.
Proof. unfold Def.add_rule_at. simpl. apply get_set_values_list. Qed.

Lemma add_rule_at_well_formed (d : DefinitionT) (rule : Rule) (pos : position) :
  well_formed d → well_formed (Def.add_rule_at d rule pos).2.
Proof.
  intros Hd q. rewrite add_rule_at_values.
  destruct (position_eqb pos q); [by apply insert_rule_ascending | done].
Qed.

(** What [Definition.add_rule] does, by the outcome of the
    classification of the pattern object. *)
Lemma add_rule_cases (d : DefinitionT) (rule : Rule) :
  Def.add_rule d rule
  = match get_tag_position_object (expr (rule_pattern rule)) (def_name d) with
    | None => None
    | Some None => Some (false, d)
    | Some (Some pos) => Some (Def.add_rule_at d rule pos)
    end.
Proof.
  unfold Def.add_rule.
  by destruct (get_tag_position_object _ _) as [[pos |] |].
Qed.

Lemma add_rule_well_formed (d : DefinitionT) (rule : Rule) (r : bool * DefinitionT) :
  Def.add_rule d rule = Some r → well_formed d → well_formed r.2.
Proof.
  rewrite add_rule_cases.
  destruct (get_tag_position_object _ _) as [[pos |] |]; intros [= <-]; [| done].
  apply add_rule_at_well_formed.
Qed.

Lemma def_name_add_rule (d : DefinitionT) (rule : Rule) (r : bool * DefinitionT) :
  Def.add_rule d rule = Some r → def_name r.2 = def_name d.
Proof.
  rewrite add_rule_cases.
  destruct (get_tag_position_object _ _) as [[pos |] |]; intros [= <-]; [| done].
  by destruct pos.
Qed.

Lemma remove_rule_well_formed (d : DefinitionT) (lhs : Expr) :
  well_formed d → well_formed (Def.remove_rule d lhs).2.
Proof.
  intros Hd. unfold Def.remove_rule.
  destruct (get_tag_position _ _) as [pos |]; [| done].
  destruct (has_same (get_values_list d pos) lhs) eqn:Ehas.
  - destruct (remove_same_present _ _ Ehas) as (l1 & old & l2 & Hv & _ & _ & ->).
    simpl. intros q. rewrite get_set_values_list.
    destruct (position_eqb pos q); [| done].
    specialize (Hd pos). rewrite Hv in Hd. by eapply ascending_remove.
  - by rewrite remove_same_absent.
Qed.

Lemma new_Definition_well_formed (name : string) (attrs : Z) (numeric : bool) :
  well_formed (new_Definition name attrs numeric).
Proof. by intros []. Qed.

Lemma option_bind_Some {A B : Type} (x : A) (f : A → option B) :
  (Some x ≫= f) = f x.
Proof. reflexivity. Qed.

Lemma Definition_of_rules_snoc (name : string) (rules : list Rule) (rule : Rule) :
  Definition_of_rules name (rules ++ [rule])
  = d ← Definition_of_rules name rules; r ← Def.add_rule d rule; Some r.2.
Proof. unfold Definition_of_rules. by rewrite foldl_app. Qed.

(** X2: the methods that change the rules of a Definition keep every
    category in ascending order of precedence: if all categories are
    ascending, they still are after [add_rule] (when it returns), after
    [add_rule_at] and after [remove_rule], whatever [sameQ] of pattern
    objects computes. *)
Theorem rule_methods_keep_order (d : DefinitionT) (Hd : well_formed d) :
  (∀ rule r, Def.add_rule d rule = Some r → well_formed r.2)
  ∧ (∀ rule pos, well_formed (Def.add_rule_at d rule pos).2)
  ∧ (∀ lhs, well_formed (Def.remove_rule d lhs).2).
Proof.
  split; [| split]; intros.
  - by eapply add_rule_well_formed.
  - by apply add_rule_at_well_formed.
  - by apply remove_rule_well_formed.
Qed.

(** X3: what the constructor builds from a list of rules.  It raises
    exactly when the classification of the pattern object of one of
    the rules raises.  Otherwise the Definition has the given name,
    every category of it is in ascending order, each category holds
    only rules of the given list whose pattern object classifies to
    that category, and a rule whose pattern has no category is in no
    category. *)
Theorem constructor_classifies_rules (name : string) (rules : list Rule) :
  (Definition_of_rules name rules = None
   ↔ ∃ rule, rule ∈ rules
             ∧ get_tag_position_object (expr (rule_pattern rule)) name = None)
  ∧ (∀ d,
       Definition_of_rules name rules = Some d →
       def_name d = name
       ∧ well_formed d
       ∧ (∀ pos rule,
            rule ∈ get_values_list d pos →
            rule ∈ rules
            ∧ get_tag_position_object (expr (rule_pattern rule)) name
              = Some (Some pos))
       ∧ (∀ rule,
            rule ∈ rules →
            get_tag_position_object (expr (rule_pattern rule)) name = Some None →
            ∀ pos, rule ∉ get_values_list d pos)).
Proof.
  assert (Hmain :
    (Definition_of_rules name rules = None
     ↔ ∃ rule, rule ∈ rules
               ∧ get_tag_position_object (expr (rule_pattern rule)) name = None)
    ∧ ∀ d, Definition_of_rules name rules = Some d →
           def_name d = name ∧ well_formed d
           ∧ ∀ pos rule,
               rule ∈ get_values_list d pos →
               rule ∈ rules
               ∧ get_tag_position_object (expr (rule_pattern rule)) name
                 = Some (Some pos)).
  { induction rules as [| r rules IH] using rev_ind.
    - split.
      + split; [done |]. intros (rule & Hin & _). by apply elem_of_nil in Hin.
      + intros d [= <-]. split; [done |].
        split; [apply new_Definition_well_formed |].
        intros [] rule Hin; by apply elem_of_nil in Hin.
    - destruct IH as (Hnone & Hsome).
      rewrite Definition_of_rules_snoc.
      destruct (Definition_of_rules name rules) as [d0 |] eqn:E0.
      + destruct (Hsome d0 eq_refl) as (Hname & Hwf & Hin).
        rewrite option_bind_Some, add_rule_cases, Hname.
        destruct (get_tag_position_object (expr (rule_pattern r)) name)
          as [[pos' |] |] eqn:E; rewrite ?option_bind_Some.
        * split.
          { split; [done |]. intros (rule & [Hold | Hnew]%elem_of_app & Hraise).
            - assert (Some d0 = None); [| done]. apply Hnone. eauto.
            - apply list_elem_of_singleton in Hnew as ->. congruence. }
          intros d [= <-]. split; [by destruct pos' |].
          split; [by apply add_rule_at_well_formed |].
          intros pos rule. rewrite get_set_values_list.
          destruct (position_eqb pos' pos) eqn:Epos.
          -- apply position_eqb_eq in Epos as ->.
             intros [-> | Hold]%insert_rule_elem_of.
             ++ split; [apply elem_of_app; right; by left | done].
             ++ apply delete_same_elem_of, Hin in Hold as [? ?].
                split; [apply elem_of_app; by left | done].
          -- intros [? ?]%Hin. split; [apply elem_of_app; by left | done].
        * split.
          { split; [done |]. intros (rule & [Hold | Hnew]%elem_of_app & Hraise).
            - assert (Some d0 = None); [| done]. apply Hnone. eauto.
            - apply list_elem_of_singleton in Hnew as ->. congruence. }
          intros d [= <-]. split; [done |]. split; [done |].
          intros pos rule [? ?]%Hin. split; [apply elem_of_app; by left | done].
        * split; [| done]. split; [| done]. intros _.
          exists r. split; [apply elem_of_app; right; by left | done].
      + split; [| done]. split; [| done]. intros _.
        destruct (proj1 Hnone eq_refl) as (rule & Hin & Hraise).
        exists rule. split; [apply elem_of_app; by left | done]. }
  destruct Hmain as (Hnone & Hsome). split; [done |].
  intros d Hd. destruct (Hsome d Hd) as (Hname & Hwf & Hin).
  split; [done |]. split; [done |]. split; [exact Hin |].
  intros rule _ Hnocat pos Hmem. apply Hin in Hmem as [_ ?]. congruence.
Qed.

(** ** Lookups that must not create anything *)

Lemma select_definition_cached (original full : string) (st st' : Definitions)
    (d : loc) :
  select_definition original full true st = Some (Some d, st') →
  definitions_cache st' !! original = Some d.
Proof.
  intros H. destruct (sources st full) as [| l [| l' rest]] eqn:E.
  - rewrite select_definition_none in H by done. simplify_eq.
  - rewrite (select_definition_single _ _ _ _ l) in H by done. simplify_eq.
    simpl. by rewrite lookup_insert_eq.
  - destruct (select_definition_merged original full true st)
      as (dd & st2 & Hsel & _); [rewrite E; simpl; lia |].
    rewrite Hsel in H. simplify_eq. simpl. by rewrite lookup_insert_eq.
Qed.


Lemma get_definition_hit (fuel : nat) (name : string) (only_if_exists : bool)
    (st : Definitions) (d : loc) :
  definitions_cache st !! name = Some d →
  get_definition (S fuel) name only_if_exists st = Some (Some d, st).
Proof. intros H. by rewrite get_definition_step, H. Qed.



(** X5: a Definition found by a lookup with [only_if_exists=True] is
    cached under the name that was asked for: every later lookup of
    that name, with either value of the flag and any recursion budget,
    returns the same object and leaves the whole state as it is. *)
Theorem found_definition_is_repeatable (fuel : nat) (name : string)
    (st st' : Definitions) (d : loc)
    (Hget : get_definition fuel name true st = Some (Some d, st')) :
  definitions_cache st' !! name = Some d
  ∧ ∀ fuel' only_if_exists,
      get_definition (S fuel') name only_if_exists st' = Some (Some d, st').
Proof.
  assert (Hcache : definitions_cache st' !! name = Some d).
  { destruct fuel as [| fuel]; [done |]. rewrite get_definition_step in Hget.
    destruct (definitions_cache st !! name) as [d' |] eqn:E; [by simplify_eq |].
    destruct (lookup_name fuel name st) as [[full st1] |]; [| done].
    by eapply select_definition_cached. }
  split; [done |]. intros fuel' oie. by apply get_definition_hit.
Qed.

Lemma found_definition_is_repeatable_witness :
  ∃ st',
    get_definition 2 "x" true Samples.shadowed = Some (Some 0, st')
    ∧ get_definition 1 "x" false st' = Some (Some 0, st').
Proof.
  eexists. split; [vm_compute; reflexivity |].
  match goal with |- get_definition 1 "x" false ?s = _ => set (st' := s) end.
  assert (Hget : get_definition 2 "x" true Samples.shadowed = Some (Some 0, st'))
    by (vm_compute; reflexivity).
  exact (proj2 (found_definition_is_repeatable 2 "x" _ _ 0 Hget) 0 false).
Defined.

(** ** Names that resolve to themselves *)

Lemma fully_qualified_facts (name : string) :
  Names.fully_qualified_symbol_name name = true →
  Names.has_mark name = true ∧ Names.startswith_mark name = false
  ∧ Names.endswith_mark name = false ∧ name ≠ "".
Proof.
  unfold Names.fully_qualified_symbol_name.
  rewrite !andb_true_iff, !negb_true_iff. intros [[[H1 H2] H3] _].
  repeat split; try done. by intros ->.
Qed.

Lemma lookup_name_plain (fuel : nat) (name : string) (st : Definitions) :
  Names.has_mark name = true → Names.startswith_mark name = false →
  lookup_cache st !! name = None →
  lookup_name fuel name st = Some (name, st).
Proof.
  intros Hmark Hstart Hcache. unfold lookup_name, lookup_name_with.
  unfold_monad. rewrite Hcache, Hmark, Hstart.
  by destruct (Names.fully_qualified_symbol_name name).
Qed.

Lemma lookup_name_self (fuel : nat) (name : string) (st : Definitions) :
  Names.fully_qualified_symbol_name name = true → self_resolved st name →
  lookup_name fuel name st = Some (name, st).
Proof.
  intros Hfq Hself. unfold lookup_name, lookup_name_with. unfold_monad.
  destruct (lookup_cache st !! name) as [v |] eqn:E.
  - by rewrite (Hself v E).
  - by rewrite Hfq.
Qed.

Lemma has_mark_app (a b : string) :
  Names.has_mark (a +:+ b) = Names.has_mark a || Names.has_mark b.
Proof.
  induction a as [| c a IH]; simpl; [done |].
  by destruct (Names.is_mark c).
Qed.

Lemma startswith_mark_app (a b : string) :
  a ≠ "" → Names.startswith_mark (a +:+ b) = Names.startswith_mark a.
Proof. by destruct a. Qed.

Lemma endswith_mark_app (a b : string) :
  b ≠ "" → Names.endswith_mark (a +:+ b) = Names.endswith_mark b.
Proof.
  intros Hb. induction a as [| c a IH]; simpl; [done |].
  destruct (a +:+ b) eqn:E; [| done].
  destruct a; simpl in E; [by subst | discriminate].
Qed.

Lemma endswith_mark_has_mark_false (name : string) :
  Names.has_mark name = false → Names.endswith_mark name = false.
Proof.
  intros H. destruct (Names.endswith_mark name) eqn:E; [| done].
  apply endswith_has_mark in E. congruence.
Qed.

Lemma plain_context_candidate (ctx name : string) :
  plain_context ctx = true →
  Names.has_mark (ctx +:+ name) = true
  ∧ Names.startswith_mark (ctx +:+ name) = false.
Proof.
  unfold plain_context. rewrite andb_true_iff, negb_true_iff. intros [He Hs].
  split; [by apply has_mark_app_l, endswith_has_mark |].
  rewrite startswith_mark_app; [done |]. by destruct ctx.
Qed.

Lemma plain_path_ok (st : Definitions) :
  forallb plain_context (context_path st) = true → path_ok st = true.
Proof.
  unfold path_ok. rewrite !forallb_forall. intros H ctx Hctx.
  specialize (H ctx Hctx). unfold plain_context in H.
  by apply andb_true_iff in H as [? _].
Qed.

(** ** Definitions created on first use *)

Lemma get_definition_absent_candidate (fuel : nat) (n : string) (st : Definitions) :
  Names.has_mark n = true → Names.startswith_mark n = false →
  lookup_cache st !! n = None → definitions_cache st !! n = None →
  sources st n = [] →
  have_definition (S fuel) n st = Some (false, st).
Proof.
  intros Hmark Hstart Hlc Hdc Hsrc. unfold have_definition.
  assert (Hget : get_definition (S fuel) n true st = Some (None, st)).
  { rewrite get_definition_step, Hdc, (lookup_name_plain _ _ _ Hmark Hstart Hlc).
    by apply select_definition_none. }
  by rewrite (bind_Some _ _ _ _ _ Hget).
Qed.

Lemma search_path_all_absent (fuel : nat) (name with_context : string)
    (path : list string) (st : Definitions) :
  forallb plain_context path = true →
  (∀ ctx, ctx ∈ path →
          lookup_cache st !! (ctx +:+ name) = None
          ∧ definitions_cache st !! (ctx +:+ name) = None
          ∧ sources st (ctx +:+ name) = []) →
  search_path (have_definition (S fuel)) name with_context path st
  = Some (with_context, st).
Proof.
  induction path as [| ctx path IH]; intros Hplain Habsent; simpl; [done |].
  apply andb_true_iff in Hplain as [Hctx Hplain].
  destruct (plain_context_candidate ctx name Hctx) as [Hmark Hstart].
  destruct (Habsent ctx) as (Hlc & Hdc & Hsrc); [by left |].
  rewrite (bind_Some _ _ _ _ _
             (get_definition_absent_candidate fuel _ st Hmark Hstart Hlc Hdc Hsrc)).
  apply IH; [done |]. intros ctx' Hctx'. apply Habsent. by right.
Qed.

(** X6: the first use of an unknown short name declares it in the
    current context.  From empty caches, for a non-empty name without
    separator such that neither the current context nor any context of
    the search path has a symbol of that name, [get_definition] returns
    a newly allocated empty Definition named [current_context + name],
    enters it in the user namespace under that name and caches nothing;
    builtin and plugin namespaces are as before. *)
Theorem first_use_declares_symbol (fuel : nat) (name : string) (st : Definitions)
    (Hname : name ≠ "")
    (Hmark : Names.has_mark name = false)
    (Hpath : forallb plain_context (context_path st) = true)
    (Hdc : definitions_cache st = ∅)
    (Hlc : lookup_cache st = ∅)
    (Hcurrent : sources st (current_context st +:+ name) = [])
    (Habsent : ∀ ctx, ctx ∈ context_path st → sources st (ctx +:+ name) = []) :
  let full := current_context st +:+ name in
  let created := length (objects st) in
  ∃ st',
    get_definition (S (S fuel)) name false st = Some (Some created, st')
    ∧ user st' = <[full := created]> (user st)
    ∧ objects st' = objects st ++ [new_Definition full A_NO_ATTRIBUTES false]
    ∧ builtin st' = builtin st ∧ pymathics st' = pymathics st
    ∧ definitions_cache st' = ∅ ∧ lookup_cache st' = ∅ ∧ proxy st' = proxy st.
Proof.
  intros full created.
  assert (Hlookup : lookup_name (S fuel) name st = Some (full, st)).
  { unfold lookup_name, lookup_name_with. unfold_monad.
    rewrite Hlc, lookup_empty.
    assert (Names.fully_qualified_symbol_name name = false) as ->.
    { unfold Names.fully_qualified_symbol_name. by rewrite Hmark. }
    rewrite Hmark. apply search_path_all_absent; [done |].
    intros ctx Hctx. rewrite Hlc, Hdc, !lookup_empty. split; [done |].
    split; [done | by apply Habsent]. }
  assert (Hfull : full ≠ "").
  { subst full. destruct (current_context st); [done | discriminate]. }
  assert (Hend : Names.endswith_mark full = false).
  { subst full. rewrite endswith_mark_app by done.
    by apply endswith_mark_has_mark_false. }
  eexists. split.
  { rewrite get_definition_step, Hdc, lookup_empty, Hlookup.
    rewrite select_definition_vivify by done. rewrite Hend. reflexivity. }
  simpl. by rewrite Hdc, Hlc.
Qed.

Lemma first_use_declares_symbol_witness :
  "g" ≠ "" ∧ Names.has_mark "g" = false
  ∧ ∃ st', get_definition 2 "g" false initial = Some (Some 0, st')
           ∧ user st' = {["Global`g" := 0]}.
Proof.
  split; [discriminate |]. split; [reflexivity |].
  destruct (first_use_declares_symbol 0 "g" initial ltac:(discriminate)
              eq_refl eq_refl eq_refl eq_refl eq_refl (λ _ _, eq_refl))
    as (st' & Hget & Huser & _).
  exists st'. split; [exact Hget |]. rewrite Huser. reflexivity.
Defined.

(** X7: a bare context is never entered in a namespace.  For a name
    that ends with the separator (and does not start with it), is in no
    cache and in no namespace, every [get_definition] returns another
    newly allocated empty Definition and leaves the namespaces and the
    caches as they are; so two calls in a row return two different
    objects. *)
Theorem bare_context_is_not_registered (fuel fuel' : nat) (name : string)
    (st : Definitions)
    (Hend : Names.endswith_mark name = true)
    (Hstart : Names.startswith_mark name = false)
    (Hlc : lookup_cache st !! name = None)
    (Hdc : definitions_cache st !! name = None)
    (Hsrc : sources st name = []) :
  let st1 := set_objects
               (objects st ++ [new_Definition name A_NO_ATTRIBUTES false]) st in
  let st2 := set_objects
               (objects st1 ++ [new_Definition name A_NO_ATTRIBUTES false]) st1 in
  get_definition (S fuel) name false st = Some (Some (length (objects st)), st1)
  ∧ get_definition (S fuel') name false st1
    = Some (Some (S (length (objects st))), st2)
  ∧ user st2 = user st ∧ definitions_cache st2 = definitions_cache st
  ∧ lookup_cache st2 = lookup_cache st ∧ proxy st2 = proxy st.
Proof.
  intros st1 st2.
  assert (Hmark : Names.has_mark name = true) by by apply endswith_has_mark.
  assert (Hne : name ≠ "") by by intros ->.
  assert (Hstep : ∀ f s,
            lookup_cache s !! name = None → definitions_cache s !! name = None →
            sources s name = [] →
            get_definition (S f) name false s
            = Some (Some (length (objects s)),
                    set_objects
                      (objects s ++ [new_Definition name A_NO_ATTRIBUTES false]) s)).
  { intros f s H1 H2 H3.
    rewrite get_definition_step, H2, (lookup_name_plain _ _ _ Hmark Hstart H1).
    rewrite select_definition_vivify by done. by rewrite Hend. }
  split; [by apply Hstep |]. split; [| done].
  rewrite (Hstep fuel' st1) by done. do 3 f_equal.
  subst st1. simpl. rewrite length_app. simpl. lia.
Qed.

Lemma bare_context_is_not_registered_witness :
  Names.endswith_mark "System`" = true
  ∧ get_definition 1 "System`" false initial
    = Some (Some 0, set_objects [new_Definition "System`" A_NO_ATTRIBUTES false]
                      initial).
Proof.
  split; [reflexivity |].
  exact (proj1 (bare_context_is_not_registered 0 0 "System`" initial
                  eq_refl eq_refl eq_refl eq_refl eq_refl)).
Defined.

(** ** What a mutator touches *)

Lemma only_object_refl (l : nat) (st : Definitions) : only_object l st st.
Proof. by split. Qed.

Lemma only_object_trans (l : nat) (st1 st2 st3 : Definitions) :
  only_object l st1 st2 → only_object l st2 st3 → only_object l st1 st3.
Proof.
  intros [] []. split; try congruence.
  - by eapply same_caches_trans.
  - intros l' Hl'. rewrite oo_others1 by done. by apply oo_others0.
Qed.

Lemma keeps_others_bind (l : nat) {A B : Type} (m : M A) (f : A → M B) :
  keeps_others l m → (∀ a, keeps_others l (f a)) → keeps_others l (m ≫= f).
Proof.
  intros Hm Hf st b st' H. apply bind_inv in H as (a & st1 & H1 & H2).
  eapply only_object_trans; [by eapply Hm | by eapply Hf].
Qed.

Lemma keeps_others_ret (l : nat) {A : Type} (a : A) : keeps_others l (mret a).
Proof.
  intros st b st' H. unfold mret, M_ret in H. simplify_eq. apply only_object_refl.
Qed.

Lemma keeps_others_or_raise (l : nat) {A : Type} (r : option A) :
  keeps_others l (or_raise r).
Proof. destruct r; [apply keeps_others_ret | by intros st b st' Hnone]. Qed.

Lemma keeps_others_gets (l : nat) {A : Type} (f : Definitions → A) :
  keeps_others l (gets f).
Proof.
  intros st b st' H. unfold gets in H. simplify_eq. apply only_object_refl.
Qed.

Lemma keeps_others_read (l l' : nat) : keeps_others l (read l').
Proof. apply keeps_others_gets. Qed.

Lemma keeps_others_write (l : nat) (d : DefinitionT) : keeps_others l (write l d).
Proof.
  intros st b st' H. unfold write, modify in H. simplify_eq.
  split; simpl; try done;
    first [ apply length_insert | intros l' Hl'; by apply list_lookup_insert_ne ].
Qed.

Lemma keeps_others_alloc_list (l : nat) (rules : list Rule) :
  keeps_others l (alloc_list rules).
Proof. intros st b st' H. unfold alloc_list in H. by simplify_eq. Qed.

Lemma keeps_others_set_format_lists (l : nat) (f : Definitions → list (list Rule)) :
  keeps_others l (modify (λ st, set_format_lists (f st) st)).
Proof. intros st b st' H. unfold modify in H. by simplify_eq. Qed.

Create HintDb keeps_others.

#[local] Hint Resolve keeps_others_ret keeps_others_or_raise keeps_others_gets
  keeps_others_read
  keeps_others_write keeps_others_alloc_list keeps_others_set_format_lists
  : keeps_others.

Ltac keeps_others :=
  repeat first
    [ solve [auto with keeps_others]
    | apply keeps_others_bind; [| intros ?]
    | match goal with
      | |- keeps_others _ (match ?x with _ => _ end) => destruct x
      end ].

Lemma keeps_others_add_format_form (l : nat) (rule : Rule) (form : string) :
  keeps_others l (add_format_form l rule form).
Proof. unfold add_format_form. keeps_others. Qed.

#[local] Hint Resolve keeps_others_add_format_form : keeps_others.

Lemma keeps_others_add_format_forms (l : nat) (rule : Rule) (forms : list string) :
  ∀ acc : M unit,
    keeps_others l acc →
    keeps_others l
      (foldl (λ acc form, acc;; add_format_form l rule form) acc forms).
Proof.
  induction forms as [| form forms IH]; intros acc Hacc; simpl; [done |].
  apply IH. keeps_others.
Qed.

Lemma keeps_others_add_format_loop (l : nat) (rule : Rule) (forms : list string) :
  keeps_others l
    (foldl (λ acc form, acc;; add_format_form l rule form) (mret tt) forms).
Proof. apply keeps_others_add_format_forms. keeps_others. Qed.

#[local] Hint Resolve keeps_others_add_format_loop : keeps_others.





Lemma user_definition_effect (full : string) (l : nat) (st1 st2 : Definitions) :
  (get_user_definition full true ≫= or_raise) st1 = Some (l, st2) →
  user st2 = <[full := l]> (user st1)
  ∧ (∀ l0, user st1 !! full = Some l0 → l = l0 ∧ st2 = st1)
  ∧ (user st1 !! full = None →
     l = length (objects st1)
     ∧ objects st2
       = objects st1
         ++ [new_Definition full
               (from_option (λ b, attributes (objects st1 !!! b)) A_NO_ATTRIBUTES
                  (builtin st1 !! full))
               (from_option (λ b, is_numeric (objects st1 !!! b)) false
                  (builtin st1 !! full))]
     ∧ definitions_cache st2 = definitions_cache (clear_cache (Some full) st1)
     ∧ lookup_cache st2 = lookup_cache (clear_cache (Some full) st1)
     ∧ proxy st2 = proxy (clear_cache (Some full) st1))
  ∧ builtin st2 = builtin st1 ∧ pymathics st2 = pymathics st1
  ∧ now st2 = now st1
  ∧ current_context st2 = current_context st1
  ∧ context_path st2 = context_path st1
  ∧ (∃ extra, objects st2 = objects st1 ++ extra).
Proof.
  intros H. destruct (user st1 !! full) as [l0 |] eqn:E.
  - rewrite (bind_Some _ _ _ _ _ (get_user_definition_existing _ _ _ E)) in H.
    unfold or_raise, mret, M_ret in H. simplify_eq.
    split; [by rewrite insert_id |]. split; [by intros ? [= <-] |].
    split; [done |]. repeat (split; [done |]). exists []. by rewrite app_nil_r.
  - rewrite (bind_Some _ _ _ _ _ (get_user_definition_creates _ _ E)) in H.
    unfold or_raise, mret, M_ret in H. simplify_eq.
    split; [done |]. split; [done |]. split; [done |].
    repeat (split; [done |]). by eexists.
Qed.


(** ** What the getters show after a mutation *)

Lemma self_resolved_sub (st st' : Definitions) (name : string) :
  (∀ v, lookup_cache st' !! name = Some v → lookup_cache st !! name = Some v) →
  self_resolved st name → self_resolved st' name.
Proof. intros Hsub Hself v Hv. apply Hself. by apply Hsub. Qed.

Lemma pop_all_Some {V : Type} (keys : gset string) (cache : gmap string V)
    (k : string) (v : V) :
  pop_all keys cache !! k = Some v → cache !! k = Some v.
Proof. rewrite pop_all_lookup. by destruct (decide _). Qed.

Lemma user_definition_ready (full : string) (st : Definitions) :
  indexed st → Forall (allocated st) (sources st full) →
  ∃ l st2,
    (get_user_definition full true ≫= or_raise) st = Some (l, st2)
    ∧ indexed st2
    ∧ (∀ n, self_resolved st n → self_resolved st2 n)
    ∧ allocated st2 l
    ∧ user st2 = <[full := l]> (user st)
    ∧ pymathics st2 = pymathics st ∧ builtin st2 = builtin st
    ∧ now st2 = now st
    ∧ attributes (objects st2 !!! l) = user_attributes st full
    ∧ (∀ pos, get_values_list (objects st2 !!! l) pos = user_values st full pos)
    ∧ options (objects st2 !!! l)
      = from_option (λ l0, options (objects st !!! l0)) ∅ (user st !! full)
    ∧ (user st !! full = None → def_name (objects st2 !!! l) = full)
    ∧ (∀ l0, user st !! full = Some l0 → l = l0)
    ∧ (∀ c, allocated st c → objects st2 !!! c = objects st !!! c)
    ∧ (user st !! full = None → ¬ allocated st l).
Proof.
  intros Hind Halloc.
  destruct (user_definition_total full st) as (l & st2 & Hget).
  exists l, st2. split; [done |].
  assert (Hind2 : indexed st2).
  { eapply (keeps_index_bind _ or_raise); [| | exact Hget | done].
    - apply keeps_index_get_user_definition.
    - intros a. apply keeps_index_or_raise. }
  split; [done |].
  destruct (user_definition_effect _ _ _ _ Hget)
    as (Huser & Hexisting & Hcreated & Hb & Hp & Hnow & _ & _ & [extra Hobj]).
  unfold user_attributes, user_values.
  destruct (user st !! full) as [l0 |] eqn:E.
  - destruct (Hexisting l0 eq_refl) as [-> ->].
    assert (Hl0 : allocated st l0).
    { rewrite Forall_forall in Halloc. apply Halloc. unfold sources.
      rewrite E. by left. }
    repeat (split; [done |]). split; [by intros ? [= <-] |]. done.
  - destruct (Hcreated eq_refl) as (-> & Hobj2 & Hdc & Hlc & Hpx).
    split.
    { intros n. apply self_resolved_sub. intros v. rewrite Hlc.
      apply pop_all_Some. }
    split. { unfold allocated. rewrite Hobj2, length_app. simpl. lia. }
    repeat (split; [done |]).
    rewrite Hobj2, lookup_total_app_r, Nat.sub_diag by done. simpl.
    repeat (split; [done |]). split; [by intros [] |].
    repeat (split; [done |]). split.
    + intros c Hc. by rewrite lookup_total_app_l.
    + unfold allocated. lia.
Qed.

Lemma finish_mutation_facts (name : string) (l : nat) (d' : DefinitionT)
    (st : Definitions) :
  allocated st l →
  let final := finish_mutation name l d' st in
  objects final !!! l = set_changed_field d' (now st + 1)
  ∧ (∀ c, c ≠ l → objects final !!! c = objects st !!! c)
  ∧ user final = user st ∧ pymathics final = pymathics st
  ∧ builtin final = builtin st
  ∧ lookup_cache final = lookup_cache st
  ∧ now final = now st + 1
  ∧ (∀ k, definitions_cache final !! k
          = if decide (k ∈ bucket st (Names.strip_context name)) then None
            else definitions_cache st !! k)
  ∧ length (objects final) = length (objects st).
Proof.
  intros Hl. unfold finish_mutation, allocated in *. cbn -[pop_all].
  split.
  { rewrite list_lookup_total_insert_eq by (by rewrite length_insert).
    by rewrite list_lookup_total_insert_eq. }
  split.
  { intros c Hc. by rewrite !list_lookup_total_insert_ne. }
  repeat (split; [done |]). split.
  - intros k. by rewrite pop_all_lookup.
  - by rewrite !length_insert.
Qed.

Lemma finish_mutation_miss (name : string) (l : nat) (d' : DefinitionT)
    (st : Definitions) :
  allocated st l → indexed st →
  definitions_cache (finish_mutation name l d' st) !! name = None.
Proof.
  intros Hl Hind.
  destruct (finish_mutation_facts name l d' st Hl) as (_ & _ & _ & _ & _ & _ & _ & Hdc & _).
  rewrite Hdc. destruct (decide _) as [| Hnot]; [done |].
  destruct (definitions_cache st !! name) eqn:E; [| done].
  exfalso. apply Hnot, Hind. by rewrite E.
Qed.

Lemma select_definition_view (original full : string) (st : Definitions) :
  full ≠ "" →
  ∃ d st',
    select_definition original full false st = Some (Some d, st')
    ∧ attributes (objects st' !!! d) = view_attributes st full
    ∧ (∀ pos, get_values_list (objects st' !!! d) pos = view_values st full pos)
    ∧ options (objects st' !!! d) = view_options st full.
Proof.
  intros Hfull. unfold view_attributes, view_values, view_options.
  destruct (sources st full) as [| l [| l' rest]] eqn:E.
  - eexists _, _. split; [by apply select_definition_vivify |].
    assert (Hnew : ∀ s : Definitions,
              objects
                ((if negb (Names.endswith_mark full)
                  then set_user (λ u, <[full := length (objects st)]> u) else id) s)
              = objects s) by (intros s; by destruct (negb _)).
    rewrite Hnew. simpl. rewrite lookup_total_app_r, Nat.sub_diag by done. simpl.
    split; [done |]. split; [by intros [] |]. done.
  - eexists _, _. split; [by apply select_definition_single |]. simpl.
    split; [done |]. split; [intros pos; by rewrite app_nil_r |].
    by rewrite (right_id_L ∅ (∪)).
  - destruct (select_definition_merged original full false st)
      as (d & st2 & Hsel & Hobj & _ & _ & Hv & Ho & Ha & _); [rewrite E; simpl; lia |].
    eexists _, _. split; [exact Hsel |]. simpl.
    rewrite Hobj, lookup_total_app_r, Nat.sub_diag by done. simpl.
    rewrite E in *. done.
Qed.

Lemma get_field_self {A : Type} (field : DefinitionT → A) (fuel : nat)
    (name : string) (st : Definitions) :
  Names.fully_qualified_symbol_name name = true → self_resolved st name →
  definitions_cache st !! name = None →
  ∃ d st',
    get_field field (S fuel) name st = Some (field (objects st' !!! d), st')
    ∧ attributes (objects st' !!! d) = view_attributes st name
    ∧ (∀ pos, get_values_list (objects st' !!! d) pos = view_values st name pos)
    ∧ options (objects st' !!! d) = view_options st name.
Proof.
  intros Hfq Hself Hmiss.
  destruct (fully_qualified_facts name Hfq) as (_ & _ & _ & Hne).
  destruct (select_definition_view name name st Hne) as (d & st' & Hsel & Hview).
  exists d, st'. split; [| exact Hview].
  unfold get_field.
  assert (Hget : (get_definition (S fuel) name false ≫= or_raise) st = Some (d, st')).
  { assert (H : get_definition (S fuel) name false st = Some (Some d, st'))
      by by rewrite get_definition_step, Hmiss, (lookup_name_self _ _ _ Hfq Hself).
    by rewrite (bind_Some _ _ _ _ _ H). }
  by rewrite (bind_Some _ _ _ _ _ Hget), bind_read.
Qed.

(** The state in which a mutator of a fully qualified name finds or
    creates the user Definition, and the lookup that follows it. *)
Lemma after_mutation {A : Type} (field : DefinitionT → A) (fuel : nat)
    (name : string) (st st2 : Definitions) (l : nat) (d' : DefinitionT) :
  Names.fully_qualified_symbol_name name = true →
  self_resolved st2 name → indexed st2 → allocated st2 l →
  user st2 !! name = Some l →
  ∃ d st3,
    get_field field (S fuel) name (finish_mutation name l d' st2)
    = Some (field (objects st3 !!! d), st3)
    ∧ attributes (objects st3 !!! d) = attributes d'
    ∧ (∀ pos, ∃ tail, get_values_list (objects st3 !!! d) pos
                      = get_values_list d' pos ++ tail)
    ∧ (∃ tail, options (objects st3 !!! d) = options d' ∪ tail)
    ∧ (pymathics st2 !! name = None → builtin st2 !! name = None →
       (∀ pos, get_values_list (objects st3 !!! d) pos = get_values_list d' pos)
       ∧ options (objects st3 !!! d) = options d')
    ∧ (∀ b, pymathics st2 !! name = None → builtin st2 !! name = Some b → b ≠ l →
            options (objects st3 !!! d) = options d' ∪ options (objects st2 !!! b)).
Proof.
  intros Hfq Hself Hind Hl Huser.
  pose proof (finish_mutation_miss name l d' st2 Hl Hind) as Hmiss.
  destruct (finish_mutation_facts name l d' st2 Hl)
    as (Hobj & Hothers & Hu & Hp & Hb & Hlc & _ & _ & _).
  remember (finish_mutation name l d' st2) as final eqn:Efinal. clear Efinal.
  destruct (get_field_self field fuel name final Hfq) as (d & st3 & Hget & Ha & Hv & Ho).
  { intros v. rewrite Hlc. apply Hself. }
  { done. }
  exists d, st3. split; [done |].
  assert (Hsrc : sources final name
                 = l :: option_list (pymathics st2 !! name)
                     ++ option_list (builtin st2 !! name)).
  { unfold sources. by rewrite Hu, Hp, Hb, Huser. }
  unfold view_attributes in Ha. unfold view_values in Hv. unfold view_options in Ho.
  rewrite Hsrc in Ha, Hv, Ho. simpl in Ha, Hv, Ho. rewrite Hobj in Ha, Hv, Ho.
  split; [done |]. split; [intros pos; rewrite Hv; by eexists |].
  split; [rewrite Ho; by eexists |]. split.
  - intros Hpn Hbn. rewrite Hpn, Hbn in Hv, Ho. simpl in Hv, Ho. split.
    + intros pos. rewrite Hv. by rewrite app_nil_r.
    + by rewrite Ho, (right_id_L ∅ (∪)).
  - intros b Hpn Hbn Hne. rewrite Hpn, Hbn in Ho. simpl in Ho.
    by rewrite Ho, (right_id_L ∅ (∪)), Hothers.
Qed.


Lemma set_attributes_run (fuel : nat) (name full : string) (a : Z)
    (st st1 st2 : Definitions) (l : nat) :
  lookup_name fuel name st = Some (full, st1) →
  (get_user_definition full true ≫= or_raise) st1 = Some (l, st2) →
  set_attributes fuel name a st
  = Some (tt, finish_mutation name l (set_attributes_field (objects st2 !!! l) a) st2).
Proof.
  intros Hlookup Hget. unfold set_attributes.
  by rewrite (bind_Some _ _ _ _ _ Hlookup), (bind_Some _ _ _ _ _ Hget), bind_read.
Qed.

Lemma set_attribute_run (fuel : nat) (name full : string) (a : Z)
    (st st1 st2 : Definitions) (l : nat) :
  lookup_name fuel name st = Some (full, st1) →
  (get_user_definition full true ≫= or_raise) st1 = Some (l, st2) →
  set_attribute fuel name a st
  = Some (tt, finish_mutation name l
                (set_attributes_field (objects st2 !!! l)
                   (Z.lor (attributes (objects st2 !!! l)) a)) st2).
Proof.
  intros Hlookup Hget. unfold set_attribute.
  by rewrite (bind_Some _ _ _ _ _ Hlookup), (bind_Some _ _ _ _ _ Hget), bind_read.
Qed.

Lemma clear_attribute_run (fuel : nat) (name full : string) (a : Z)
    (st st1 st2 : Definitions) (l : nat) :
  lookup_name fuel name st = Some (full, st1) →
  (get_user_definition full true ≫= or_raise) st1 = Some (l, st2) →
  clear_attribute fuel name a st
  = Some (tt, finish_mutation name l
                (set_attributes_field (objects st2 !!! l)
                   (Z.land (attributes (objects st2 !!! l)) (Z.lnot a))) st2).
Proof.
  intros Hlookup Hget. unfold clear_attribute.
  by rewrite (bind_Some _ _ _ _ _ Hlookup), (bind_Some _ _ _ _ _ Hget), bind_read.
Qed.

Lemma set_options_run (fuel : nat) (name full : string) (opts : gmap string Expr)
    (st st1 st2 : Definitions) (l : nat) :
  lookup_name fuel name st = Some (full, st1) →
  (get_user_definition full true ≫= or_raise) st1 = Some (l, st2) →
  set_options fuel name opts st
  = Some (tt, finish_mutation name l (set_options_field (objects st2 !!! l) opts) st2).
Proof.
  intros Hlookup Hget. unfold set_options.
  by rewrite (bind_Some _ _ _ _ _ Hlookup), (bind_Some _ _ _ _ _ Hget), bind_read.
Qed.

Lemma add_rule_run (fuel : nat) (name full : string) (rule : Rule)
    (pos : option position) (st st1 st2 : Definitions) (l : nat)
    (r : bool * DefinitionT) :
  lookup_name fuel name st = Some (full, st1) →
  (get_user_definition full true ≫= or_raise) st1 = Some (l, st2) →
  match pos with
  | None => Def.add_rule (objects st2 !!! l) rule
  | Some pos => Some (Def.add_rule_at (objects st2 !!! l) rule pos)
  end = Some r →
  add_rule fuel name rule pos st = Some (r.1, finish_mutation name l r.2 st2).
Proof.
  intros Hlookup Hget Hr. unfold add_rule.
  rewrite (bind_Some _ _ _ _ _ Hlookup), (bind_Some _ _ _ _ _ Hget), bind_read, Hr.
  by destruct r.
Qed.


Lemma unset_run (fuel : nat) (name full : string) (expr : Expr)
    (st st1 st2 : Definitions) (l : nat) :
  lookup_name fuel name st = Some (full, st1) →
  (get_user_definition full true ≫= or_raise) st1 = Some (l, st2) →
  let r := Def.remove_rule (objects st2 !!! l) expr in
  unset fuel name expr st = Some (r.1, finish_mutation name l r.2 st2).
Proof.
  intros Hlookup Hget r. unfold unset.
  rewrite (bind_Some _ _ _ _ _ Hlookup), (bind_Some _ _ _ _ _ Hget), bind_read.
  fold r. by destruct r.
Qed.

Lemma attributes_set_changed (d : DefinitionT) (t : nat) :
  attributes (set_changed_field d t) = attributes d.
Proof. done. Qed.

(** X9: the attributes that [get_attributes] shows follow every
    change of attributes.  For a fully qualified name that resolves to
    itself, in a state where cached names are registered in the reverse
    index and the Definitions of the name are objects of the store:
    after [set_attributes(name, a)] the visible attributes are [a];
    after [set_attribute(name, a)] they are the attributes of the user
    Definition (those of the builtin if the user Definition had to be
    created) with the bits of [a] set; after [clear_attribute(name, a)]
    the same with the bits of [a] cleared.  A cached merged Definition
    never hides the change.  When the symbol has a user Definition or
    no plugin Definition, the attributes of the user Definition are the
    ones that were visible before. *)
Theorem attributes_follow_mutation (fuel fuel' : nat) (name : string) (a : Z)
    (st : Definitions)
    (Hfq : Names.fully_qualified_symbol_name name = true)
    (Hself : self_resolved st name)
    (Hind : indexed st)
    (Halloc : Forall (allocated st) (sources st name)) :
  (∃ st1 st2,
     set_attributes fuel name a st = Some (tt, st1)
     ∧ get_attributes (S fuel') name st1 = Some (a, st2))
  ∧ (∃ st1 st2,
       set_attribute fuel name a st = Some (tt, st1)
       ∧ get_attributes (S fuel') name st1
         = Some (Z.lor (user_attributes st name) a, st2))
  ∧ (∃ st1 st2,
       clear_attribute fuel name a st = Some (tt, st1)
       ∧ get_attributes (S fuel') name st1
         = Some (Z.land (user_attributes st name) (Z.lnot a), st2))
  ∧ (is_Some (user st !! name) ∨ pymathics st !! name = None →
     user_attributes st name = view_attributes st name).
Proof.
  pose proof (lookup_name_self fuel name st Hfq Hself) as Hlookup.
  destruct (user_definition_ready name st Hind Halloc)
    as (l & st2 & Hget & Hind2 & Hself2 & Hl & Hu & _ & _ & _ & Hattr & _).
  assert (Huser : user st2 !! name = Some l) by by rewrite Hu, lookup_insert_eq.
  assert (Hshow : ∀ d',
            ∃ st3, get_attributes (S fuel') name (finish_mutation name l d' st2)
                   = Some (attributes d', st3)).
  { intros d'.
    destruct (after_mutation attributes fuel' name st st2 l d' Hfq
                (Hself2 _ Hself) Hind2 Hl Huser) as (d & st3 & Hgetf & Ha & _).
    exists st3. unfold get_attributes. by rewrite Hgetf, Ha. }
  split; [| split; [| split]].
  - destruct (Hshow (set_attributes_field (objects st2 !!! l) a)) as [st3 H3].
    eexists _, st3. split; [by eapply set_attributes_run | exact H3].
  - destruct (Hshow (set_attributes_field (objects st2 !!! l)
                       (Z.lor (attributes (objects st2 !!! l)) a))) as [st3 H3].
    eexists _, st3. split; [by eapply set_attribute_run |].
    rewrite H3. simpl. by rewrite Hattr.
  - destruct (Hshow (set_attributes_field (objects st2 !!! l)
                       (Z.land (attributes (objects st2 !!! l)) (Z.lnot a))))
      as [st3 H3].
    eexists _, st3. split; [by eapply clear_attribute_run |].
    rewrite H3. simpl. by rewrite Hattr.
  - unfold user_attributes, view_attributes, sources.
    intros [[l0 ->] | Hp]; [done |]. rewrite Hp.
    by destruct (user st !! name), (builtin st !! name).
Qed.

Lemma attributes_follow_mutation_witness :
  ∃ st1 st2,
    set_attributes 0 Examples.f 5 Samples.layered = Some (tt, st1)
    ∧ get_attributes 1 Examples.f st1 = Some (5%Z, st2).
Proof.
  assert (Hself : self_resolved Samples.layered Examples.f) by (intros v H; done).
  assert (Hind : indexed Samples.layered) by (intros k [l H]; done).
  assert (Halloc : Forall (allocated Samples.layered)
                     (sources Samples.layered Examples.f)).
  { repeat constructor; unfold allocated; simpl; lia. }
  exact (proj1 (attributes_follow_mutation 0 0 Examples.f 5 Samples.layered
                  eq_refl Hself Hind Halloc)).
Defined.

Lemma insert_rule_nil (rule : Rule) : insert_rule [] rule = [rule].
Proof. reflexivity. Qed.

(** X11: options set for a symbol are overlaid on the plugin and
    builtin options, they do not replace them.  For a fully qualified
    name that resolves to itself (cached names registered, Definitions
    allocated), after [set_options(name, options)] the result of
    [get_options(name)] has every given key with the given value; it is
    exactly the given map when the symbol has no plugin and no builtin
    Definition; and with a builtin Definition distinct from the user's
    (and no plugin one) it is the given map completed by the builtin's
    options, so that setting the empty map leaves the builtin options
    visible. *)
Theorem options_are_overlaid (fuel fuel' : nat) (name : string)
    (opts : gmap string Expr) (st : Definitions)
    (Hfq : Names.fully_qualified_symbol_name name = true)
    (Hself : self_resolved st name)
    (Hind : indexed st)
    (Halloc : Forall (allocated st) (sources st name)) :
  ∃ st1 st2 shown,
    set_options fuel name opts st = Some (tt, st1)
    ∧ get_options (S fuel') name st1 = Some (shown, st2)
    ∧ (∀ k v, opts !! k = Some v → shown !! k = Some v)
    ∧ (pymathics st !! name = None → builtin st !! name = None → shown = opts)
    ∧ (∀ b, pymathics st !! name = None → builtin st !! name = Some b →
            user st !! name ≠ Some b →
            shown = opts ∪ options (objects st !!! b)).
Proof.
  pose proof (lookup_name_self fuel name st Hfq Hself) as Hlookup.
  destruct (user_definition_ready name st Hind Halloc)
    as (l & st2 & Hget & Hind2 & Hself2 & Hl & Hu & Hp & Hb & _ & _ & _ & _ & _
        & Hsame & Hread & Hfresh).
  assert (Huser : user st2 !! name = Some l) by by rewrite Hu, lookup_insert_eq.
  set (d' := set_options_field (objects st2 !!! l) opts).
  destruct (finish_mutation_facts name l d' st2 Hl)
    as (_ & _ & _ & _ & _ & Hlc & _).
  destruct (after_mutation options fuel' name st st2 l d' Hfq
              (Hself2 _ Hself) Hind2 Hl Huser)
    as (d & st3 & Hgetf & _ & _ & [tail Ho] & Hnone & Hbuiltin).
  exists (finish_mutation name l d' st2), st3, (options (objects st3 !!! d)).
  split; [by eapply set_options_run |].
  split.
  { unfold get_options.
    assert (Hl2 : lookup_name (S fuel') name (finish_mutation name l d' st2)
                  = Some (name, finish_mutation name l d' st2)).
    { apply lookup_name_self; [done |]. intros v. rewrite Hlc. by apply Hself2. }
    by rewrite (bind_Some _ _ _ _ _ Hl2). }
  split.
  { intros k v Hk. rewrite Ho. by apply lookup_union_Some_l. }
  split.
  { intros Hpn Hbn. rewrite <- Hp in Hpn. rewrite <- Hb in Hbn.
    by destruct (Hnone Hpn Hbn) as [_ ->]. }
  intros b Hpn Hbn Hne.
  assert (Hballoc : allocated st b).
  { rewrite Forall_forall in Halloc. apply Halloc. unfold sources.
    rewrite Hpn, Hbn. apply elem_of_app. right. by left. }
  assert (Hbl : b ≠ l).
  { intros ->. destruct (user st !! name) as [l0 |] eqn:E.
    - specialize (Hsame l0 eq_refl). congruence.
    - by apply Hfresh. }
  rewrite <- Hp in Hpn. rewrite <- Hb in Hbn.
  rewrite (Hbuiltin b Hpn Hbn Hbl). simpl. by rewrite Hread.
Qed.

Lemma options_are_overlaid_witness :
  ∃ st1 st2 shown,
    set_options 0 Examples.f ∅ Samples.only_user_f = Some (tt, st1)
    ∧ get_options 1 Examples.f st1 = Some (shown, st2)
    ∧ shown = ∅.
Proof.
  assert (Hself : self_resolved Samples.only_user_f Examples.f)
    by (intros v H; done).
  assert (Hind : indexed Samples.only_user_f) by (intros k [l H]; done).
  assert (Halloc : Forall (allocated Samples.only_user_f)
                     (sources Samples.only_user_f Examples.f)).
  { repeat constructor; unfold allocated; simpl; lia. }
  destruct (options_are_overlaid 0 0 Examples.f ∅ Samples.only_user_f
              eq_refl Hself Hind Halloc)
    as (st1 & st2 & shown & Hset & Hget & _ & Hnone & _).
  exists st1, st2, shown. split; [exact Hset |]. split; [exact Hget |].
  exact (Hnone eq_refl eq_refl).
Defined.

(** ** The reverse index covers the cache *)

Lemma keeps_index_get_definition (fuel : nat) (name : string) (only_if_exists : bool) :
  keeps_index (get_definition fuel name only_if_exists).
Proof. intros st r st'. apply get_definition_indexed. Qed.

Lemma keeps_index_add_rule (fuel : nat) (name : string) (rule : Rule)
    (pos : option position) :
  keeps_index (add_rule fuel name rule pos).
Proof. unfold add_rule. keeps_index. Qed.

#[local] Hint Resolve keeps_index_get_definition keeps_index_run_mutation
  keeps_index_add_rule : keeps_index.




(** ** Fully qualified names resolve to themselves *)

Lemma resolved_sub (st st' : Definitions) :
  (∀ k v, lookup_cache st' !! k = Some v → lookup_cache st !! k = Some v) →
  resolved st → resolved st'.
Proof. intros Hsub Hres k v Hk. apply Hres. by apply Hsub. Qed.

Lemma resolved_same (st st' : Definitions) :
  lookup_cache st' = lookup_cache st → resolved st → resolved st'.
Proof. intros H. apply resolved_sub. intros k v. by rewrite H. Qed.

Lemma resolved_clear_cache (name : option string) (st : Definitions) :
  resolved st → resolved (clear_cache name st).
Proof.
  destruct name as [name |].
  - apply resolved_sub. intros k v. apply pop_all_Some.
  - intros _ k v H. done.
Qed.

Lemma resolved_register (o n : string) (l : loc) (st : Definitions) :
  (Names.fully_qualified_symbol_name o = true → n = o) →
  resolved st → resolved (register o n l st).
Proof.
  intros Hn Hres k v Hk Hfq. unfold register in Hk. cbn in Hk.
  destruct (decide (k = o)) as [-> | Hne].
  - rewrite lookup_insert_eq in Hk. simplify_eq. by apply Hn.
  - rewrite lookup_insert_ne in Hk by done. by apply Hres.
Qed.


Lemma keeps_resolved_bind {A B : Type} (m : M A) (f : A → M B) :
  keeps_resolved m → (∀ a, keeps_resolved (f a)) → keeps_resolved (m ≫= f).
Proof.
  intros Hm Hf st b st' H Hres.
  apply bind_inv in H as (a & st1 & H1 & H2). eapply Hf; [exact H2 |]. eauto.
Qed.

Lemma keeps_resolved_ret {A : Type} (a : A) : keeps_resolved (mret a).
Proof. intros st b st' H. unfold mret, M_ret in H. by simplify_eq. Qed.

Lemma keeps_resolved_raise {A : Type} : keeps_resolved (@raise A).
Proof. intros st b st' H. done. Qed.

Lemma keeps_resolved_or_raise {A : Type} (r : option A) : keeps_resolved (or_raise r).
Proof. destruct r; [apply keeps_resolved_ret | apply keeps_resolved_raise]. Qed.

Lemma keeps_resolved_gets {A : Type} (f : Definitions → A) : keeps_resolved (gets f).
Proof. intros st b st' H. unfold gets in H. by simplify_eq. Qed.

Lemma keeps_resolved_modify (f : Definitions → Definitions) :
  (∀ st, resolved st → resolved (f st)) → keeps_resolved (modify f).
Proof. intros Hf st b st' H. unfold modify in H. simplify_eq. apply Hf. Qed.

Lemma keeps_resolved_read (l : loc) : keeps_resolved (read l).
Proof. apply keeps_resolved_gets. Qed.

Lemma keeps_resolved_write (l : loc) (d : DefinitionT) : keeps_resolved (write l d).
Proof. apply keeps_resolved_modify. intros st. by apply resolved_same. Qed.

Lemma keeps_resolved_alloc (d : DefinitionT) : keeps_resolved (alloc d).
Proof. intros st l st' H. unfold alloc in H. simplify_eq. by apply resolved_same. Qed.

Lemma keeps_resolved_alloc_list (rules : list Rule) :
  keeps_resolved (alloc_list rules).
Proof.
  intros st l st' H. unfold alloc_list in H. simplify_eq. by apply resolved_same.
Qed.

Lemma keeps_resolved_clear_definitions_cache (name : string) :
  keeps_resolved (modify (clear_definitions_cache name)).
Proof. apply keeps_resolved_modify. intros st. by apply resolved_same. Qed.

Lemma keeps_resolved_clear_cache (name : option string) :
  keeps_resolved (modify (clear_cache name)).
Proof. apply keeps_resolved_modify, resolved_clear_cache. Qed.

Lemma select_definition_resolved (original full : string) (only_if_exists : bool)
    (st st' : Definitions) (r : option loc) :
  (Names.fully_qualified_symbol_name original = true → full = original) →
  select_definition original full only_if_exists st = Some (r, st') →
  resolved st → resolved st'.
Proof.
  intros Hfull Hsel Hres.
  destruct (sources st full) as [| l [| l' rest]] eqn:E.
  - destruct only_if_exists.
    + rewrite select_definition_none in Hsel by done. by simplify_eq.
    + destruct (decide (full = "")) as [-> | Hne].
      * unfold select_definition, sources in *. unfold_monad. simpl in *.
        destruct (user st !! ""), (pymathics st !! ""), (builtin st !! "");
          simplify_eq/=.
      * rewrite select_definition_vivify in Hsel by done. simplify_eq.
        revert Hres. apply resolved_same.
        by destruct (negb (Names.endswith_mark full)).
  - rewrite (select_definition_single _ _ _ _ l) in Hsel by done. simplify_eq.
    by apply resolved_register.
  - destruct (select_definition_merged original full only_if_exists st)
      as (d & st2 & Hsel' & _ & [_ _ Hlc _] & _); [rewrite E; simpl; lia |].
    rewrite Hsel' in Hsel. simplify_eq. apply resolved_register; [done |].
    by apply (resolved_same st).
Qed.

Lemma search_path_resolved (have : string → M bool) (name with_context : string)
    (path : list string) :
  (∀ n, keeps_resolved (have n)) →
  keeps_resolved (search_path have name with_context path).
Proof.
  intros Hhave. induction path as [| ctx path IH]; intros st full st' H Hres.
  - simpl in H. unfold mret, M_ret in H. by simplify_eq.
  - simpl in H. apply bind_inv in H as (found & st1 & H1 & H).
    pose proof (Hhave _ _ _ _ H1 Hres) as Hres1. destruct found.
    + unfold mret, M_ret in H. by simplify_eq.
    + by eapply IH.
Qed.

Lemma lookup_name_with_resolved (have : string → M bool) (name : string) :
  (∀ n, keeps_resolved (have n)) →
  ∀ st full st',
    lookup_name_with have name st = Some (full, st') → resolved st →
    resolved st'
    ∧ (Names.fully_qualified_symbol_name name = true → full = name).
Proof.
  intros Hhave st full st' H Hres. unfold lookup_name_with in H.
  unfold mbind at 1, M_bind at 1, gets at 1 in H.
  destruct (lookup_cache st !! name) as [v |] eqn:Ev.
  { unfold mret, M_ret in H. simplify_eq. split; [done |]. by apply Hres. }
  destruct (Names.fully_qualified_symbol_name name).
  { unfold mret, M_ret in H. by simplify_eq. }
  split; [| done].
  unfold mbind at 1, M_bind at 1, gets at 1 in H.
  destruct (Names.has_mark name).
  { destruct (Names.startswith_mark name); unfold mret, M_ret in H; by simplify_eq. }
  unfold mbind at 1, M_bind at 1, gets at 1 in H.
  by eapply search_path_resolved.
Qed.

Lemma keeps_resolved_have (fuel : nat) :
  (∀ name only, keeps_resolved (get_definition fuel name only)) →
  ∀ n, keeps_resolved (have_definition fuel n).
Proof.
  intros IH n s b s' Hhave. unfold have_definition in Hhave.
  apply bind_inv in Hhave as (d & s1 & Hget & Hret).
  unfold mret, M_ret in Hret. simplify_eq. by eapply IH.
Qed.

Lemma keeps_resolved_get_definition (fuel : nat) :
  ∀ name only_if_exists, keeps_resolved (get_definition fuel name only_if_exists).
Proof.
  induction fuel as [| fuel IH]; intros name oie st r st' H Hres; [done |].
  rewrite get_definition_step in H.
  destruct (definitions_cache st !! name); [by simplify_eq |].
  destruct (lookup_name fuel name st) as [[full st1] |] eqn:Hlookup; [| done].
  destruct (lookup_name_with_resolved (have_definition fuel) name
              (keeps_resolved_have fuel IH) st full st1 Hlookup Hres)
    as [Hres1 Hfull].
  by eapply select_definition_resolved.
Qed.

Lemma keeps_resolved_have_definition (fuel : nat) (name : string) :
  keeps_resolved (have_definition fuel name).
Proof. apply keeps_resolved_have, keeps_resolved_get_definition. Qed.

Lemma keeps_resolved_lookup_name (fuel : nat) (name : string) :
  keeps_resolved (lookup_name fuel name).
Proof.
  intros st full st' H Hres.
  by destruct (lookup_name_with_resolved (have_definition fuel) name
                 (keeps_resolved_have_definition fuel) st full st' H Hres).
Qed.

Create HintDb keeps_resolved.

#[local] Hint Resolve keeps_resolved_ret keeps_resolved_raise keeps_resolved_or_raise
  keeps_resolved_gets keeps_resolved_read keeps_resolved_write keeps_resolved_alloc
  keeps_resolved_alloc_list keeps_resolved_clear_definitions_cache
  keeps_resolved_clear_cache keeps_resolved_lookup_name
  keeps_resolved_get_definition keeps_resolved_have_definition : keeps_resolved.

Ltac keeps_resolved :=
  repeat first
    [ solve [auto with keeps_resolved]
    | apply keeps_resolved_bind; [| intros ?]
    | match goal with
      | |- keeps_resolved (let '(_, _) := ?x in _) => destruct x
      | |- keeps_resolved (match ?x with _ => _ end) => destruct x
      | |- keeps_resolved (if ?b then _ else _) => destruct b
      end
    | apply keeps_resolved_modify; intros ? ?; by eapply resolved_same ].

Lemma keeps_resolved_get_user_definition (name : string) (create : bool) :
  keeps_resolved (get_user_definition name create).
Proof. unfold get_user_definition. keeps_resolved. Qed.

Lemma keeps_resolved_mark_changed (l : loc) : keeps_resolved (mark_changed l).
Proof. unfold mark_changed. keeps_resolved. Qed.

Lemma keeps_resolved_add_format_form (l : loc) (rule : Rule) (form : string) :
  keeps_resolved (add_format_form l rule form).
Proof. unfold add_format_form. keeps_resolved. Qed.

#[local] Hint Resolve keeps_resolved_get_user_definition keeps_resolved_mark_changed
  keeps_resolved_add_format_form : keeps_resolved.

Lemma keeps_resolved_add_format_forms (l : loc) (rule : Rule) (forms : list string) :
  ∀ acc : M unit,
    keeps_resolved acc →
    keeps_resolved (foldl (λ acc form, acc;; add_format_form l rule form) acc forms).
Proof.
  induction forms as [| form forms IH]; intros acc Hacc; simpl; [done |].
  apply IH. keeps_resolved.
Qed.

Lemma keeps_resolved_add_format_loop (l : loc) (rule : Rule) (forms : list string) :
  keeps_resolved
    (foldl (λ acc form, acc;; add_format_form l rule form) (mret tt) forms).
Proof. apply keeps_resolved_add_format_forms. keeps_resolved. Qed.

#[local] Hint Resolve keeps_resolved_add_format_loop : keeps_resolved.

Lemma keeps_resolved_run_mutation (fuel : nat) (name : string) (m : mutation) :
  keeps_resolved (run_mutation fuel name m).
Proof.
  destruct m;
    unfold run_mutation, set_attribute, set_attributes, clear_attribute, add_rule,
      add_format, add_nvalue, add_default, add_message, add_rule_at, set_options,
      unset;
    keeps_resolved.
Qed.

Lemma keeps_resolved_add_rule (fuel : nat) (name : string) (rule : Rule)
    (pos : option position) :
  keeps_resolved (add_rule fuel name rule pos).
Proof. unfold add_rule. keeps_resolved. Qed.

#[local] Hint Resolve keeps_resolved_run_mutation keeps_resolved_add_rule
  : keeps_resolved.





(** ** Short names *)

Lemma append_String (c : ascii) (a b : string) :
  String c a +:+ b = String c (a +:+ b).
Proof. reflexivity. Qed.

Lemma prefix_app_drop (ctx name : string) :
  String.prefix ctx name = true →
  name = ctx +:+ string_drop (String.length ctx) name.
Proof.
  revert name. induction ctx as [| c ctx IH]; intros name H; [by destruct name |].
  destruct name as [| c' name]; [done |]. simpl in *.
  destruct (Ascii.ascii_dec c c') as [-> | Hne]; [| done].
  rewrite append_String. f_equal. by apply IH.
Qed.

Lemma prefix_app (ctx short : string) : String.prefix ctx (ctx +:+ short) = true.
Proof.
  induction ctx as [| c ctx IH]; simpl; [by destruct short |].
  by destruct (Ascii.ascii_dec c c).
Qed.

Lemma string_drop_app (ctx short : string) :
  string_drop (String.length ctx) (ctx +:+ short) = short.
Proof. induction ctx as [| c ctx IH]; simpl; [by destruct short | done]. Qed.

Lemma strip_context_no_mark (short : string) :
  Names.has_mark short = false → Names.strip_context short = short.
Proof.
  destruct short as [| c short]; [done |]. simpl.
  destruct (Names.is_mark c); [done |]. by intros ->.
Qed.

Lemma strip_context_app (ctx short : string) :
  Names.endswith_mark ctx = true → Names.has_mark short = false →
  Names.strip_context (ctx +:+ short) = short.
Proof.
  intros Hctx Hshort. induction ctx as [| c ctx IH]; [done |].
  rewrite append_String. cbn [Names.strip_context].
  rewrite has_mark_app, Hshort, orb_false_r.
  destruct ctx as [| c' ctx].
  - simpl in *. by rewrite Hctx.
  - rewrite (endswith_has_mark (String c' ctx)) by done. by apply IH.
Qed.

Lemma in_ctx_split (name ctx : string) :
  in_ctx name ctx = true →
  name = ctx +:+ string_drop (String.length ctx) name
  ∧ Names.has_mark (string_drop (String.length ctx) name) = false.
Proof.
  unfold in_ctx. rewrite andb_true_iff, negb_true_iff.
  intros [Hp Hm]. split; [by apply prefix_app_drop | done].
Qed.

Lemma in_ctx_app (ctx short : string) :
  Names.has_mark short = false → in_ctx (ctx +:+ short) ctx = true.
Proof.
  intros H. unfold in_ctx. by rewrite prefix_app, string_drop_app, H.
Qed.

Lemma shorten_loop_sound (name : string) (path : list string) :
  shorten_loop name path ≠ name →
  ∃ ctx, ctx ∈ path ∧ name = ctx +:+ shorten_loop name path
         ∧ Names.has_mark (shorten_loop name path) = false.
Proof.
  induction path as [| ctx path IH]; simpl; [done |].
  destruct (in_ctx name ctx) eqn:E.
  - intros _. exists ctx. destruct (in_ctx_split _ _ E) as [H1 H2].
    split; [by left | done].
  - intros H. destruct (IH H) as (c & Hc & Hrest). exists c. split; [by right | done].
Qed.

Lemma shorten_loop_complete (name : string) (path : list string) :
  Forall (λ ctx, Names.endswith_mark ctx = true) path →
  (∃ ctx, ctx ∈ path ∧ in_ctx name ctx = true) →
  shorten_loop name path = Names.strip_context name.
Proof.
  induction path as [| ctx path IH]; intros Hpath (c & Hc & Hin).
  { by apply elem_of_nil in Hc. }
  apply Forall_cons in Hpath as [Hctx Hpath]. simpl.
  destruct (in_ctx name ctx) eqn:E.
  - destruct (in_ctx_split _ _ E) as [H1 H2].
    rewrite H1 at 2. by rewrite strip_context_app.
  - apply IH; [done |]. exists c. split; [| done].
    apply elem_of_cons in Hc as [-> | Hc]; [congruence | done].
Qed.

Lemma shorten_name_loop (name : string) (st : Definitions) :
  shorten_name name st
  = if negb (Names.has_mark name) then name
    else shorten_loop name (current_context st :: context_path st).
Proof. reflexivity. Qed.

(** X13: [shorten_name] removes exactly an accessible context.  When
    the current context and every context of the path end with the
    separator: a name made of an accessible context and a short form
    without separator is shortened to that short form; a name that is
    changed is a context of [$Context] or [$ContextPath] followed by
    the result, and the result has no separator; a name without
    separator is returned as it is; and shortening twice is shortening
    once. *)
Theorem shorten_name_removes_accessible_context (st : Definitions)
    (Hcurrent : Names.endswith_mark (current_context st) = true)
    (Hpath : path_ok st = true) :
  (∀ ctx short, ctx ∈ current_context st :: context_path st →
                Names.has_mark short = false →
                shorten_name (ctx +:+ short) st = short)
  ∧ (∀ name, shorten_name name st ≠ name →
             ∃ ctx, ctx ∈ current_context st :: context_path st
                    ∧ name = ctx +:+ shorten_name name st
                    ∧ Names.has_mark (shorten_name name st) = false)
  ∧ (∀ name, Names.has_mark name = false → shorten_name name st = name)
  ∧ (∀ name, shorten_name (shorten_name name st) st = shorten_name name st).
Proof.
  assert (Hall : Forall (λ ctx, Names.endswith_mark ctx = true)
                   (current_context st :: context_path st)).
  { apply Forall_cons. split; [done |]. unfold path_ok in Hpath.
    rewrite forallb_forall in Hpath. apply Forall_forall. intros c Hc.
    apply Hpath. by apply list_elem_of_In. }
  assert (Hsound : ∀ name, shorten_name name st ≠ name →
             ∃ ctx, ctx ∈ current_context st :: context_path st
                    ∧ name = ctx +:+ shorten_name name st
                    ∧ Names.has_mark (shorten_name name st) = false).
  { intros name. rewrite shorten_name_loop.
    destruct (negb (Names.has_mark name)); [done |]. apply shorten_loop_sound. }
  assert (Hplain : ∀ name, Names.has_mark name = false → shorten_name name st = name).
  { intros name H. unfold shorten_name. by rewrite H. }
  split; [| split; [done | split; [done |]]].
  - intros ctx short Hctx Hshort. rewrite shorten_name_loop.
    assert (Hends : Names.endswith_mark ctx = true).
    { rewrite Forall_forall in Hall. by apply Hall. }
    rewrite has_mark_app, (endswith_has_mark ctx Hends). cbn [orb negb].
    rewrite shorten_loop_complete; [by apply strip_context_app | done |].
    exists ctx. split; [done | by apply in_ctx_app].
  - intros name. destruct (decide (shorten_name name st = name)) as [Heq | Hne];
      [by rewrite !Heq |].
    destruct (Hsound name Hne) as (_ & _ & _ & Hno). by apply Hplain.
Qed.

Lemma shorten_name_removes_accessible_context_witness :
  shorten_name "Global`f" Samples.layered = "f"
  ∧ shorten_name "System`Plus" Samples.layered = "Plus"
  ∧ shorten_name "Other`f" Samples.layered = "Other`f".
Proof.
  pose proof (shorten_name_removes_accessible_context Samples.layered
                eq_refl eq_refl) as (Hshort & _ & _ & _).
  split; [| split].
  - apply (Hshort "Global`" "f"); [by left | reflexivity].
  - apply (Hshort "System`" "Plus"); [right; by left | reflexivity].
  - reflexivity.
Defined.

(** ** Format values *)

Lemma ascending_head (x : Rule) (l : list Rule) :
  ascending (x :: l) = true
  ↔ Forall (λ y, rule_key x ≤ rule_key y) l ∧ ascending l = true.
Proof.
  simpl. rewrite andb_true_iff, forallb_forall, Forall_forall.
  split; intros [H1 H2]; (split; [| done]); intros y Hy.
  - apply Nat.leb_le, H1. by apply list_elem_of_In.
  - apply Nat.leb_le, H1. by apply list_elem_of_In.
Qed.

Lemma sort_insert_perm (x : Rule) (l : list Rule) : sort_insert x l ≡ₚ x :: l.
Proof.
  induction l as [| y l IH]; simpl; [done |].
  destruct (rule_lt y x); [| done]. rewrite IH. apply Permutation_swap.
Qed.

Lemma sort_insert_ascending (x : Rule) (l : list Rule) :
  ascending l = true → ascending (sort_insert x l) = true.
Proof.
  induction l as [| y l IH]; intros Hl; [done |].
  cbn [sort_insert]. unfold rule_lt.
  apply ascending_head in Hl as [Hy Hl].
  destruct (rule_key y <? rule_key x) eqn:E.
  - apply Nat.ltb_lt in E. apply ascending_head. split; [| by apply IH].
    rewrite sort_insert_perm. apply Forall_cons. split; [lia | done].
  - apply Nat.ltb_ge in E. apply ascending_head. split.
    + apply Forall_cons. split; [done |].
      eapply Forall_impl; [exact Hy |]. simpl. intros z Hz. lia.
    + by apply ascending_head.
Qed.

Lemma sort_insert_filter (k : nat) (x : Rule) (l : list Rule) :
  filter (λ r, rule_key r = k) (sort_insert x l)
  = filter (λ r, rule_key r = k) (x :: l).
Proof.
  induction l as [| y l IH]; [done |].
  cbn [sort_insert]. unfold rule_lt.
  destruct (rule_key y <? rule_key x) eqn:E; [| done].
  apply Nat.ltb_lt in E. rewrite filter_cons, IH, !filter_cons.
  destruct (decide (rule_key y = k)), (decide (rule_key x = k)); try done. lia.
Qed.

Lemma sort_rules_spec (l : list Rule) :
  sort_rules l ≡ₚ l
  ∧ ascending (sort_rules l) = true
  ∧ ∀ k, filter (λ r, rule_key r = k) (sort_rules l) = filter (λ r, rule_key r = k) l.
Proof.
  induction l as [| x l (IH1 & IH2 & IH3)]; [done |]. simpl. split; [| split].
  - by rewrite sort_insert_perm, IH1.
  - by apply sort_insert_ascending.
  - intros k. by rewrite sort_insert_filter, !filter_cons, IH3.
Qed.

Lemma get_definition_self (fuel : nat) (name : string) (st : Definitions) :
  Names.fully_qualified_symbol_name name = true → self_resolved st name →
  ∃ d st', (get_definition (S fuel) name false ≫= or_raise) st = Some (d, st').
Proof.
  intros Hfq Hself.
  destruct (definitions_cache st !! name) as [d |] eqn:E.
  - exists d, st.
    assert (H : get_definition (S fuel) name false st = Some (Some d, st))
      by by rewrite get_definition_step, E.
    by rewrite (bind_Some _ _ _ _ _ H).
  - destruct (fully_qualified_facts name Hfq) as (_ & _ & _ & Hne).
    destruct (select_definition_view name name st Hne) as (d & st' & Hsel & _).
    exists d, st'.
    assert (H : get_definition (S fuel) name false st = Some (Some d, st'))
      by by rewrite get_definition_step, E, (lookup_name_self _ _ _ Hfq Hself).
    by rewrite (bind_Some _ _ _ _ _ H).
Qed.

(** X14: [get_formats(name, format)] returns the rules of the asked
    format together with those of the format [""], sorted by a stable
    sort.  For a fully qualified name that resolves to itself the call
    returns; its result is a permutation of the two lists of the
    Definition that [get_definition] gives, in ascending order, and the
    rules of equal precedence keep the order they have in the
    concatenation, the asked format first.  With the default format
    [""] the same list is taken twice, so the result is twice as long
    as the list of the format [""]. *)
Theorem get_formats_sorts_both_lists (fuel : nat) (name format : string)
    (st : Definitions)
    (Hfq : Names.fully_qualified_symbol_name name = true)
    (Hself : self_resolved st name) :
  ∃ d result st',
    (get_definition (S fuel) name false ≫= or_raise) st = Some (d, st')
    ∧ get_formats (S fuel) name format st = Some (result, st')
    ∧ let named := format_bucket st' (objects st' !!! d) format in
      let unnamed := format_bucket st' (objects st' !!! d) "" in
      result ≡ₚ named ++ unnamed
      ∧ ascending result = true
      ∧ (∀ k, filter (λ r, rule_key r = k) result
              = filter (λ r, rule_key r = k) (named ++ unnamed))
      ∧ (format = "" → length result = 2 * length unnamed).
Proof.
  destruct (get_definition_self fuel name st Hfq Hself) as (d & st' & Hget).
  exists d, (sort_rules (format_bucket st' (objects st' !!! d) format
                         ++ format_bucket st' (objects st' !!! d) "")), st'.
  split; [done |]. split.
  { unfold get_formats. by rewrite (bind_Some _ _ _ _ _ Hget), bind_read. }
  simpl.
  destruct (sort_rules_spec (format_bucket st' (objects st' !!! d) format
                             ++ format_bucket st' (objects st' !!! d) ""))
    as (Hperm & Hasc & Hfilter).
  repeat (split; [done |]).
  intros ->. rewrite Hperm, length_app. lia.
Qed.

Lemma get_formats_sorts_both_lists_witness :
  ∃ d result st',
    get_formats 1 Examples.f "" Samples.formatted = Some (result, st')
    ∧ length result
      = 2 * length (format_bucket st' (objects st' !!! d) "").
Proof.
  assert (Hself : self_resolved Samples.formatted Examples.f)
    by (intros v H; done).
  destruct (get_formats_sorts_both_lists 0 Examples.f "" Samples.formatted
              eq_refl Hself)
    as (d & result & st' & _ & Hget & _ & _ & _ & Hlen).
  exists d, result, st'. split; [exact Hget | exact (Hlen eq_refl)].
Defined.

(** ** Replacing and removing user definitions *)

Lemma clear_cache_miss (name : string) (st : Definitions) :
  indexed st → definitions_cache (clear_cache (Some name) st) !! name = None.
Proof.
  intros Hind. unfold clear_cache. cbn [definitions_cache set_caches].
  rewrite pop_all_lookup. destruct (decide _) as [| Hnot]; [done |].
  destruct (definitions_cache st !! name) eqn:E; [| done].
  exfalso. apply Hnot, Hind. by rewrite E.
Qed.

Lemma clear_cache_self_resolved (name n : string) (st : Definitions) :
  self_resolved st n → self_resolved (clear_cache (Some name) st) n.
Proof. apply self_resolved_sub. intros v. apply pop_all_Some. Qed.

Lemma reset_user_definition_run (fuel : nat) (name full : string)
    (st st1 : Definitions) :
  lookup_name fuel name st = Some (full, st1) →
  reset_user_definition fuel name st
  = match user st1 !! full with
    | Some _ => Some (tt, clear_cache (Some full) (set_user (delete full) st1))
    | None => None
    end.
Proof.
  intros H. unfold reset_user_definition. rewrite (bind_Some _ _ _ _ _ H).
  unfold_monad. by destruct (user st1 !! full).
Qed.

Lemma add_user_definition_run (fuel : nat) (name full : string) (l : loc)
    (st st1 st2 : Definitions) :
  mark_changed l st = Some (tt, st1) →
  lookup_name fuel name st1 = Some (full, st2) →
  add_user_definition fuel name l st
  = Some (tt, clear_cache (Some full) (set_user (λ u, <[full := l]> u) st2)).
Proof.
  intros Hm H. unfold add_user_definition.
  by rewrite (bind_Some _ _ _ _ _ Hm), (bind_Some _ _ _ _ _ H).
Qed.

Lemma get_definition_fresh_lookup (fuel : nat) (name : string) (only : bool)
    (st : Definitions) :
  Names.fully_qualified_symbol_name name = true → self_resolved st name →
  definitions_cache st !! name = None →
  get_definition (S fuel) name only st = select_definition name name only st.
Proof.
  intros Hfq Hself Hmiss.
  by rewrite get_definition_step, Hmiss, (lookup_name_self _ _ _ Hfq Hself).
Qed.

Lemma reset_user_definition_self (fuel : nat) (name : string) (st : Definitions) :
  Names.fully_qualified_symbol_name name = true → self_resolved st name →
  reset_user_definition fuel name st
  = match user st !! name with
    | Some _ => Some (tt, clear_cache (Some name) (set_user (delete name) st))
    | None => None
    end.
Proof.
  intros Hfq Hself. apply reset_user_definition_run. by apply lookup_name_self.
Qed.

(** X15: [reset_user_definition] needs a user Definition and uncovers
    what lies below it.  For a fully qualified name that resolves to
    itself, in a state where the cached names are registered: the call
    raises ([KeyError]) when the user namespace has no Definition for
    the name; otherwise it removes that entry and nothing else from the
    namespaces, leaves the store and the clock as they are, and
    afterwards [have_definition(name)] holds exactly when a plugin or a
    builtin defines the name, and with a builtin only
    [get_definition(name)] is the builtin's own Definition. *)
Theorem reset_user_definition_uncovers (fuel fuel' : nat) (name : string)
    (st : Definitions)
    (Hfq : Names.fully_qualified_symbol_name name = true)
    (Hself : self_resolved st name)
    (Hind : indexed st) :
  (user st !! name = None → reset_user_definition fuel name st = None)
  ∧ (is_Some (user st !! name) →
     ∃ st1,
       reset_user_definition fuel name st = Some (tt, st1)
       ∧ user st1 = delete name (user st)
       ∧ pymathics st1 = pymathics st ∧ builtin st1 = builtin st
       ∧ objects st1 = objects st ∧ now st1 = now st
       ∧ (∃ st2, have_definition (S fuel') name st1
                 = Some (bool_decide (is_Some (pymathics st !! name)
                                      ∨ is_Some (builtin st !! name)), st2))
       ∧ (∀ b, pymathics st !! name = None → builtin st !! name = Some b →
               get_definition (S fuel') name false st1
               = Some (Some b, register name name b st1))).
Proof.
  pose proof (reset_user_definition_self fuel name st Hfq Hself) as Hrun.
  split; [intros Hnone; by rewrite Hrun, Hnone |].
  intros [u Hu]. rewrite Hu in Hrun.
  set (st1 := clear_cache (Some name) (set_user (delete name) st)) in *.
  assert (Hself1 : self_resolved st1 name) by by apply clear_cache_self_resolved.
  assert (Hmiss : definitions_cache st1 !! name = None).
  { apply clear_cache_miss. by eapply indexed_same_caches. }
  assert (Hsrc : sources st1 name
                 = option_list (pymathics st !! name)
                   ++ option_list (builtin st !! name)).
  { unfold sources. cbn. by rewrite lookup_delete_eq. }
  exists st1. repeat (split; [done |]). split.
  - unfold have_definition.
    destruct (pymathics st !! name) as [p |] eqn:Ep,
             (builtin st !! name) as [b |] eqn:Eb; simpl in Hsrc.
    + destruct (select_definition_merged name name true st1)
        as (d & st2 & Hsel & _); [rewrite Hsrc; simpl; lia |].
      rewrite <- get_definition_fresh_lookup with (fuel := fuel') in Hsel by done.
      eexists. rewrite (bind_Some _ _ _ _ _ Hsel). unfold mret, M_ret.
      rewrite !bool_decide_eq_true_2 by eauto. reflexivity.
    + pose proof (select_definition_single name name true st1 p Hsrc) as Hsel.
      rewrite <- get_definition_fresh_lookup with (fuel := fuel') in Hsel by done.
      eexists. rewrite (bind_Some _ _ _ _ _ Hsel). unfold mret, M_ret.
      rewrite !bool_decide_eq_true_2 by eauto. reflexivity.
    + pose proof (select_definition_single name name true st1 b Hsrc) as Hsel.
      rewrite <- get_definition_fresh_lookup with (fuel := fuel') in Hsel by done.
      eexists. rewrite (bind_Some _ _ _ _ _ Hsel). unfold mret, M_ret.
      rewrite !bool_decide_eq_true_2 by eauto. reflexivity.
    + pose proof (select_definition_none name name st1 Hsrc) as Hsel.
      rewrite <- get_definition_fresh_lookup with (fuel := fuel') in Hsel by done.
      eexists. rewrite (bind_Some _ _ _ _ _ Hsel). unfold mret, M_ret.
      rewrite (bool_decide_eq_false_2 (is_Some None)) by apply is_Some_None.
      rewrite bool_decide_eq_false_2; [done |].
      intros [[? ?] | [? ?]]; done.
  - intros b Hp Hb. rewrite Hp, Hb in Hsrc. simpl in Hsrc.
    rewrite get_definition_fresh_lookup by done.
    by apply select_definition_single.
Qed.

Lemma reset_user_definition_uncovers_witness :
  ∃ st1,
    reset_user_definition 0 Examples.f Samples.layered = Some (tt, st1)
    ∧ get_definition 1 Examples.f false st1
      = Some (Some 0, register Examples.f Examples.f 0 st1).
Proof.
  assert (Hself : self_resolved Samples.layered Examples.f) by (intros v H; done).
  assert (Hind : indexed Samples.layered) by (intros k [l H]; done).
  destruct (proj2 (reset_user_definition_uncovers 0 0 Examples.f Samples.layered
                     eq_refl Hself Hind) (ex_intro _ 1 eq_refl))
    as (st1 & Hreset & _ & _ & _ & _ & _ & _ & Hget).
  exists st1. split; [exact Hreset | exact (Hget 0 eq_refl eq_refl)].
Defined.

Lemma mark_changed_run (l : loc) (st : Definitions) :
  mark_changed l st
  = Some (tt, set_objects
                (<[l := set_changed_field (objects st !!! l) (now st + 1)]> (objects st))
                (set_now (now st + 1) st)).
Proof. reflexivity. Qed.

(** X16: [add_user_definition] installs the very object it is given.
    For a fully qualified name that resolves to itself, in a state
    where the cached names are registered, and a Definition object of
    the store: the call advances the clock by one and stamps the object
    with the new time, binds the name to the object in the user
    namespace whatever was bound before, and touches no other object;
    afterwards, when no plugin and no builtin defines the name,
    [get_definition(name)] is that object itself, not a copy; and
    [reset_user_definition(name)] then removes the binding again. *)
Theorem add_user_definition_installs (fuel fuel' : nat) (name : string)
    (l : loc) (st : Definitions)
    (Hfq : Names.fully_qualified_symbol_name name = true)
    (Hself : self_resolved st name)
    (Hind : indexed st)
    (Hl : allocated st l) :
  ∃ st1,
    add_user_definition fuel name l st = Some (tt, st1)
    ∧ user st1 = <[name := l]> (user st)
    ∧ pymathics st1 = pymathics st ∧ builtin st1 = builtin st
    ∧ now st1 = now st + 1
    ∧ objects st1 !!! l = set_changed_field (objects st !!! l) (now st + 1)
    ∧ (∀ c, c ≠ l → objects st1 !!! c = objects st !!! c)
    ∧ (pymathics st !! name = None → builtin st !! name = None →
       get_definition (S fuel') name false st1
       = Some (Some l, register name name l st1))
    ∧ (∃ st2, reset_user_definition fuel name st1 = Some (tt, st2)
              ∧ user st2 = delete name (user st)).
Proof.
  set (st0 := set_objects
                (<[l := set_changed_field (objects st !!! l) (now st + 1)]>
                   (objects st))
                (set_now (now st + 1) st)).
  assert (Hself0 : self_resolved st0 name) by done.
  set (st1 := clear_cache (Some name) (set_user (λ u, <[name := l]> u) st0)).
  assert (Hrun : add_user_definition fuel name l st = Some (tt, st1)).
  { apply (add_user_definition_run fuel name name l st st0 st0);
      [apply mark_changed_run | by apply lookup_name_self]. }
  assert (Hself1 : self_resolved st1 name) by by apply clear_cache_self_resolved.
  assert (Hmiss : definitions_cache st1 !! name = None).
  { apply clear_cache_miss. by eapply indexed_same_caches. }
  exists st1. split; [done |]. split; [done |]. split; [done |]. split; [done |].
  split; [done |]. split.
  { unfold st1, st0. cbn. by rewrite list_lookup_total_insert_eq. }
  split.
  { intros c Hc. unfold st1, st0. cbn. by rewrite list_lookup_total_insert_ne. }
  split.
  - intros Hp Hb. rewrite get_definition_fresh_lookup by done.
    apply select_definition_single. unfold sources, st1, st0. cbn.
    by rewrite lookup_insert_eq, Hp, Hb.
  - pose proof (reset_user_definition_self fuel name st1 Hfq Hself1) as Hreset.
    assert (Hbound : user st1 !! name = Some l).
    { unfold st1, st0. cbn. by rewrite lookup_insert_eq. }
    rewrite Hbound in Hreset. eexists. split; [exact Hreset |].
    unfold st1, st0. cbn. by rewrite delete_insert_eq.
Qed.

Lemma add_user_definition_installs_witness :
  ∃ st1,
    add_user_definition 0 "Global`g" 0 Samples.only_user_f = Some (tt, st1)
    ∧ get_definition 1 "Global`g" false st1
      = Some (Some 0, register "Global`g" "Global`g" 0 st1).
Proof.
  assert (Hself : self_resolved Samples.only_user_f "Global`g")
    by (intros v H; done).
  assert (Hind : indexed Samples.only_user_f) by (intros k [l H]; done).
  assert (Hl : allocated Samples.only_user_f 0) by (unfold allocated; simpl; lia).
  destruct (add_user_definition_installs 0 0 "Global`g" 0 Samples.only_user_f
              eq_refl Hself Hind Hl)
    as (st1 & Hadd & _ & _ & _ & _ & _ & _ & Hget & _).
  exists st1. split; [exact Hadd | exact (Hget eq_refl eq_refl)].
Defined.

(** ** Names that have a definition *)

Lemma sources_names (st : Definitions) (name : string) :
  sources st name ≠ [] ↔ name ∈ get_names st.
Proof.
  unfold sources, get_names, get_builtin_names, get_user_names, get_pymathics_names.
  rewrite !elem_of_union, !elem_of_dom.
  destruct (user st !! name), (pymathics st !! name), (builtin st !! name);
    simpl; split; intros H; try done; eauto.
  - destruct H as [[[? ?] | [? ?]] | [? ?]]; done.
Qed.

Lemma get_names_same (st st' : Definitions) :
  builtin st' = builtin st → user st' = user st → pymathics st' = pymathics st →
  get_names st' = get_names st.
Proof.
  intros Hb Hu Hp.
  unfold get_names, get_builtin_names, get_user_names, get_pymathics_names.
  by rewrite Hb, Hu, Hp.
Qed.

(** X18: [have_definition] agrees with [get_names].  For a fully
    qualified name that resolves to itself and has no entry in the
    cache of merged definitions, [have_definition(name)] returns, its
    result is true exactly when the name is in [get_names()], that is,
    in the builtin, the plugin or the user namespace, and the call
    leaves the three namespaces as they are. *)
Theorem have_definition_agrees_with_names (fuel : nat) (name : string)
    (st : Definitions)
    (Hfq : Names.fully_qualified_symbol_name name = true)
    (Hself : self_resolved st name)
    (Hmiss : definitions_cache st !! name = None) :
  ∃ st',
    have_definition (S fuel) name st
    = Some (bool_decide (name ∈ get_names st), st')
    ∧ get_names st' = get_names st
    ∧ get_builtin_names st' = get_builtin_names st
    ∧ get_pymathics_names st' = get_pymathics_names st
    ∧ get_user_names st' = get_user_names st.
Proof.
  assert (Hgo : ∃ r st',
            get_definition (S fuel) name true st = Some (r, st')
            ∧ (is_Some r ↔ sources st name ≠ [])
            ∧ builtin st' = builtin st ∧ user st' = user st
            ∧ pymathics st' = pymathics st).
  { rewrite get_definition_fresh_lookup by done.
    destruct (sources st name) as [| l [| l' rest]] eqn:E.
    - exists None, st. split; [by apply select_definition_none |].
      split; [| done]. split; [by intros [? ?] | done].
    - eexists _, _. split; [by apply select_definition_single |].
      split; [| done]. split; [done | by eexists].
    - destruct (select_definition_merged name name true st)
        as (d & st2 & Hsel & _ & [[Hb Hu Hp _ _ _ _ _] _ _ _] & _);
        [rewrite E; simpl; lia |].
      eexists _, _. split; [exact Hsel |]. split; [| done].
      split; [done | by eexists]. }
  destruct Hgo as (r & st' & Hget & Hr & Hb & Hu & Hp).
  exists st'. split.
  - unfold have_definition. rewrite (bind_Some _ _ _ _ _ Hget).
    unfold mret, M_ret. do 2 f_equal. apply bool_decide_ext.
    by rewrite Hr, sources_names.
  - split; [by apply get_names_same |].
    unfold get_builtin_names, get_user_names, get_pymathics_names.
    by rewrite Hb, Hu, Hp.
Qed.

Lemma have_definition_agrees_with_names_witness :
  ∃ st st',
    have_definition 1 Examples.f Samples.layered = Some (true, st)
    ∧ have_definition 1 "Global`g" Samples.layered = Some (false, st').
Proof.
  assert (Hf : self_resolved Samples.layered Examples.f) by (intros v H; done).
  assert (Hg : self_resolved Samples.layered "Global`g") by (intros v H; done).
  destruct (have_definition_agrees_with_names 0 Examples.f Samples.layered
              eq_refl Hf eq_refl) as (st & H1 & _).
  destruct (have_definition_agrees_with_names 0 "Global`g" Samples.layered
              eq_refl Hg eq_refl) as (st' & H2 & _).
  exists st, st'. split.
  - rewrite H1. do 2 f_equal.
  - rewrite H2. do 2 f_equal.
Defined.

(** ** Own-values and contexts *)

Lemma get_tag_position_object_symbol (name : string) :
  get_tag_position_object (Symbol name) name = Some (Some Own).
Proof. simpl. by rewrite String.eqb_refl. Qed.

Lemma pop_all_None {V : Type} (keys : gset string) (cache : gmap string V)
    (k : string) :
  cache !! k = None → pop_all keys cache !! k = None.
Proof. intros Hk. rewrite pop_all_lookup. by destruct (decide _). Qed.

Lemma bisect_loop_lowest (a : list Rule) (x : Rule) :
  Forall (key_from x) a → ∀ fuel hi, bisect_loop fuel a x 0 hi = 0.
Proof.
  intros Ha. induction fuel as [| fuel IH]; intros hi; [done |].
  rewrite bisect_loop_step. destruct (0 <? hi)%nat; [| done].
  destruct (a !! ((0 + hi) / 2)) as [y |] eqn:Hy; [| done].
  rewrite Forall_lookup in Ha. specialize (Ha _ _ Hy).
  unfold rule_lt, key_from in *.
  assert ((rule_key y <? rule_key x)%nat = false) as -> by (apply Nat.ltb_ge; lia).
  apply IH.
Qed.

Lemma insert_rule_first (values : list Rule) (rule : Rule) :
  Forall (key_from rule) values →
  insert_rule values rule = rule :: delete_same values (rule_pattern rule).
Proof.
  intros Hv. unfold insert_rule, insort_left, bisect_left.
  rewrite bisect_loop_lowest; [done |]. by apply delete_same_Forall.
Qed.

Lemma user_definition_named (name : string) (l : nat) (st st2 : Definitions) :
  (∀ l0, user st !! name = Some l0 → def_name (objects st !!! l0) = name) →
  (get_user_definition name true ≫= or_raise) st = Some (l, st2) →
  def_name (objects st2 !!! l) = name.
Proof.
  intros Hname Hget.
  destruct (user_definition_effect _ _ _ _ Hget) as (_ & Hexisting & Hcreated & _).
  destruct (user st !! name) as [l0 |] eqn:E.
  - destruct (Hexisting l0 eq_refl) as [-> ->]. by apply Hname.
  - destruct (Hcreated eq_refl) as (-> & -> & _).
    by rewrite lookup_total_app_r, Nat.sub_diag.
Qed.

Section Ownvalue.

Variable pattern_key : Expr → nat.

Lemma set_ownvalue_run (fuel : nat) (name : string) (value : Expr)
    (st st2 : Definitions) (l : nat) :
  Names.fully_qualified_symbol_name name = true → self_resolved st name →
  (∀ l0, user st !! name = Some l0 → def_name (objects st !!! l0) = name) →
  (get_user_definition name true ≫= or_raise) st = Some (l, st2) →
  set_ownvalue pattern_key fuel name value st
  = Some (tt, clear_cache (Some name)
                (finish_mutation name l
                   (Def.add_rule_at (objects st2 !!! l)
                      (new_Rule pattern_key (Symbol name) value) Own).2 st2)).
Proof.
  intros Hfq Hself Hname Hget.
  pose proof (lookup_name_self fuel name st Hfq Hself) as Hlookup.
  pose proof (user_definition_named _ _ _ _ Hname Hget) as Hdname.
  unfold set_ownvalue. rewrite (bind_Some _ _ _ _ _ Hlookup).
  assert (Hadd : Def.add_rule (objects st2 !!! l)
                   (new_Rule pattern_key (Symbol name) value)
                 = Some (Def.add_rule_at (objects st2 !!! l)
                           (new_Rule pattern_key (Symbol name) value) Own)).
  { rewrite add_rule_cases. simpl expr.
    by rewrite Hdname, get_tag_position_object_symbol. }
  by rewrite (bind_Some _ _ _ _ _
                (add_rule_run fuel name name _ None st st st2 l _ Hlookup Hget Hadd)).
Qed.

(** X19: what [set_ownvalue] stores, [get_ownvalue] returns.  For a
    fully qualified name that resolves to itself (cached names
    registered, Definitions allocated) whose user Definition, if there
    is one, carries that name: [set_ownvalue(name, value)] returns and a
    following [get_ownvalue(name)] returns a rule, the first of the
    user's own-values after the insertion of the rule
    [Rule(Symbol(name), value)]; it is that very rule unless the user
    already had an own-value of strictly smaller precedence key. *)
Theorem set_ownvalue_then_get_ownvalue (fuel fuel' : nat) (name : string)
    (value : Expr) (st : Definitions)
    (Hfq : Names.fully_qualified_symbol_name name = true)
    (Hself : self_resolved st name)
    (Hind : indexed st)
    (Halloc : Forall (allocated st) (sources st name))
    (Hname : ∀ l, user st !! name = Some l → def_name (objects st !!! l) = name) :
  let rule := new_Rule pattern_key (Symbol name) value in
  ∃ st1 st2 first,
    set_ownvalue pattern_key fuel name value st = Some (tt, st1)
    ∧ get_ownvalue (S fuel') name st1 = Some (Some first, st2)
    ∧ Some first = head (insert_rule (user_values st name Own) rule)
    ∧ rule ∈ insert_rule (user_values st name Own) rule
    ∧ (Forall (λ e, rule_key rule ≤ rule_key e) (user_values st name Own) →
       first = rule).
Proof.
  intros rule.
  destruct (user_definition_ready name st Hind Halloc)
    as (l & st2 & Hget & Hind2 & Hself2 & Hl & Hu & Hp & Hb & _ & _ & Hvals & _).
  assert (Huser : user st2 !! name = Some l) by by rewrite Hu, lookup_insert_eq.
  pose proof (set_ownvalue_run fuel name value st st2 l Hfq Hself Hname Hget) as Hset.
  fold rule in Hset.
  set (d' := (Def.add_rule_at (objects st2 !!! l) rule Own).2) in *.
  set (st3 := finish_mutation name l d' st2) in *.
  set (st4 := clear_cache (Some name) st3) in *.
  destruct (finish_mutation_facts name l d' st2 Hl)
    as (Hobj & _ & Hu3 & Hp3 & Hb3 & Hlc3 & _).
  assert (Hself4 : self_resolved st4 name).
  { apply clear_cache_self_resolved. intros v. unfold st3. rewrite Hlc3.
    by apply Hself2. }
  assert (Hmiss4 : definitions_cache st4 !! name = None).
  { apply pop_all_None. by apply finish_mutation_miss. }
  assert (Hsrc : sources st4 name
                 = l :: option_list (pymathics st2 !! name)
                     ++ option_list (builtin st2 !! name)).
  { unfold sources, st4. destruct (frame_clear_cache (Some name) st3)
      as (-> & -> & -> & _). unfold st3. by rewrite Hu3, Hp3, Hb3, Huser. }
  assert (Hobj4 : objects st4 !!! l = set_changed_field d' (now st2 + 1)).
  { unfold st4. destruct (frame_clear_cache (Some name) st3)
      as (_ & _ & _ & -> & _). exact Hobj. }
  assert (Hd' : ownvalues d' = insert_rule (user_values st name Own) rule).
  { unfold d'. simpl. by rewrite <- (Hvals Own). }
  clearbody st4 d'.
  destruct (get_field_self ownvalues fuel' name st4 Hfq Hself4 Hmiss4)
    as (d & st5 & Hfield & _ & Hview & _).
  specialize (Hview Own).
  unfold view_values in Hview. rewrite Hsrc in Hview. simpl in Hview.
  rewrite Hobj4 in Hview. simpl in Hview. rewrite Hd' in Hview.
  assert (Hins : ∃ first rest,
            insert_rule (user_values st name Own) rule = first :: rest).
  { destruct (insert_rule (user_values st name Own) rule) as [| f r] eqn:E;
      [| by eexists _, _].
    assert (Hin : rule ∈ insert_rule (user_values st name Own) rule)
      by (apply insert_rule_elem_of; by left).
    rewrite E in Hin. by apply elem_of_nil in Hin. }
  destruct Hins as (first & rest & Hins).
  rewrite Hins in Hview. simpl in Hview.
  exists st4, st5, first. split; [done |]. split.
  { unfold get_ownvalue.
    rewrite (bind_Some _ _ _ _ _ (lookup_name_self (S fuel') name st4 Hfq Hself4)).
    rewrite (bind_Some _ _ _ _ _ Hfield). unfold mret, M_ret. simpl in *.
    by rewrite Hview. }
  split; [by rewrite Hins |].
  split; [apply insert_rule_elem_of; by left |].
  intros Hkeys. rewrite insert_rule_first in Hins by done. by simplify_eq.
Qed.

Lemma context_change_run (fuel : nat) (name : string) (value : Expr)
    (st : Definitions) :
  Names.fully_qualified_symbol_name name = true → self_resolved st name →
  (∀ l0, user st !! name = Some l0 → def_name (objects st !!! l0) = name) →
  ∃ l st',
    set_ownvalue pattern_key fuel name value st = Some (tt, st')
    ∧ user st' = <[name := l]> (user st)
    ∧ builtin st' = builtin st ∧ pymathics st' = pymathics st
    ∧ current_context st' = current_context st
    ∧ context_path st' = context_path st
    ∧ now st' = now st + 1.
Proof.
  intros Hfq Hself Hname.
  destruct (user_definition_total name st) as (l & st2 & Hget).
  destruct (user_definition_effect _ _ _ _ Hget)
    as (Huser & _ & _ & Hb & Hp & Hnow & Hcc & Hpt & _).
  exists l. eexists. split; [by apply set_ownvalue_run |].
  simpl. repeat split; congruence.
Qed.

(** X20: a change of context empties both caches and the reverse
    index.  When [System`$Context] (for the path, [System`$ContextPath])
    resolves to itself and its user Definition, if there is one,
    carries that name, [set_current_context(context)] and
    [set_context_path(path)] return; afterwards the field they set has
    the new value and the other one is as before, the cache of merged
    definitions, the cache of resolved names and the reverse index are
    empty, the builtin and plugin namespaces are unchanged, the user
    namespace has changed at that one name only, and the clock has
    advanced by one.  The contexts of the new path are not checked. *)
Theorem context_change_empties_caches (fuel : nat) (st : Definitions) :
  (self_resolved st "System`$Context" →
   (∀ l, user st !! "System`$Context" = Some l →
         def_name (objects st !!! l) = "System`$Context") →
   ∀ context,
     ∃ l st',
       set_current_context pattern_key fuel context st = Some (tt, st')
       ∧ current_context st' = context
       ∧ context_path st' = context_path st
       ∧ definitions_cache st' = ∅ ∧ lookup_cache st' = ∅ ∧ proxy st' = ∅
       ∧ user st' = <["System`$Context" := l]> (user st)
       ∧ builtin st' = builtin st ∧ pymathics st' = pymathics st
       ∧ now st' = now st + 1)
  ∧ (self_resolved st "System`$ContextPath" →
     (∀ l, user st !! "System`$ContextPath" = Some l →
           def_name (objects st !!! l) = "System`$ContextPath") →
     ∀ path,
       ∃ l st',
         set_context_path pattern_key fuel path st = Some (tt, st')
         ∧ context_path st' = path
         ∧ current_context st' = current_context st
         ∧ definitions_cache st' = ∅ ∧ lookup_cache st' = ∅ ∧ proxy st' = ∅
         ∧ user st' = <["System`$ContextPath" := l]> (user st)
         ∧ builtin st' = builtin st ∧ pymathics st' = pymathics st
         ∧ now st' = now st + 1).
Proof.
  split.
  - intros Hself Hname context.
    destruct (context_change_run fuel "System`$Context" (MString context) st
                eq_refl Hself Hname)
      as (l & st1 & Hset & Hu & Hb & Hp & Hcc & Hpt & Hn).
    exists l. eexists. split.
    { unfold set_current_context. rewrite (bind_Some _ _ _ _ _ Hset).
      reflexivity. }
    simpl. by repeat split.
  - intros Hself Hname path.
    destruct (context_change_run fuel "System`$ContextPath"
                (to_mathics_list MString path) st eq_refl Hself Hname)
      as (l & st1 & Hset & Hu & Hb & Hp & Hcc & Hpt & Hn).
    exists l. eexists. split.
    { unfold set_context_path. rewrite (bind_Some _ _ _ _ _ Hset).
      reflexivity. }
    simpl. by repeat split.
Qed.

End Ownvalue.
End Engine.

(** * Examples *)

(** The statements above at concrete inputs, with pattern objects
    compared by the expressions they wrap. *)


Lemma add_rule_raises_on_atom_witness :
  let d := new_Definition Examples.f A_NO_ATTRIBUTES false in
  let one := Atom "System`Integer" "1" in
  get_tag_position one (def_name d) = None
  ∧ Def.remove_rule d one = (false, d)
  ∧ @Def.add_rule Samples.same_expr d (mkRule (mkPattern one) one 0) = None.
Proof.
  intros d one.
  destruct (@add_rule_raises_on_atom Samples.same_expr d
              (mkRule (mkPattern one) one 0) eq_refl
              ltac:(discriminate) ltac:(discriminate))
    as (Hraw & Hremove & Hadd & _).
  split; [exact Hraw |]. split; [exact Hremove | exact Hadd].
Defined.

Lemma mutation_clears_definitions_cache_witness :
  path_ok initial = true
  ∧ ∃ st', @run_mutation Samples.same_expr 1 "f" (SetAttribute 1) initial
           = Some (tt, st').
Proof.
  split; [reflexivity |].
  destruct (@mutation_clears_definitions_cache Samples.same_expr 0 "f"
              (SetAttribute 1) initial eq_refl)
    as (full & st1 & l & st2 & _ & _ & _ & Hreturn).
  destruct (Hreturn eq_refl) as (mid & st' & Hrun & _).
  by exists st'.
Defined.

Lemma remove_rule_exact_witness :
  let d := (@Def.add_rule_at Samples.same_expr
              (new_Definition Examples.f A_NO_ATTRIBUTES false)
              Samples.d1 Down).2 in
  get_tag_position Examples.f_x (def_name d) = Some Down
  ∧ has_same (get_values_list d Down) Examples.f_x = true
  ∧ (Def.remove_rule d Examples.f_x).2
    = new_Definition Examples.f A_NO_ATTRIBUTES false.
Proof.
  intros d. split; [reflexivity |]. split; [reflexivity |].
  destruct (remove_rule_exact d Examples.f_x) as (_ & _ & Hexact).
  destruct (Hexact Down eq_refl eq_refl) as (l1 & old & l2 & Hv & _ & _ & -> & _).
  destruct l1 as [| e l1]; [| destruct l1; discriminate Hv].
  injection Hv as _ <-. reflexivity.
Defined.

Lemma rule_methods_keep_order_witness :
  well_formed (new_Definition Examples.f A_NO_ATTRIBUTES false)
  ∧ well_formed
      (@Def.add_rule_at Samples.same_expr
         (new_Definition Examples.f A_NO_ATTRIBUTES false) Samples.d1 Down).2.
Proof.
  split; [apply new_Definition_well_formed |].
  apply (@rule_methods_keep_order Samples.same_expr _
           (new_Definition_well_formed _ _ _)).
Defined.

Lemma constructor_classifies_rules_witness :
  ∃ d, @Definition_of_rules Samples.same_expr Examples.f [Samples.d1] = Some d
       ∧ def_name d = Examples.f
       ∧ @Definition_of_rules Samples.same_expr Examples.f
           [mkRule (mkPattern (Symbol "Global`g")) (Symbol "Global`h") 0] = None.
Proof.
  eexists. split; [reflexivity |].
  split.
  - exact (proj1 (proj2 (@constructor_classifies_rules Samples.same_expr
                           Examples.f [Samples.d1]) _ eq_refl)).
  - apply (@constructor_classifies_rules Samples.same_expr).
    eexists. split; [by left | reflexivity].
Defined.







Lemma set_ownvalue_then_get_ownvalue_witness :
  ∃ st1 st2,
    @set_ownvalue Samples.same_expr (λ _, 0) 0 "System`$Context"
      (MString "Global`") initial = Some (tt, st1)
    ∧ get_ownvalue 1 "System`$Context" st1
      = Some (Some (mkRule (mkPattern (Symbol "System`$Context"))
                      (MString "Global`") 0), st2).
Proof.
  assert (Hself : self_resolved initial "System`$Context") by (intros v H; done).
  assert (Hind : indexed initial) by (intros k [l H]; done).
  assert (Halloc : Forall (allocated initial) (sources initial "System`$Context"))
    by constructor.
  destruct (@set_ownvalue_then_get_ownvalue Samples.same_expr (λ _, 0) 0 0
              "System`$Context" (MString "Global`") initial eq_refl Hself Hind
              Halloc ltac:(intros l H; done))
    as (st1 & st2 & first & Hset & Hget & _ & _ & Hfirst).
  exists st1, st2. split; [exact Hset |]. rewrite Hget.
  rewrite (Hfirst ltac:(constructor)). reflexivity.
Defined.

Lemma context_change_empties_caches_witness :
  ∃ st',
    @set_current_context Samples.same_expr (λ _, 0) 0 "Other`" Samples.layered
    = Some (tt, st')
    ∧ current_context st' = "Other`" ∧ lookup_cache st' = ∅.
Proof.
  assert (Hself : self_resolved Samples.layered "System`$Context")
    by (intros v H; done).
  destruct (proj1 (@context_change_empties_caches Samples.same_expr (λ _, 0) 0
                     Samples.layered) Hself ltac:(intros l H; done) "Other`")
    as (l & st' & Hset & Hcc & _ & _ & Hlc & _).
  exists st'. split; [exact Hset |]. split; [exact Hcc | exact Hlc].
Defined.
